(** * EVAE: a sequence variational autoencoder with latent regularisers

    Shallow embedding of [DrugEmbedding/evae.py] (class [EVAE]) and the
    properties of its loss terms.

    Conventions of the embedding.
    - Integer tensors (token ids, lengths, index tensors) are lists of [Z];
      the arithmetic of an int64 tensor wraps around and is written out.
    - Floating-point tensors are lists of real numbers [R]: the arithmetic
      is the exact one, [torch.log] and [torch.exp] are [ln] and [exp].
      The logarithm of the weight of the marginal estimator, which can be
      0, is a float that may be minus infinity; elsewhere statements are
      made where every logarithm has a positive argument.  Of single
      precision the thresholds below which a variance rounds to 0 and from
      which it rounds to infinity are kept.
    - A Python exception is a value [Raise e] of the type [result].
    - The learned layers ([nn.GRU], [nn.Linear]) are fields of the model
      record; a recurrent layer run on a packed batch treats every sequence
      of the batch on its own, so it is a function of one sequence.
    - Random draws ([torch.rand], [torch.randn]) are explicit arguments. *)

From Stdlib Require Import String Bool ZArith Reals Lra Lia List Permutation.
From Stdlib Require Import Sorting.Sorted.
Import ListNotations.

(** ** Exceptions and the error monad *)

Inductive exn : Set :=
| IndexError
| UnboundLocalError
| ZeroDivisionError
| RuntimeError
| ValueError.

Inductive result (A : Type) : Type :=
| Ok (a : A)
| Raise (e : exn).

Arguments Ok {A} a.
Arguments Raise {A} e.

Definition bind {A B : Type} (m : result A) (k : A -> result B) : result B :=
  match m with
  | Ok a => k a
  | Raise e => Raise e
  end.

Notation "x <- m ;; k" := (bind m (fun x => k))
  (at level 61, m at next level, right associativity).
Notation "' p <- m ;; k" := (bind m (fun p => k))
  (at level 61, p pattern, m at next level, right associativity).

Fixpoint mapM {A B : Type} (f : A -> result B) (l : list A) : result (list B) :=
  match l with
  | [] => Ok []
  | a :: l' => b <- f a ;; bs <- mapM f l' ;; Ok (b :: bs)
  end.

(** ** Tensors as lists *)

Definition sum_list (l : list R) : R := fold_right Rplus 0%R l.

(** [t.mean()] of a one-dimensional float tensor. *)
Definition mean_list (l : list R) : R := (sum_list l / INR (length l))%R.

Definition zeros (n : nat) : list R := repeat 0%R n.

Fixpoint list_set {A : Type} (i : nat) (v : A) (l : list A) : list A :=
  match l, i with
  | [], _ => []
  | _ :: l', O => v :: l'
  | a :: l', S i' => a :: list_set i' v l'
  end.

(** Elementwise operation on two tensors of the same shape. *)
Fixpoint map2 {A B C : Type} (f : A -> B -> C) (l : list A) (m : list B) : list C :=
  match l, m with
  | a :: l', b :: m' => f a b :: map2 f l' m'
  | _, _ => []
  end.

Fixpoint map3 {A B C D : Type} (f : A -> B -> C -> D)
  (l : list A) (m : list B) (k : list C) : list D :=
  match l, m, k with
  | a :: l', b :: m', c :: k' => f a b c :: map3 f l' m' k'
  | _, _, _ => []
  end.

(** Index of a numpy array or torch tensor axis of the given size by a
    Python integer: a negative index counts from the end, an index out of
    range raises. *)
Definition py_index (size : nat) (i : Z) : result nat :=
  if ((0 <=? i) && (i <? Z.of_nat size))%Z then Ok (Z.to_nat i)
  else if ((- Z.of_nat size <=? i) && (i <? 0))%Z then Ok (Z.to_nat (i + Z.of_nat size))
  else Raise IndexError.

(** [t[idx]] for an index tensor [idx]: selects rows. *)
Definition index_select {A : Type} (t : list A) (idx : list Z) : result (list A) :=
  mapM (fun i => k <- py_index (length t) i ;;
                 match nth_error t k with
                 | Some a => Ok a
                 | None => Raise IndexError
                 end) idx.

(** Modelled from the spec: [to_cuda_var] of [DrugEmbedding/utils.py] is not
    among the sources.  The spec counts device placement among the external
    utilities of no consequence for the values; it is the identity. *)
Definition to_cuda_var {A : Type} (t : A) : A := t.

(** ** [torch.sort]

    Returns the sorted values and, for each, its index in the input.  The
    model is the stable insertion sort on (value, index) pairs.  The library
    promises no order among equal values: the properties below rest only
    on the values being sorted and the indices being a permutation of the
    positions. *)

Definition le_dir (descending : bool) (a b : Z) : bool :=
  if descending then (b <=? a)%Z else (a <=? b)%Z.

Fixpoint insert_by (descending : bool) (x : Z * Z) (l : list (Z * Z)) : list (Z * Z) :=
  match l with
  | [] => [x]
  | y :: l' =>
      if le_dir descending (fst x) (fst y) then x :: y :: l'
      else y :: insert_by descending x l'
  end.

Fixpoint sort_pairs (descending : bool) (l : list (Z * Z)) : list (Z * Z) :=
  match l with
  | [] => []
  | x :: l' => insert_by descending x (sort_pairs descending l')
  end.

Definition arange (n : nat) : list Z := map Z.of_nat (seq 0 n).

Definition torch_sort (t : list Z) (descending : bool) : list Z * list Z :=
  let s := sort_pairs descending (combine t (arange (length t))) in
  (map fst s, map snd s).

(** ** The model *)

Record EVAE : Type := {
  hidden_size : nat;
  latent_size : nat;
  bidirectional : bool;
  num_layers : nat;
  word_dropout_rate : R;
  vocab_size : nat;
  max_sequence_length : nat;
  sos_idx : Z;
  eos_idx : Z;
  pad_idx : Z;
  unk_idx : Z;
  prior : string;
  alpha : R;
  beta : R;
  gamma : R;
  (* layers: each maps one example *)
  encoder_rnn : list (list R) -> list (list R);
  decoder_rnn : list (list R) -> list (list R) -> list (list R);
  hidden2mean : list R -> list R;
  hidden2logv : list R -> list R;
  latent2hidden : list R -> list R;
  outputs2vocab : list R -> list R
}.

Definition hidden_factor (self : EVAE) : nat :=
  ((if bidirectional self then 2 else 1) * num_layers self)%nat.

(** ** [one_hot_embedding]

    The array starts as zeros and the two loops visit every position once;
    the iteration at (b, t) writes only into the vector at (b, t). *)

Definition one_hot_char (self : EVAE) (char : Z) : result (list R) :=
  if (char =? 0)%Z then Ok (zeros (vocab_size self))
  else k <- py_index (vocab_size self) char ;;
       Ok (list_set k 1%R (zeros (vocab_size self))).

Definition one_hot_embedding (self : EVAE) (input_sequence : list (list Z))
  : result (list (list (list R))) :=
  embeddings <- mapM (fun batch => mapM (one_hot_char self) batch) input_sequence ;;
  Ok (to_cuda_var embeddings).

(** ** Packing and unpacking ([torch.nn.utils.rnn])

    A packed batch is the list of the sequences, each cut to its length.
    [pack_padded_sequence] (with its default [enforce_sorted]) rejects a
    tensor without entries, lengths that are not positive, not in
    decreasing order, or longer than the padded length, and a length list
    that does not match the batch. *)

Fixpoint sorted_desc (l : list Z) : bool :=
  match l with
  | [] => true
  | a :: l' =>
      match l' with
      | [] => true
      | b :: _ => (b <=? a)%Z && sorted_desc l'
      end
  end.

(** [t.numel()] of a three-dimensional tensor. *)
Definition numel (t : list (list (list R))) : nat := length (concat (concat t)).

Definition pack_padded_sequence (input : list (list (list R))) (lengths : list Z)
  : result (list (list (list R))) :=
  if (numel input =? 0)%nat then Raise RuntimeError
  else if negb (length lengths =? length input)%nat then Raise RuntimeError
  else if negb (forallb (fun l => (0 <? l)%Z) lengths) then Raise RuntimeError
  else if negb (sorted_desc lengths) then Raise RuntimeError
  else if negb (forallb (fun l => (l <=? Z.of_nat (length (hd [] input)))%Z) lengths)
       then Raise RuntimeError
  else Ok (map2 (fun l row => firstn (Z.to_nat l) row) lengths input).

Definition max_len (rows : list (list (list R))) : nat :=
  fold_right Nat.max 0%nat (map (@length (list R)) rows).

(** [pad_packed_sequence(outputs, batch_first=True)[0]]: every sequence is
    padded with zero vectors up to the longest one. *)
Definition pad_packed_sequence (width : nat) (outputs : list (list (list R)))
  : list (list (list R)) :=
  map (fun row => row ++ repeat (zeros width) (max_len outputs - length row)) outputs.

(** ** [encoder] *)

Definition encoder (self : EVAE) (input_sequence : list (list Z)) (sorted_lengths : list Z)
  : result (list (list R)) :=
  one_hot_rep <- one_hot_embedding self input_sequence ;;
  packed_input <- pack_padded_sequence one_hot_rep sorted_lengths ;;
  let hidden := map (encoder_rnn self) packed_input in
  Ok (if (1 <? hidden_factor self)%nat
      then map (@concat R) hidden
      else map (hd []) hidden).

(** ** [reparameterize] *)

Definition reparameterize (self : EVAE) (hidden : list (list R)) (eps : list (list R))
  : list (list R) * list (list R) * list (list R) :=
  let mean_z := map (hidden2mean self) hidden in
  let logv := map (hidden2logv self) hidden in
  let std := map (map (fun v => exp (0.5 * v)%R)) logv in
  let eps := to_cuda_var eps in
  let z := map2 (map2 Rplus) mean_z (map2 (map2 Rmult) eps std) in
  (mean_z, logv, z).

(** ** [decoder] *)

Definition wrap64 (x : Z) : Z := ((x + 2 ^ 63) mod 2 ^ 64 - 2 ^ 63)%Z.

(** [prob[(input - sos_idx) * (input - pad_idx) == 0] = 1], at one position. *)
Definition keep_prob (self : EVAE) (tok : Z) (p : R) : R :=
  if (wrap64 (wrap64 (tok - sos_idx self) * wrap64 (tok - pad_idx self)) =? 0)%Z
  then 1%R else p.

(** [decoder_input_sequence[prob < word_dropout_rate] = unk_idx], at one
    position. *)
Definition drop_token (self : EVAE) (tok : Z) (p : R) : Z :=
  if Rlt_dec p (word_dropout_rate self) then unk_idx self else tok.

(** The corrupted copy of the teacher-forcing input; [prob] is the draw of
    [torch.rand(input_sequence.size())]. *)
Definition decoder_input_sequence (self : EVAE) (input_sequence : list (list Z))
  (prob : list (list R)) : list (list Z) :=
  let prob := map2 (map2 (keep_prob self)) input_sequence prob in
  map2 (map2 (drop_token self)) input_sequence prob.

(** [reshape(k, sz)] of a flat tensor: [k] rows of [sz] entries. *)
Fixpoint chunk {A : Type} (k sz : nat) (l : list A) : list (list A) :=
  match k with
  | O => []
  | S k' => firstn sz l :: chunk k' sz (skipn sz l)
  end.

Definition log_softmax (x : list R) : list R :=
  let lse := ln (sum_list (map exp x)) in
  map (fun v => (v - lse)%R) x.

Definition decoder (self : EVAE) (input_sequence : list (list Z))
  (sorted_lengths sorted_idx : list Z) (z : list (list R)) (prob : list (list R))
  : result (list (list (list R))) :=
  let hidden := map (fun zb => chunk (num_layers self) (hidden_size self)
                                 (latent2hidden self zb)) z in
  (* teacher forcing dropout: the one-hot input is bound only in this branch *)
  decoder_one_hot_rep <-
    (if Rlt_dec 0 (word_dropout_rate self)
     then one_hot_embedding self (decoder_input_sequence self input_sequence prob)
     else Raise UnboundLocalError) ;;
  packed_input <- pack_padded_sequence decoder_one_hot_rep sorted_lengths ;;
  if negb (length hidden =? length packed_input)%nat then Raise RuntimeError else
  let outputs := map2 (decoder_rnn self) packed_input hidden in
  let padded_outputs := pad_packed_sequence (hidden_size self) outputs in
  let reversed_idx := snd (torch_sort sorted_idx false) in
  padded_outputs <- index_select padded_outputs reversed_idx ;;
  Ok (map (map (fun o => log_softmax (outputs2vocab self o))) padded_outputs).

(** ** Batches *)

Record Batch : Type := {
  drug_name : list string;
  drug_inputs : list (list Z);
  drug_targets : list (list Z);
  drug_len : list Z;
  loc_ranking_indicator : list Z;
  loc_ranking_len : list (list Z);
  loc_ranking_inputs : list (list (list Z))
}.

(** ** [get_intermediates] *)

Definition get_intermediates (self : EVAE) (batch : Batch) (eps : list (list R))
  : result (list (list R) * list (list R) * list (list R)) :=
  let input_sequence := drug_inputs batch in
  let input_sequence_length := drug_len batch in
  let '(sorted_lengths, sorted_idx) := torch_sort input_sequence_length true in
  input_sequence <- index_select input_sequence sorted_idx ;;
  let '(_, reversed_idx) := torch_sort sorted_idx false in
  hidden <- encoder self input_sequence sorted_lengths ;;
  let '(mean, logv, z) := reparameterize self hidden eps in
  mean <- index_select mean reversed_idx ;;
  logv <- index_select logv reversed_idx ;;
  z <- index_select z reversed_idx ;;
  Ok (mean, logv, z).

(** ** [torch.distributions.MultivariateNormal]

    Every covariance matrix of this program is diagonal, so its Cholesky
    factor [scale_tril] is the matrix of the square roots of the diagonal.
    [log_prob] is the library's: the Mahalanobis term of the difference
    through the factor, and half the log-determinant. *)

Definition eye (n : nat) : list (list R) :=
  map (fun i => map (fun j => if (i =? j)%nat then 1%R else 0%R) (seq 0 n)) (seq 0 n).

Definition diagonal (m : list (list R)) : list R :=
  map2 (fun i row => nth i row 0%R) (seq 0 (length m)) m.

Definition mvn_log_prob (loc : list R) (covariance_matrix : list (list R)) (value : list R) : R :=
  let scale_tril := map sqrt (diagonal covariance_matrix) in
  let diff := map2 Rminus value loc in
  let M := sum_list (map2 (fun d l => ((d / l) ^ 2)%R) diff scale_tril) in
  let half_log_det := sum_list (map ln scale_tril) in
  (- 0.5 * (INR (length loc) * ln (2 * PI) + M) - half_log_det)%R.

(** [torch.exp(logv).unsqueeze(-1) * diag], for one example. *)
Definition cov_of (logv : list R) (diag : list (list R)) : list (list R) :=
  map2 (fun v row => map (Rmult v) row) (map exp logv) diag.

Definition logsumexp (y : list R) : R := ln (sum_list (map exp y)).

(** Two facts of single precision are kept for the variances
    [exp(logv)]: a positive number that is not above [2^-150] rounds to 0,
    and a number from [2^128 - 2^103] on rounds to infinity. *)
Definition f32_underflow : R := (/ 2 ^ 150)%R.

Definition f32_overflow : R := (2 ^ 128 - 2 ^ 103)%R.

(** A number that single precision does not round to 0. *)
Definition positive_float (d : R) : bool :=
  if Rlt_dec f32_underflow d then true else false.

(** The constructor [MultivariateNormal(loc, covariance_matrix)] validates
    its arguments.  The check of [loc] reshapes it and raises
    [RuntimeError] on a tensor without entries; the covariance has to be
    positive definite, [ValueError] otherwise: for the diagonal matrices of
    this program, a diagonal without a zero. *)
Definition MultivariateNormal (loc : list (list R))
  (covariance_matrix : list (list (list R))) : result unit :=
  if (length (concat loc) =? 0)%nat then Raise RuntimeError
  else if negb (forallb (fun m => forallb positive_float (diagonal m)) covariance_matrix)
       then Raise ValueError
  else Ok tt.

(** ** [kl_loss] *)

Definition kl_loss (self : EVAE) (mean logv z : list (list R)) : result R :=
  let batch_size := length mean in
  let n := length (hd [] mean) in
  let diag := to_cuda_var (repeat (eye n) batch_size) in
  let cov := map2 cov_of logv diag in
  (* compute log probabilities of posterior *)
  _ <- MultivariateNormal mean cov ;;
  let logp_posterior_z := map3 mvn_log_prob mean cov z in
  (* [kl_loss] is bound only for the standard prior *)
  if String.eqb (prior self) "Standard" then
    _ <- MultivariateNormal [to_cuda_var (zeros n)] diag ;;
    let logp_prior_z := map2 (mvn_log_prob (to_cuda_var (zeros n))) diag z in
    Ok (sum_list (map2 Rminus logp_posterior_z logp_prior_z))
  else Raise UnboundLocalError.

(** ** [marginal_posterior_divergence] *)

(** Python's [a / b] on integers. *)
Definition py_truediv (a b : Z) : result R :=
  if (b =? 0)%Z then Raise ZeroDivisionError else Ok (IZR a / IZR b)%R.

Definition row {A : Type} (t : list A) (b : nat) : result A :=
  match nth_error t b with
  | Some r => Ok r
  | None => Raise IndexError
  end.

(** [torch.tensor(x)] of a Python integer is an int64 tensor: an integer
    out of its range raises an overflow error. *)
Definition tensor_of_int (x : Z) : result R :=
  if ((- 2 ^ 63 <=? x) && (x <? 2 ^ 63))%Z then Ok (IZR x) else Raise RuntimeError.

(** A float that may be minus infinity, for the logarithm of a weight. *)
Inductive xreal : Set :=
| NegInf
| Fin (r : R).

(** [torch.log] of a number that is not negative. *)
Definition torch_log (x : R) : xreal :=
  if Rlt_dec 0 x then Fin (ln x) else NegInf.

Definition xplus (r : R) (x : xreal) : xreal :=
  match x with
  | NegInf => NegInf
  | Fin v => Fin (r + v)
  end.

Definition xexp (x : xreal) : R :=
  match x with
  | NegInf => 0%R
  | Fin v => exp v
  end.

(** [torch.logsumexp] of a tensor with a finite entry. *)
Definition xlogsumexp (y : list xreal) : R := ln (sum_list (map xexp y)).

(** One round of the loop over [b]: the pair ([logq_zb], [logp_zb]).  The
    weight of the cross terms is not negative, and 0 at [num_samples = 1],
    where its logarithm is minus infinity.  The logarithm of [num_samples]
    is a number from [num_samples = 1] on; at 0 it is infinite and the
    division of the next line raises; below 0 it is not a number, and so
    is the value of the call, which the model does not give. *)
Definition mpd_step (z mean logv : list (list R)) (num_samples : Z) (b : nat)
  : result (R * list R) :=
  let batch_size := length mean in
  let n := length (hd [] mean) in
  let diag := to_cuda_var [eye n] in
  zb <- row z b ;;
  mu_b <- row mean b ;;
  logv_b <- row logv b ;;
  let zb := [zb] in
  let mu_b := [mu_b] in
  let logv_b := [logv_b] in
  let diag_b := to_cuda_var [eye n] in
  let cov_b := map2 cov_of logv_b diag_b in
  (* removing b-th mean and logv *)
  let zr := concat (repeat zb (batch_size - 1)) in
  let mu_r := firstn b mean ++ skipn (b + 1) mean in
  let logv_r := firstn b logv ++ skipn (b + 1) logv in
  let diag_r := to_cuda_var (repeat (eye n) (batch_size - 1)) in
  let cov_r := map2 cov_of logv_r diag_r in
  (* E[log q(zb)] = - H(q(z)) *)
  _ <- MultivariateNormal mu_b cov_b ;;
  let logq_zb_xb := map3 mvn_log_prob mu_b cov_b zb in
  _ <- MultivariateNormal mu_r cov_r ;;
  let logq_zb_xr := map3 mvn_log_prob mu_r cov_r zr in
  samples <- tensor_of_int num_samples ;;
  let yb1 := map (fun l => Fin (l - ln (to_cuda_var samples))) logq_zb_xb in
  w <- py_truediv (num_samples - 1) ((Z.of_nat batch_size - 1) * num_samples) ;;
  let yb2 := map (fun l => xplus l (torch_log (to_cuda_var w))) logq_zb_xr in
  let yb := yb1 ++ yb2 in
  let logq_zb := xlogsumexp yb in
  (* E[log p(zb)] *)
  _ <- MultivariateNormal [to_cuda_var (zeros n)] diag ;;
  let logp_zb := map2 (mvn_log_prob (to_cuda_var (zeros n))) diag zb in
  Ok (logq_zb, logp_zb).

Definition marginal_posterior_divergence (z mean logv : list (list R)) (num_samples : Z)
  : result R :=
  let batch_size := length mean in
  lst <- mapM (mpd_step z mean logv num_samples) (seq 0 batch_size) ;;
  (* [torch.stack] of an empty list raises *)
  match lst with
  | [] => Raise RuntimeError
  | _ =>
      let logq_zb := map fst lst in
      let logp_zb := map (fun p => hd 0%R (snd p)) lst in
      Ok (sum_list (map2 Rminus logq_zb logp_zb))
  end.

(** ** [compute_kernel], [compute_mmd], [mmd_loss] *)

(** [t.mean()] of a two-dimensional tensor. *)
Definition tensor_mean (t : list (list R)) : R := mean_list (concat t).

Definition compute_kernel (x y : list (list R)) : list (list R) :=
  let x_size := length x in
  let y_size := length y in
  let dim := length (hd [] x) in
  let tiled_x := map (fun xi => repeat xi y_size) x in
  let tiled_y := repeat y x_size in
  let kernel_input :=
    map2 (map2 (fun a b =>
                  (mean_list (map (fun d => (d ^ 2)%R) (map2 Rminus a b)) / INR dim)%R))
         tiled_x tiled_y in
  map (map (fun v => exp (- v))) kernel_input.

Definition compute_mmd (x y : list (list R)) : R :=
  let x_kernel := compute_kernel x x in
  let y_kernel := compute_kernel y y in
  let xy_kernel := compute_kernel x y in
  (tensor_mean x_kernel + tensor_mean y_kernel - 2 * tensor_mean xy_kernel)%R.

(** [true_samples] is the draw of [torch.randn([zq.shape[0], latent_size])]. *)
Definition mmd_loss (self : EVAE) (zq : list (list R)) (true_samples : list (list R)) : R :=
  let true_samples := to_cuda_var true_samples in
  compute_mmd true_samples zq.

(** ** [vae_loss] *)

(** [torch.nn.NLLLoss(ignore_index=pad_idx, reduction='sum')]. *)
Definition RECON (self : EVAE) (logp : list (list R)) (target : list Z) : result R :=
  if negb (length logp =? length target)%nat then Raise ValueError else
  terms <- mapM (fun lt : list R * Z =>
                   let (lp, t) := lt in
                   if (t =? pad_idx self)%Z then Ok 0%R
                   else if ((0 <=? t) && (t <? Z.of_nat (length lp)))%Z
                        then Ok (- nth (Z.to_nat t) lp 0)%R
                        else Raise IndexError)
                (combine logp target) ;;
  Ok (sum_list terms).

(** [torch.max] of a one-dimensional integer tensor. *)
Definition torch_max (t : list Z) : result Z :=
  match t with
  | [] => Raise RuntimeError
  | a :: t' => Ok (fold_right Z.max a t')
  end.

(** The draws of one call: [eps] for [reparameterize], [prob] for the word
    dropout of [decoder], [true_samples] for [mmd_loss]. *)
Definition vae_loss (self : EVAE) (batch : Batch) (num_samples : Z)
  (eps prob true_samples : list (list R)) : result (R * R * R * R) :=
  let batch_size := length (drug_name batch) in
  let input_sequence := drug_inputs batch in
  let target_sequence := drug_targets batch in
  let input_sequence_length := drug_len batch in
  (* compute reconstruction loss *)
  let '(sorted_lengths, sorted_idx) := torch_sort input_sequence_length true in
  input_sequence <- index_select input_sequence sorted_idx ;;
  hidden <- encoder self input_sequence sorted_lengths ;;
  let '(mean, logv, z) := reparameterize self hidden eps in
  logp_drug <- decoder self input_sequence sorted_lengths sorted_idx z prob ;;
  longest <- torch_max input_sequence_length ;;
  let target := concat (map (firstn (Z.to_nat longest)) target_sequence) in
  let logp := concat logp_drug in
  recon <- RECON self logp target ;;
  let recon_loss := (recon / INR batch_size)%R in
  (* kl loss *)
  kl_loss <- (if Rlt_dec 0 (beta self)
              then k <- kl_loss self mean logv z ;; Ok (k / INR batch_size)%R
              else Ok (to_cuda_var 0%R)) ;;
  (* marginal kl loss *)
  mkl_loss <- (if Rlt_dec 0 (alpha self)
               then m <- marginal_posterior_divergence z mean logv num_samples ;;
                    Ok (m / INR batch_size)%R
               else Ok (to_cuda_var 0%R)) ;;
  (* MMD loss *)
  let mmd_loss := if Rlt_dec 0 (gamma self)
                  then mmd_loss self z true_samples
                  else to_cuda_var 0%R in
  Ok (recon_loss, kl_loss, mkl_loss, mmd_loss).

(** ** [ranking_loss] *)

(** [t.view(-1, w)] of a flat tensor. *)
Fixpoint rows_of {A : Type} (fuel w : nat) (l : list A) : list (list A) :=
  match fuel with
  | O => []
  | S f =>
      match l with
      | [] => []
      | _ => firstn w l :: rows_of f w (skipn w l)
      end
  end.

Definition view_rows {A : Type} (w : nat) (l : list A) : result (list (list A)) :=
  if (w =? 0)%nat || negb (length l mod w =? 0)%nat then Raise RuntimeError
  else Ok (rows_of (length l) w l).

(** [t.view(k, w)] of a flat tensor. *)
Definition view_shape {A : Type} (k w : nat) (l : list A) : result (list (list A)) :=
  if negb (length l =? k * w)%nat then Raise RuntimeError
  else Ok (chunk k w l).

(** [F.pairwise_distance(x1, x2)] of one pair of rows, with its defaults
    [p = 2] and [eps = 1e-6]: the norm of [x1 - x2 + eps]. *)
Definition pairwise_eps : R := (1 / 1000000)%R.

Definition pairwise_distance (x1 x2 : list R) : R :=
  sqrt (sum_list (map (fun d => ((d + pairwise_eps) ^ 2)%R) (map2 Rminus x1 x2))).

(** The loop that collects the flagged examples. *)
Fixpoint select_from (instance_idx : list Z) (range : list nat) : result (list Z) :=
  match range with
  | [] => Ok []
  | i :: range' =>
      flag <- row instance_idx i ;;
      rest <- select_from instance_idx range' ;;
      Ok (if (flag =? 1)%Z then Z.of_nat i :: rest else rest)
  end.

(** Step 6 of [ranking_loss] and its last line: the loss from the matrix of
    distances, one row per selected anchor. *)
Definition softmax_margin (euclidean_dist : list (list R)) (n_select : nat) : result R :=
  column0 <- mapM (fun r => row r 0) euclidean_dist ;;
  let lse := map (fun r => logsumexp (map Ropp r)) euclidean_dist in
  let ranking_loss := sum_list (map2 Rplus column0 lse) in
  Ok (ranking_loss / INR n_select)%R.

(** Steps 5 and 6: from the candidate means and the anchor means, one row
    per candidate, to the loss. *)
Definition local_ranking_loss (mean_local_ranking mean_drug_exp : list (list R))
  (n_select group : nat) : result R :=
  if negb (length mean_local_ranking =? length mean_drug_exp)%nat
  then Raise RuntimeError else
  let euclidean_dist := map2 pairwise_distance mean_local_ranking mean_drug_exp in
  euclidean_dist <- view_shape n_select group euclidean_dist ;;
  softmax_margin euclidean_dist n_select.

(** [eps_drug] and [eps_local] are the draws of the two calls of
    [reparameterize]; only the means are used. *)
Definition ranking_loss (self : EVAE) (batch : Batch) (eps_drug eps_local : list (list R))
  : result R :=
  let batch_size := length (drug_name batch) in
  let instance_idx := loc_ranking_indicator batch in
  select_idx <- select_from instance_idx (seq 0 batch_size) ;;
  (* if no instance in the batch has ATC information *)
  if (length select_idx =? 0)%nat then Ok 0%R else
  input_sequence <- index_select (drug_inputs batch) select_idx ;;
  input_sequence_length <- index_select (drug_len batch) select_idx ;;
  let '(sorted_lengths, sorted_idx) := torch_sort input_sequence_length true in
  input_sequence <- index_select input_sequence sorted_idx ;;
  hidden_drug <- encoder self input_sequence sorted_lengths ;;
  let '(mean_drug, _, z_drug) := reparameterize self hidden_drug eps_drug in
  local_ranking_sequence_length <- index_select (loc_ranking_len batch) select_idx ;;
  local_ranking_inputs <- index_select (loc_ranking_inputs batch) select_idx ;;
  let group := length (hd [] local_ranking_sequence_length) in (* 1 + nneg *)
  (* step 1, flatten local drugs *)
  let local_ranking_sequence_length_flatten := concat local_ranking_sequence_length in
  local_ranking_inputs_flatten <-
    view_rows (max_sequence_length self - 1) (concat (concat local_ranking_inputs)) ;;
  (* step 2, sort; [squeeze()] of a single length leaves a scalar, and the
     row it selects is not a batch *)
  if (length local_ranking_sequence_length_flatten =? 1)%nat then Raise IndexError else
  let '(local_sorted_lengths, local_sorted_idx) :=
    torch_sort local_ranking_sequence_length_flatten true in
  local_ranking_inputs_flatten_sorted <-
    index_select local_ranking_inputs_flatten local_sorted_idx ;;
  hidden_local_ranking_drug <-
    encoder self local_ranking_inputs_flatten_sorted local_sorted_lengths ;;
  let '(mean_local_ranking, _, _) :=
    reparameterize self hidden_local_ranking_drug eps_local in
  (* step 3, restore order of local ranking inputs *)
  let local_reversed_idx := snd (torch_sort local_sorted_idx false) in
  mean_local_ranking <- index_select mean_local_ranking local_reversed_idx ;;
  (* step 4, restore order of drug inputs *)
  let reversed_idx := snd (torch_sort sorted_idx false) in
  mean_drug <- index_select mean_drug reversed_idx ;;
  mean_drug_exp <-
    view_rows (latent_size self)
              (concat (map (fun m => concat (repeat m group)) mean_drug)) ;;
  (* steps 5 and 6 *)
  local_ranking_loss mean_local_ranking mean_drug_exp (length select_idx) group.

(** ** [forward]

    The draws are those of the calls it makes: [eps], [prob] and
    [true_samples] for [vae_loss], [eps_drug] and [eps_local] for
    [ranking_loss].  A task other than the three named ones falls through
    the chain of tests and the call returns [None]. *)

Definition forward (self : EVAE) (task : string) (batch : Batch) (num_samples : Z)
  (eps prob true_samples eps_drug eps_local : list (list R))
  : result (option (R * R * R * R * R)) :=
  if String.eqb task "vae" then
    '(recon_loss, kl_loss, mkl_loss, mmd_loss) <-
      vae_loss self batch num_samples eps prob true_samples ;;
    Ok (Some (recon_loss, kl_loss, mkl_loss, mmd_loss, to_cuda_var 0%R))
  else if String.eqb task "atc" then
    local_ranking_loss <- ranking_loss self batch eps_drug eps_local ;;
    Ok (Some (to_cuda_var 0%R, to_cuda_var 0%R, to_cuda_var 0%R, to_cuda_var 0%R,
              local_ranking_loss))
  else if String.eqb task "vae + atc" then
    '(recon_loss, kl_loss, mkl_loss, mmd_loss) <-
      vae_loss self batch num_samples eps prob true_samples ;;
    local_ranking_loss <- ranking_loss self batch eps_drug eps_local ;;
    Ok (Some (recon_loss, kl_loss, mkl_loss, mmd_loss, local_ranking_loss))
  else Ok None.

(** * Reference definitions

    Shapes, the functions in the words of their description, and a small
    model with batches on which the functions above are run. *)

(** ** Shapes and valid inputs *)

(** Two tensors of the same shape. *)
Definition same_shape {A B : Type} (t : list (list A)) (u : list (list B)) : Prop :=
  Forall2 (fun r s => length r = length s) t u.

(** A tensor with [n] columns. *)
Definition has_width {A : Type} (n : nat) (t : list (list A)) : Prop :=
  Forall (fun r => length r = n) t.

(** A token that [one_hot_embedding] accepts: the constant 0, or an index
    of the vocabulary, counted from either end. *)
Definition valid_token (self : EVAE) (tok : Z) : Prop :=
  tok = 0%Z \/ (- Z.of_nat (vocab_size self) <= tok < Z.of_nat (vocab_size self))%Z.

(** A padded batch of [T] columns with its lengths: every token is
    accepted and every length is between 1 and [T]. *)
Definition valid_batch (self : EVAE) (T : nat) (X : list (list Z)) (L : list Z) : Prop :=
  length X = length L /\
  has_width T X /\
  Forall (Forall (valid_token self)) X /\
  Forall (fun l => (1 <= l <= Z.of_nat T)%Z) L.

(** A log-variance whose exponential does not round to 0: what the
    constructor of the distribution asks of it. *)
Definition variance_accepted (v : R) : Prop := (f32_underflow < exp v)%R.

(** A log-variance whose exponential is a positive and finite float. *)
Definition log_variance_ok (v : R) : Prop :=
  (f32_underflow < exp v < f32_overflow)%R.

(** Tensors [mean], [logv] and [z] of one shape, with at least one row and
    [n] columns, [n] at least 1, whose variances do not round to 0: what
    the distributions of the two KL terms accept. *)
Definition accepted_batch (n : nat) (mean logv z : list (list R)) : Prop :=
  (1 <= n)%nat /\ mean <> [] /\
  has_width n mean /\ has_width n logv /\ has_width n z /\
  length logv = length mean /\ length z = length mean /\
  Forall (Forall variance_accepted) logv.

(** Such tensors whose variances are finite floats as well, so that the
    log-densities are numbers. *)
Definition gaussian_batch (n : nat) (mean logv z : list (list R)) : Prop :=
  (1 <= n)%nat /\ mean <> [] /\
  has_width n mean /\ has_width n logv /\ has_width n z /\
  length logv = length mean /\ length z = length mean /\
  Forall (Forall log_variance_ok) logv.

(** ** Sorting and selecting *)

(** Selection of the rows of [t] at the positions [p]. *)
Definition gather {A : Type} (d : A) (t : list A) (p : list nat) : list A :=
  map (fun k => nth k t d) p.

(** The index tensor of [torch.sort] as positions. *)
Definition sort_perm (t : list Z) (descending : bool) : list nat :=
  map Z.to_nat (snd (torch_sort t descending)).

(** The order of the ascending sort on (value, index) pairs. *)
Definition key_le (a b : Z * Z) : Prop := (fst a <= fst b)%Z.

(** The order of the descending sort on (value, index) pairs. *)
Definition key_ge (a b : Z * Z) : Prop := (fst b <= fst a)%Z.

(** ** The layers on one example *)

(** The encoder on one example: tokens and length to the hidden vector. *)
Definition encode_example (self : EVAE) (xl : list Z * Z) : result (list R) :=
  one_hot <- mapM (one_hot_char self) (fst xl) ;;
  let hidden := encoder_rnn self (firstn (Z.to_nat (snd xl)) one_hot) in
  Ok (if (1 <? hidden_factor self)%nat then concat hidden else hd [] hidden).

(** The decoder on one example: tokens, length, latent code and dropout
    draws to the log-probabilities, padded to [m] steps. *)
Definition decode_example (self : EVAE) (m : nat)
  (ex : (list Z * Z) * (list R * list R)) : result (list (list R)) :=
  let '((tokens, len), (zb, pb)) := ex in
  let corrupted := map2 (drop_token self) tokens (map2 (keep_prob self) tokens pb) in
  one_hot <- mapM (one_hot_char self) corrupted ;;
  let hidden := chunk (num_layers self) (hidden_size self) (latent2hidden self zb) in
  let output := decoder_rnn self (firstn (Z.to_nat len) one_hot) hidden in
  let padded := output ++ repeat (zeros (hidden_size self)) (m - length output) in
  Ok (map (fun o => log_softmax (outputs2vocab self o)) padded).

(** The encoded mean of one example. *)
Definition encode_mean (self : EVAE) (xl : list Z * Z) : result (list R) :=
  h <- encode_example self xl ;; Ok (hidden2mean self h).

(** The encoded means of the candidates of one anchor. *)
Definition encode_candidates (self : EVAE) (c : list (list Z) * list Z)
  : result (list (list R)) :=
  mapM (encode_mean self) (combine (fst c) (snd c)).

(** ** Closed forms of the conditional KL *)

(** The value of [log q(z|x) - log p(z)] at a sample, one coordinate, and
    its sum over the coordinates and the batch. *)
Definition kl_sample_term (m lv zz : R) : R :=
  (0.5 * (zz ^ 2 - (zz - m) ^ 2 / exp lv - lv))%R.

Definition kl_sample (mean logv z : list (list R)) : R :=
  sum_list (map3 (fun m lv zz => sum_list (map3 kl_sample_term m lv zz)) mean logv z).

(** The analytic KL divergence from N(mean, diag(exp(logv))) to N(0, I). *)
Definition analytic_kl_term (m lv : R) : R :=
  (0.5 * (exp lv + m ^ 2 - 1 - lv))%R.

Definition analytic_kl (mean logv : list (list R)) : R :=
  sum_list (map2 (fun m lv => sum_list (map2 analytic_kl_term m lv)) mean logv).

(** What the value at a sample adds to the analytic divergence. *)
Definition sampling_term (m lv zz : R) : R :=
  (m * (zz - m) + 0.5 * ((zz - m) ^ 2 / exp lv - 1) * (exp lv - 1))%R.

Definition sampling_deviation (mean logv z : list (list R)) : R :=
  sum_list (map3 (fun m lv zz => sum_list (map3 sampling_term m lv zz)) mean logv z).

(** ** The marginal-posterior estimator, as described *)

(** The marginal-posterior estimator in the words of its description.
    [gauss_logpdf mu lv zz] is the log-density at [zz] of the Gaussian with
    mean [mu] and independent coordinates of log-variance [lv]. *)
Definition gauss_logpdf (mu lv zz : list R) : R :=
  sum_list (map3 (fun m l zi => (- 0.5 * (ln (2 * PI) + l + (zi - m) ^ 2 / exp l))%R)
                 mu lv zz).

Definition std_normal_logpdf (zz : list R) : R :=
  sum_list (map (fun zi => (- 0.5 * (ln (2 * PI) + zi ^ 2))%R) zz).

(** (num_samples - 1) / ((batch_size - 1) * num_samples) *)
Definition cross_weight (batch_size : nat) (num_samples : Z) : R :=
  (IZR (num_samples - 1) / (IZR (Z.of_nat batch_size - 1) * IZR num_samples))%R.

(** The examples other than [b]. *)
Definition others (batch_size b : nat) : list nat :=
  filter (fun r => negb (r =? b)%nat) (seq 0 batch_size).

(** log q(z_b): the in-example term and the cross-example terms, under
    one log-sum-exp. *)
Definition logq_marginal (z mean logv : list (list R)) (num_samples : Z) (b : nat) : R :=
  let batch_size := length mean in
  let zb := nth b z [] in
  xlogsumexp
    (Fin (gauss_logpdf (nth b mean []) (nth b logv []) zb - ln (IZR num_samples))
     :: map (fun r => xplus (gauss_logpdf (nth r mean []) (nth r logv []) zb)
                            (torch_log (cross_weight batch_size num_samples)))
            (others batch_size b)).

Definition marginal_divergence_sum (z mean logv : list (list R)) (num_samples : Z) : R :=
  sum_list (map (fun b => (logq_marginal z mean logv num_samples b
                           - std_normal_logpdf (nth b z []))%R)
                (seq 0 (length mean))).

(** ** The MMD, as described *)

(** The kernel of the MMD in the words of its description: the squared
    difference of two samples, averaged over the [dim] coordinates, divided
    by [dim], negated and exponentiated. *)
Definition mean_sq_diff (dim : nat) (a b : list R) : R :=
  (sum_list (map (fun i => ((nth i a 0 - nth i b 0) ^ 2)%R) (seq 0 dim)) / INR dim)%R.

Definition gaussian_kernel (dim : nat) (a b : list R) : R :=
  exp (- (mean_sq_diff dim a b / INR dim)).

(** The mean of the kernel over all pairs of a sample of [x] and one of [y]. *)
Definition kernel_mean (dim : nat) (x y : list (list R)) : R :=
  (sum_list (map (fun a => sum_list (map (fun b => gaussian_kernel dim a b) y)) x)
   / INR (length x * length y))%R.

(** ** The ranking loss, as described *)

(** The positions of the examples flagged for the ranking loss. *)
Definition selected (batch : Batch) : list nat :=
  filter (fun i => (nth i (loc_ranking_indicator batch) 0 =? 1)%Z)
         (seq 0 (length (drug_name batch))).

(** The ranking loss of one anchor from its distances to the candidates,
    the positive one at index 0: the distance to the positive plus the
    log-sum-exp of the negated distances. *)
Definition anchor_loss (d : list R) : R :=
  (nth 0 d 0 + ln (sum_list (map (fun k => exp (- nth k d 0)) (seq 0 (length d)))))%R.

(** The distances of the candidate means of one anchor to the anchor mean. *)
Definition candidate_distances (cands : list (list R)) (anchor : list R) : list R :=
  map (fun c => pairwise_distance c anchor) cands.

(** A batch whose flagged examples can be ranked: every tensor has one row
    per example, the sequences and the candidate groups are valid, every
    group has [g] candidates of [max_sequence_length - 1] tokens. *)
Definition rankable (self : EVAE) (T g : nat) (batch : Batch) : Prop :=
  let B := length (drug_name batch) in
  length (loc_ranking_indicator batch) = B /\
  length (drug_len batch) = B /\
  length (loc_ranking_len batch) = B /\
  valid_batch self T (drug_inputs batch) (drug_len batch) /\
  Forall2 (valid_batch self (max_sequence_length self - 1))
          (loc_ranking_inputs batch) (loc_ranking_len batch) /\
  has_width g (loc_ranking_len batch).

(** ** A small model and batches *)

(** A small model: four symbols, one hidden and one latent unit; the
    encoder state is the length of the sequence, the mean is the sum of the
    state, the log-variance is 0, the decoder emits a zero at every step. *)
Definition small_model (rate : R) (pad : Z) (a b g : R) : EVAE := {|
  hidden_size := 1;
  latent_size := 1;
  bidirectional := false;
  num_layers := 1;
  word_dropout_rate := rate;
  vocab_size := 4;
  max_sequence_length := 3;
  sos_idx := 2;
  eos_idx := 3;
  pad_idx := pad;
  unk_idx := 1;
  prior := "Standard";
  alpha := a;
  beta := b;
  gamma := g;
  encoder_rnn := fun x => [[INR (length x)]];
  decoder_rnn := fun x _ => map (fun _ => [0%R]) x;
  hidden2mean := fun h => [sum_list h];
  hidden2logv := fun _ => [0%R];
  latent2hidden := fun z => z;
  outputs2vocab := fun _ => zeros 4
|}.

(** A batch of one example, the sequence [sos eos pad] of length 2. *)
Definition batch_of_one : Batch := {|
  drug_name := ["aspirin"%string];
  drug_inputs := [[2; 3; 0]%Z];
  drug_targets := [[3; 0; 0]%Z];
  drug_len := [2%Z];
  loc_ranking_indicator := [0%Z];
  loc_ranking_len := [];
  loc_ranking_inputs := []
|}.

(** A batch of two examples in increasing length: [sos pad pad] of length 1
    and [sos eos pad] of length 2. *)
Definition batch_of_two : Batch := {|
  drug_name := ["aspirin"; "caffeine"]%string;
  drug_inputs := [[2; 0; 0]; [2; 3; 0]]%Z;
  drug_targets := [[3; 0; 0]; [3; 3; 0]]%Z;
  drug_len := [1; 2]%Z;
  loc_ranking_indicator := [0; 0]%Z;
  loc_ranking_len := [];
  loc_ranking_inputs := []
|}.

(** A batch of two examples, the second one flagged for the ranking loss
    with a positive candidate of length 2 and a negative one of length 1. *)
Definition batch_with_ranking : Batch := {|
  drug_name := ["aspirin"; "caffeine"]%string;
  drug_inputs := [[2; 0; 0]; [2; 3; 0]]%Z;
  drug_targets := [[3; 0; 0]; [3; 3; 0]]%Z;
  drug_len := [1; 2]%Z;
  loc_ranking_indicator := [0; 1]%Z;
  loc_ranking_len := [[1; 1]; [2; 1]]%Z;
  loc_ranking_inputs := [[[2; 0]; [2; 0]]; [[2; 3]; [2; 0]]]%Z
|}.

(** ** Inputs on which the losses return *)

(** A target that the reconstruction loss accepts: the pad symbol, which
    it ignores, or a symbol of the vocabulary. *)
Definition valid_target (self : EVAE) (t : Z) : Prop :=
  t = pad_idx self \/ (0 <= t < Z.of_nat (vocab_size self))%Z.

(** A vocabulary that is not empty and layers of the shapes their
    construction gives them: the recurrent decoder emits one output per
    step, the output layer one value per symbol, the two heads of the
    encoder one value per latent unit. *)
Definition layers_shaped (self : EVAE) : Prop :=
  (1 <= vocab_size self)%nat /\
  (forall x h, length (decoder_rnn self x h) = length x) /\
  (forall o, length (outputs2vocab self o) = vocab_size self) /\
  (forall h, length (hidden2mean self h) = latent_size self) /\
  (forall h, length (hidden2logv self h) = latent_size self).

(** The head of the log-variance gives variances [exp(logv)] that are
    positive finite floats. *)
Definition variances_ok (self : EVAE) : Prop :=
  forall h, Forall log_variance_ok (hidden2logv self h).



(** The model with another prior. *)
Definition with_prior (self : EVAE) (p : string) : EVAE := {|
  hidden_size := hidden_size self;
  latent_size := latent_size self;
  bidirectional := bidirectional self;
  num_layers := num_layers self;
  word_dropout_rate := word_dropout_rate self;
  vocab_size := vocab_size self;
  max_sequence_length := max_sequence_length self;
  sos_idx := sos_idx self;
  eos_idx := eos_idx self;
  pad_idx := pad_idx self;
  unk_idx := unk_idx self;
  prior := p;
  alpha := alpha self;
  beta := beta self;
  gamma := gamma self;
  encoder_rnn := encoder_rnn self;
  decoder_rnn := decoder_rnn self;
  hidden2mean := hidden2mean self;
  hidden2logv := hidden2logv self;
  latent2hidden := latent2hidden self;
  outputs2vocab := outputs2vocab self
|}.

(** Two batches that differ in the order of the negative candidates only:
    the names, the sequences and the flags are the same, and for every
    example the candidates with their lengths are the same positive
    candidate followed by the same negative ones in some order. *)
Definition same_up_to_negatives (batch batch' : Batch) : Prop :=
  drug_name batch' = drug_name batch /\
  drug_inputs batch' = drug_inputs batch /\
  drug_len batch' = drug_len batch /\
  loc_ranking_indicator batch' = loc_ranking_indicator batch /\
  Forall2 (fun c c' : list (list Z) * list Z =>
             exists c0 rest rest',
               combine (fst c) (snd c) = c0 :: rest /\
               combine (fst c') (snd c') = c0 :: rest' /\
               Permutation rest rest')
          (combine (loc_ranking_inputs batch) (loc_ranking_len batch))
          (combine (loc_ranking_inputs batch') (loc_ranking_len batch')).

(** * Properties *)

(** ** Basic facts on lists and on the error monad *)

Lemma if_Rlt_dec_true (A : Type) (a b : R) (x y : A) :
  (a < b)%R -> (if Rlt_dec a b then x else y) = x.
Proof. intros H. destruct (Rlt_dec a b); [reflexivity | contradiction]. Qed.

Lemma if_Rlt_dec_false (A : Type) (a b : R) (x y : A) :
  (b <= a)%R -> (if Rlt_dec a b then x else y) = y.
Proof. intros H. destruct (Rlt_dec a b); [lra | reflexivity]. Qed.

Lemma nth_error_map2 (A B C : Type) (f : A -> B -> C) (l : list A) (m : list B) (i : nat) :
  nth_error (map2 f l m) i =
  match nth_error l i, nth_error m i with
  | Some a, Some b => Some (f a b)
  | _, _ => None
  end.
Proof.
  revert m i. induction l as [|a l IH]; intros [|b m] [|i]; simpl; try reflexivity.
  - destruct (nth_error l i); reflexivity.
  - apply IH.
Qed.

Lemma length_map2 (A B C : Type) (f : A -> B -> C) (l : list A) (m : list B) :
  length (map2 f l m) = Nat.min (length l) (length m).
Proof.
  revert m. induction l as [|a l IH]; intros [|b m]; simpl; auto.
Qed.

Lemma one_hot_embedding_rows (self : EVAE) (X : list (list Z)) :
  one_hot_embedding self X = mapM (fun batch => mapM (one_hot_char self) batch) X.
Proof.
  unfold one_hot_embedding, to_cuda_var.
  destruct (mapM _ X); reflexivity.
Qed.

Ltac eval_Rlt :=
  repeat match goal with
    | |- context [Rlt_dec ?a ?b] =>
        first [ rewrite (@if_Rlt_dec_true _ a b) by lra
              | rewrite (@if_Rlt_dec_false _ a b) by lra ]
    end.

(** ** Inversion of the error monad *)

Lemma bind_Ok (A B : Type) (m : result A) (k : A -> result B) (b : B) :
  bind m k = Ok b -> exists a, m = Ok a /\ k a = Ok b.
Proof. destruct m as [a|e]; simpl; [eauto | discriminate]. Qed.

Tactic Notation "inv_bind" hyp(H) :=
  let a := fresh "a" in
  let Ha := fresh "Ha" in
  apply bind_Ok in H; destruct H as (a & Ha & H).

Tactic Notation "inv_bind" hyp(H) "as" ident(a) ident(Ha) :=
  apply bind_Ok in H; destruct H as (a & Ha & H).

(** ** The one-hot embedding and the pad symbol *)

(** C4.  The embedding tests the token id against the constant 0 and not
    against [pad_idx]: under a model whose pad symbol is [pad_idx <> 0],
    inside the vocabulary, the non-pad token 0 gets the all-zero vector
    and the pad token gets a vector with a 1 at index [pad_idx]. *)
Theorem one_hot_embedding_ignores_pad_idx (self : EVAE) :
  (0 < pad_idx self < Z.of_nat (vocab_size self))%Z ->
  one_hot_embedding self [[0%Z; pad_idx self]]
  = Ok [[zeros (vocab_size self);
         list_set (Z.to_nat (pad_idx self)) 1%R (zeros (vocab_size self))]].
Proof.
  intros Hpad. rewrite one_hot_embedding_rows. simpl.
  unfold one_hot_char at 1. simpl.
  unfold one_hot_char, py_index.
  replace (pad_idx self =? 0)%Z with false by (symmetry; apply Z.eqb_neq; lia).
  replace (0 <=? pad_idx self)%Z with true by (symmetry; apply Z.leb_le; lia).
  replace (pad_idx self <? Z.of_nat (vocab_size self))%Z with true
    by (symmetry; apply Z.ltb_lt; lia).
  reflexivity.
Qed.

Lemma one_hot_embedding_ignores_pad_idx_witness :
  one_hot_embedding (small_model (1 / 2) 1 0 0 0) [[0%Z; 1%Z]]
  = Ok [[[0; 0; 0; 0]%R; [0; 1; 0; 0]%R]].
Proof.
  apply (@one_hot_embedding_ignores_pad_idx (small_model (1 / 2) 1 0 0 0)).
  simpl. lia.
Defined.

(** ** Word dropout *)

Lemma wrap64_0 : wrap64 0 = 0%Z.
Proof. reflexivity. Qed.

Lemma keep_prob_special (self : EVAE) (tok : Z) (p : R) :
  tok = sos_idx self \/ tok = pad_idx self -> keep_prob self tok p = 1%R.
Proof.
  intros [-> | ->]; unfold keep_prob.
  - rewrite Z.sub_diag, wrap64_0, Z.mul_0_l, wrap64_0. reflexivity.
  - rewrite Z.sub_diag, wrap64_0, Z.mul_0_r, wrap64_0. reflexivity.
Qed.

Lemma drop_token_cases (self : EVAE) (tok : Z) (p : R) :
  drop_token self tok p = tok \/
  (drop_token self tok p = unk_idx self /\ (p < word_dropout_rate self)%R).
Proof.
  unfold drop_token. destruct (Rlt_dec p (word_dropout_rate self)); auto.
Qed.

Lemma same_shape_nth (A B : Type) (t : list (list A)) (u : list (list B)) (b i : nat)
  (r : list A) (a : A) :
  same_shape t u -> nth_error t b = Some r -> nth_error r i = Some a ->
  exists s p, nth_error u b = Some s /\ nth_error s i = Some p.
Proof.
  intros Hs. revert b. induction Hs as [|r0 s0 t u Hlen Hs IH]; intros [|b] Hr Ha;
    simpl in *; try discriminate.
  - injection Hr as ->. exists s0.
    destruct (nth_error s0 i) as [p|] eqn:E.
    + exists p. auto.
    + apply nth_error_None in E.
      assert (i < length r)%nat by (apply nth_error_Some; congruence). lia.
  - eauto.
Qed.

(** C8.  With a word-dropout rate in (0, 1], a position of the decoder
    input that holds the start-of-sequence or the pad symbol is left as it
    is in the corrupted copy; every position either keeps its token or
    holds the unknown symbol, and it is replaced only if its token is
    neither of the two symbols. *)
Theorem word_dropout_keeps_sos_and_pad
  (self : EVAE) (input_sequence : list (list Z)) (prob : list (list R))
  (b t : nat) (r : list Z) (tok : Z) :
  (0 < word_dropout_rate self <= 1)%R ->
  same_shape input_sequence prob ->
  nth_error input_sequence b = Some r ->
  nth_error r t = Some tok ->
  exists r' tok',
    nth_error (decoder_input_sequence self input_sequence prob) b = Some r' /\
    nth_error r' t = Some tok' /\
    (tok = sos_idx self \/ tok = pad_idx self -> tok' = tok) /\
    (tok' = tok \/
     (tok' = unk_idx self /\ tok <> sos_idx self /\ tok <> pad_idx self)).
Proof.
  intros Hrate Hshape Hr Htok.
  destruct (same_shape_nth _ _ _ _ _ _ _ _ Hshape Hr Htok) as (s & p & Hs & Hp).
  unfold decoder_input_sequence.
  exists (map2 (drop_token self) r (map2 (keep_prob self) r s)),
         (drop_token self tok (keep_prob self tok p)).
  split; [|split].
  - rewrite nth_error_map2, Hr, nth_error_map2, Hr, Hs. reflexivity.
  - rewrite nth_error_map2, Htok, nth_error_map2, Htok, Hp. reflexivity.
  - assert (Hkeep : tok = sos_idx self \/ tok = pad_idx self ->
                    drop_token self tok (keep_prob self tok p) = tok).
    { intros Hsp. rewrite (keep_prob_special self tok p Hsp).
      unfold drop_token. apply if_Rlt_dec_false. lra. }
    split; [exact Hkeep|].
    destruct (drop_token_cases self tok (keep_prob self tok p)) as [E | [E _]].
    + left. exact E.
    + destruct (Z.eq_dec tok (sos_idx self)) as [E1|E1];
        [left; apply Hkeep; auto|].
      destruct (Z.eq_dec tok (pad_idx self)) as [E2|E2];
        [left; apply Hkeep; auto|].
      right. auto.
Qed.

Lemma word_dropout_keeps_sos_and_pad_witness :
  exists r' tok',
    nth_error (decoder_input_sequence (small_model (1 / 2) 0 0 0 0)
                 [[2; 3; 0]%Z] [[0; 0; 0]%R]) 0 = Some r' /\
    nth_error r' 0 = Some tok' /\
    (2%Z = 2%Z \/ 2%Z = 0%Z -> tok' = 2%Z) /\
    (tok' = 2%Z \/ (tok' = 1%Z /\ 2%Z <> 2%Z /\ 2%Z <> 0%Z)).
Proof.
  apply (@word_dropout_keeps_sos_and_pad (small_model (1 / 2) 0 0 0 0)
           [[2; 3; 0]%Z] [[0; 0; 0]%R] 0 0 [2; 3; 0]%Z 2%Z).
  - simpl. lra.
  - repeat constructor.
  - reflexivity.
  - reflexivity.
Defined.

(** ** The decoder without word dropout *)

(** C1.  With a word-dropout rate of 0 the decoder does not produce the
    output of the uncorrupted path: the one-hot input of the recurrent
    layer is assigned only in the branch of a positive rate, so the call
    stops with [UnboundLocalError] whatever the batch is. *)
Theorem decoder_rate_zero_unbound
  (self : EVAE) (input_sequence : list (list Z)) (sorted_lengths sorted_idx : list Z)
  (z prob : list (list R)) :
  word_dropout_rate self = 0%R ->
  decoder self input_sequence sorted_lengths sorted_idx z prob = Raise UnboundLocalError.
Proof.
  intros Hrate. unfold decoder.
  rewrite if_Rlt_dec_false by lra. reflexivity.
Qed.

Lemma decoder_rate_zero_unbound_witness :
  decoder (small_model 0 0 0 0 0) [[2; 3; 0]%Z] [2%Z] [0%Z] [[0%R]] [[0; 0; 0]%R]
  = Raise UnboundLocalError.
Proof.
  apply (@decoder_rate_zero_unbound (small_model 0 0 0 0 0)).
  reflexivity.
Defined.

(** ** [torch.sort] returns a permutation *)

Lemma insert_by_perm (d : bool) (x : Z * Z) (l : list (Z * Z)) :
  Permutation (insert_by d x l) (x :: l).
Proof.
  induction l as [|y l IH]; simpl; [apply Permutation_refl|].
  destruct (le_dir d (fst x) (fst y)); [apply Permutation_refl|].
  eapply perm_trans; [apply perm_skip, IH | apply perm_swap].
Qed.

Lemma sort_pairs_perm (d : bool) (l : list (Z * Z)) :
  Permutation (sort_pairs d l) l.
Proof.
  induction l as [|x l IH]; simpl; [apply perm_nil|].
  eapply perm_trans; [apply insert_by_perm | apply perm_skip, IH].
Qed.

Lemma map_snd_combine (A B : Type) (l : list A) (m : list B) :
  length l = length m -> map snd (combine l m) = m.
Proof.
  revert m. induction l as [|a l IH]; intros [|b m] H; simpl in *;
    try discriminate; [reflexivity|].
  rewrite IH by lia. reflexivity.
Qed.

Lemma map_fst_combine (A B : Type) (l : list A) (m : list B) :
  length l = length m -> map fst (combine l m) = l.
Proof.
  revert m. induction l as [|a l IH]; intros [|b m] H; simpl in *;
    try discriminate; [reflexivity|].
  rewrite IH by lia. reflexivity.
Qed.

Lemma length_arange (n : nat) : length (arange n) = n.
Proof. unfold arange. rewrite length_map, length_seq. reflexivity. Qed.

Lemma to_nat_arange (n : nat) : map Z.to_nat (arange n) = seq 0 n.
Proof.
  unfold arange. rewrite map_map. rewrite <- (map_id (seq 0 n)) at 2.
  apply map_ext. intros k. apply Nat2Z.id.
Qed.

Lemma snd_torch_sort_perm (t : list Z) (d : bool) :
  Permutation (snd (torch_sort t d)) (arange (length t)).
Proof.
  unfold torch_sort. simpl.
  rewrite <- (map_snd_combine _ _ t (arange (length t))) at 2
    by (rewrite length_arange; reflexivity).
  apply Permutation_map, sort_pairs_perm.
Qed.

Lemma sort_perm_perm (t : list Z) (d : bool) :
  Permutation (sort_perm t d) (seq 0 (length t)).
Proof.
  unfold sort_perm. rewrite <- to_nat_arange.
  apply Permutation_map, snd_torch_sort_perm.
Qed.

Lemma snd_torch_sort (t : list Z) (d : bool) :
  snd (torch_sort t d) = map Z.of_nat (sort_perm t d).
Proof.
  unfold sort_perm. rewrite map_map.
  rewrite <- (map_id (snd (torch_sort t d))) at 1.
  apply map_ext_in. intros i Hi.
  apply (Permutation_in _ (snd_torch_sort_perm t d)) in Hi.
  unfold arange in Hi. apply in_map_iff in Hi as (k & <- & _).
  rewrite Nat2Z.id. reflexivity.
Qed.

Lemma in_combine_arange (t : list Z) (v i : Z) :
  In (v, i) (combine t (arange (length t))) -> v = nth (Z.to_nat i) t 0%Z.
Proof.
  intros Hin.
  destruct (In_nth _ _ (0%Z, 0%Z) Hin) as (k & Hk & E).
  rewrite length_combine, length_arange, Nat.min_id in Hk.
  rewrite combine_nth in E by (rewrite length_arange; reflexivity).
  injection E as E1 E2.
  unfold arange in E2.
  change 0%Z with (Z.of_nat 0) in E2 at 1.
  rewrite map_nth, seq_nth in E2 by exact Hk.
  subst i. simpl. rewrite Nat2Z.id. symmetry. exact E1.
Qed.

Lemma fst_torch_sort (t : list Z) (d : bool) :
  fst (torch_sort t d) = gather 0%Z t (sort_perm t d).
Proof.
  unfold sort_perm, gather, torch_sort. simpl.
  rewrite !map_map.
  apply map_ext_in. intros [v i] Hin. simpl.
  apply (Permutation_in _ (sort_pairs_perm d _)) in Hin.
  apply in_combine_arange. exact Hin.
Qed.

Lemma length_sort_perm (t : list Z) (d : bool) :
  length (sort_perm t d) = length t.
Proof.
  rewrite (Permutation_length (sort_perm_perm t d)). apply length_seq.
Qed.

Lemma perm_seq_lt (p : list nat) (n : nat) :
  Permutation p (seq 0 n) -> Forall (fun k => (k < n)%nat) p.
Proof.
  intros H. apply Forall_forall. intros k Hk.
  apply (Permutation_in _ H) in Hk. apply in_seq in Hk. lia.
Qed.

(** ** The ascending sort of a permutation is its inverse *)

Lemma insert_by_sorted (x : Z * Z) (l : list (Z * Z)) :
  Sorted key_le l -> Sorted key_le (insert_by false x l).
Proof.
  induction 1 as [|y l Hs IH Hhd]; simpl.
  - repeat constructor.
  - destruct (Z.leb_spec (fst x) (fst y)) as [Hle|Hgt].
    + constructor; [constructor; assumption|]. constructor. exact Hle.
    + constructor; [exact IH|].
      destruct l as [|w l]; simpl.
      * constructor. unfold key_le. lia.
      * destruct (Z.leb_spec (fst x) (fst w)).
        -- constructor. unfold key_le. lia.
        -- inversion Hhd; subst. constructor. assumption.
Qed.

Lemma sort_pairs_sorted (l : list (Z * Z)) : Sorted key_le (sort_pairs false l).
Proof.
  induction l as [|x l IH]; simpl; [constructor | apply insert_by_sorted, IH].
Qed.

Lemma sorted_map_fst (l : list (Z * Z)) :
  Sorted key_le l -> StronglySorted Z.le (map fst l).
Proof.
  intros H. apply Sorted_StronglySorted; [intros a b c; apply Z.le_trans|].
  induction H as [|y l Hs IH Hhd]; simpl; constructor; [exact IH|].
  destruct Hhd; simpl; constructor. assumption.
Qed.

Lemma arange_sorted (n : nat) : StronglySorted Z.le (arange n).
Proof.
  apply Sorted_StronglySorted; [intros a b c; apply Z.le_trans|].
  unfold arange. generalize 0%nat.
  induction n as [|n IH]; intros s; simpl; constructor; [apply IH|].
  destruct n; simpl; constructor. lia.
Qed.

Lemma sorted_perm_unique (l m : list Z) :
  StronglySorted Z.le l -> StronglySorted Z.le m -> Permutation l m -> l = m.
Proof.
  intros Hl. revert m. induction Hl as [|a l Hl IH Ha]; intros m Hm Hp.
  - apply Permutation_nil in Hp. subst. reflexivity.
  - destruct Hm as [|b m Hm Hb].
    + apply Permutation_sym, Permutation_nil in Hp. discriminate.
    + assert (a = b).
      { assert (Ia : In a (b :: m)) by (apply (Permutation_in _ Hp); simpl; auto).
        assert (Ib : In b (a :: l))
          by (apply (Permutation_in _ (Permutation_sym Hp)); simpl; auto).
        rewrite Forall_forall in Ha, Hb.
        destruct Ia as [->|Ia]; [reflexivity|].
        destruct Ib as [->|Ib]; [reflexivity|].
        apply Z.le_antisymm; auto. }
      subst b. f_equal. apply IH; [exact Hm|].
      apply Permutation_cons_inv in Hp. exact Hp.
Qed.

Lemma fst_torch_sort_of_perm (p : list nat) (n : nat) :
  Permutation p (seq 0 n) ->
  fst (torch_sort (map Z.of_nat p) false) = arange n.
Proof.
  intros Hp.
  assert (Hlen : length p = n)
    by (rewrite (Permutation_length Hp); apply length_seq).
  apply sorted_perm_unique.
  - unfold torch_sort. simpl. apply sorted_map_fst, sort_pairs_sorted.
  - apply arange_sorted.
  - unfold torch_sort. simpl.
    eapply perm_trans; [apply Permutation_map, sort_pairs_perm|].
    rewrite map_fst_combine by (rewrite length_arange; reflexivity).
    unfold arange. apply Permutation_map. exact Hp.
Qed.

(** The positions [q] of the ascending sort of [p] satisfy [p[q[j]] = j]. *)
Lemma gather_sort_perm_inverse (p : list nat) (n : nat) :
  Permutation p (seq 0 n) ->
  gather 0%nat p (sort_perm (map Z.of_nat p) false) = seq 0 n.
Proof.
  intros Hp.
  pose proof (fst_torch_sort (map Z.of_nat p) false) as E.
  rewrite (fst_torch_sort_of_perm p n Hp) in E.
  apply (f_equal (map Z.to_nat)) in E.
  rewrite to_nat_arange in E. rewrite E.
  unfold gather. rewrite map_map. apply map_ext. intros k.
  change 0%Z with (Z.of_nat 0). rewrite map_nth. rewrite Nat2Z.id. reflexivity.
Qed.

(** ** Selecting rows *)

Lemma py_index_of_nat (size k : nat) :
  (k < size)%nat -> py_index size (Z.of_nat k) = Ok k.
Proof.
  intros H. unfold py_index.
  replace (0 <=? Z.of_nat k)%Z with true by (symmetry; apply Z.leb_le; lia).
  replace (Z.of_nat k <? Z.of_nat size)%Z with true by (symmetry; apply Z.ltb_lt; lia).
  simpl. rewrite Nat2Z.id. reflexivity.
Qed.

Lemma index_select_gather (A : Type) (d : A) (t : list A) (p : list nat) :
  Forall (fun k => (k < length t)%nat) p ->
  index_select t (map Z.of_nat p) = Ok (gather d t p).
Proof.
  unfold index_select, gather.
  induction 1 as [|k p Hk Hp IH]; simpl; [reflexivity|].
  rewrite py_index_of_nat by exact Hk. simpl.
  rewrite (nth_error_nth' t d Hk). rewrite IH. reflexivity.
Qed.

Lemma length_gather (A : Type) (d : A) (t : list A) (p : list nat) :
  length (gather d t p) = length p.
Proof. apply length_map. Qed.

Lemma gather_map (A B : Type) (f : A -> B) (d : A) (t : list A) (p : list nat) :
  gather (f d) (map f t) p = map f (gather d t p).
Proof.
  unfold gather. rewrite map_map. apply map_ext. intros k. apply map_nth.
Qed.

Lemma gather_indep (A : Type) (d d' : A) (t : list A) (p : list nat) :
  Forall (fun k => (k < length t)%nat) p -> gather d t p = gather d' t p.
Proof.
  intros H. unfold gather. apply map_ext_in. intros k Hk.
  rewrite Forall_forall in H. apply nth_indep. auto.
Qed.

Lemma gather_seq (A : Type) (d : A) (t : list A) :
  gather d t (seq 0 (length t)) = t.
Proof.
  unfold gather. induction t as [|a t IH]; simpl; [reflexivity|].
  rewrite <- seq_shift, map_map. simpl. rewrite IH. reflexivity.
Qed.

Lemma gather_gather (A : Type) (d : A) (t : list A) (p q : list nat) :
  Forall (fun j => (j < length p)%nat) q ->
  gather d (gather d t p) q = gather d t (gather 0%nat p q).
Proof.
  intros H. unfold gather. rewrite map_map. apply map_ext_in. intros j Hj.
  rewrite Forall_forall in H.
  rewrite (nth_indep _ d (nth 0 t d)) by (rewrite length_map; auto).
  rewrite (map_nth (fun k => nth k t d)).
  destruct p as [|p0 p]; [exfalso; apply H in Hj; simpl in Hj; lia|].
  reflexivity.
Qed.

Lemma sort_perm_lt (t : list Z) (d : bool) :
  Forall (fun k => (k < length t)%nat) (sort_perm t d).
Proof. apply perm_seq_lt, sort_perm_perm. Qed.

Lemma sort_perm_of_nat_lt (p : list nat) (d : bool) :
  Forall (fun j => (j < length p)%nat) (sort_perm (map Z.of_nat p) d).
Proof.
  pose proof (sort_perm_lt (map Z.of_nat p) d) as H.
  rewrite length_map in H. exact H.
Qed.

(** Sorting a batch by [torch.sort] and selecting with the ascending sort
    of its index tensor gives the batch back. *)
Lemma gather_unsort (A : Type) (d : A) (t : list A) (p : list nat) :
  Permutation p (seq 0 (length t)) ->
  gather d (gather d t p) (sort_perm (map Z.of_nat p) false) = t.
Proof.
  intros Hp.
  assert (Hlen : length p = length t)
    by (rewrite (Permutation_length Hp); apply length_seq).
  rewrite gather_gather.
  - rewrite (gather_sort_perm_inverse p (length t) Hp). apply gather_seq.
  - apply sort_perm_of_nat_lt.
Qed.

(** ** [mapM] over selected rows *)

Lemma mapM_Ok_Forall2 (A B : Type) (f : A -> result B) (l : list A) (r : list B) :
  mapM f l = Ok r <-> Forall2 (fun x y => f x = Ok y) l r.
Proof.
  revert r. induction l as [|a l IH]; intros r; simpl.
  - split.
    + intros H. injection H as <-. constructor.
    + intros H. inversion H. reflexivity.
  - split.
    + intros H. inv_bind H. inv_bind H. injection H as <-.
      constructor; [assumption | apply IH; assumption].
    + intros H. inversion H as [|? y ? r' Hy Hr]; subst.
      rewrite Hy. simpl. apply IH in Hr. rewrite Hr. reflexivity.
Qed.

Lemma Forall2_gather (A B : Type) (R : A -> B -> Prop) (da : A) (db : B)
  (l : list A) (r : list B) (p : list nat) :
  Forall2 R l r -> Forall (fun k => (k < length l)%nat) p ->
  Forall2 R (gather da l p) (gather db r p).
Proof.
  intros H Hp. unfold gather.
  induction Hp as [|k p Hk Hp IH]; simpl; constructor; [|exact IH].
  clear IH Hp. revert k Hk.
  induction H as [|a b l r Hab H IH]; intros [|k] Hk; simpl in *; try lia; auto.
  apply IH. lia.
Qed.

Lemma Forall2_eq_r (A B : Type) (f : A -> result B) (l : list A) (r r' : list B) :
  Forall2 (fun x y => f x = Ok y) l r -> Forall2 (fun x y => f x = Ok y) l r' -> r = r'.
Proof.
  intros H. revert r'. induction H as [|a b l r Hab H IH]; intros r' H'.
  - inversion H'. reflexivity.
  - inversion H' as [|? b' ? r'' Hab' Hr']; subst.
    f_equal; [congruence | apply IH; assumption].
Qed.

(** If a row-wise computation succeeds on the sorted batch, it succeeds on
    the batch in its own order, and the sorted results are the results
    sorted. *)
Lemma mapM_gather (A B : Type) (f : A -> result B) (da : A) (db : B)
  (t : list A) (p : list nat) (r' : list B) :
  Permutation p (seq 0 (length t)) ->
  mapM f (gather da t p) = Ok r' ->
  exists r, mapM f t = Ok r /\ r' = gather db r p.
Proof.
  intros Hp H.
  assert (Hlen : length p = length t)
    by (rewrite (Permutation_length Hp); apply length_seq).
  pose (q := sort_perm (map Z.of_nat p) false).
  assert (Hq : Forall (fun j => (j < length p)%nat) q).
  { unfold q. apply sort_perm_of_nat_lt. }
  apply mapM_Ok_Forall2 in H.
  exists (gather db r' q). split.
  - apply mapM_Ok_Forall2.
    rewrite <- (gather_unsort _ da t p Hp) at 1. fold q.
    apply Forall2_gather; [exact H|].
    rewrite length_gather. exact Hq.
  - assert (H2 : Forall2 (fun x y => f x = Ok y) (gather da t p)
                   (gather db (gather db r' q) p)).
    { apply Forall2_gather.
      - rewrite <- (gather_unsort _ da t p Hp) at 1. fold q.
        apply Forall2_gather; [exact H|].
        rewrite length_gather. exact Hq.
      - apply perm_seq_lt. exact Hp. }
    exact (Forall2_eq_r _ _ _ _ _ _ H H2).
Qed.

Lemma nth_map2 (A B C : Type) (f : A -> B -> C) (da : A) (db : B) (dc : C)
  (a : list A) (b : list B) (k : nat) :
  (k < length a)%nat -> (k < length b)%nat ->
  nth k (map2 f a b) dc = f (nth k a da) (nth k b db).
Proof.
  revert b k. induction a as [|x a IH]; intros [|y b] [|k] Ha Hb; simpl in *;
    try lia; [reflexivity|].
  apply IH; lia.
Qed.

Lemma gather_map2 (A B C : Type) (f : A -> B -> C) (da : A) (db : B) (dc : C)
  (a : list A) (b : list B) (p : list nat) :
  Forall (fun k => (k < length a)%nat) p -> length b = length a ->
  map2 f (gather da a p) (gather db b p) = gather dc (map2 f a b) p.
Proof.
  intros Hp Hlen. unfold gather.
  induction Hp as [|k p Hk Hp IH]; simpl; [reflexivity|].
  rewrite IH. f_equal. symmetry. apply nth_map2; lia.
Qed.

Lemma gather_combine (A B : Type) (da : A) (db : B)
  (a : list A) (b : list B) (p : list nat) :
  length b = length a ->
  combine (gather da a p) (gather db b p) = gather (da, db) (combine a b) p.
Proof.
  intros Hlen. unfold gather.
  induction p as [|k p IH]; simpl; [reflexivity|].
  rewrite IH. f_equal. symmetry. apply combine_nth. congruence.
Qed.

Lemma index_select_unsort (A : Type) (d : A) (t : list A) (p : list nat) :
  Permutation p (seq 0 (length t)) ->
  index_select (gather d t p) (snd (torch_sort (map Z.of_nat p) false)) = Ok t.
Proof.
  intros Hp. rewrite snd_torch_sort.
  rewrite (index_select_gather _ d).
  - rewrite gather_unsort by exact Hp. reflexivity.
  - rewrite length_gather. apply sort_perm_of_nat_lt.
Qed.

Lemma torch_sort_eq (t : list Z) (d : bool) :
  torch_sort t d = (gather 0%Z t (sort_perm t d), map Z.of_nat (sort_perm t d)).
Proof.
  rewrite <- fst_torch_sort, <- snd_torch_sort.
  destruct (torch_sort t d); reflexivity.
Qed.

(** ** The encoder works row by row *)

Lemma pack_padded_sequence_Ok (input packed : list (list (list R))) (lengths : list Z) :
  pack_padded_sequence input lengths = Ok packed ->
  length lengths = length input /\
  packed = map2 (fun l row => firstn (Z.to_nat l) row) lengths input.
Proof.
  unfold pack_padded_sequence. intros H.
  destruct (numel input =? 0)%nat; [discriminate|].
  destruct (Nat.eqb_spec (length lengths) (length input)) as [E|E];
    simpl in H; [|discriminate].
  destruct (forallb _ lengths); simpl in H; [|discriminate].
  destruct (sorted_desc lengths); simpl in H; [|discriminate].
  destruct (forallb _ lengths); simpl in H; [|discriminate].
  injection H as <-. auto.
Qed.

Lemma encoder_rows (self : EVAE) (X : list (list Z)) (L : list Z) (H : list (list R)) :
  encoder self X L = Ok H -> mapM (encode_example self) (combine X L) = Ok H.
Proof.
  unfold encoder. intros E.
  inv_bind E. rename a into OH.
  inv_bind E. rename a into packed.
  apply pack_padded_sequence_Ok in Ha0 as [Hlen ->].
  rewrite one_hot_embedding_rows in Ha. apply mapM_Ok_Forall2 in Ha.
  assert (HX : length X = length OH) by (eapply Forall2_length; exact Ha).
  apply mapM_Ok_Forall2.
  assert (G : Forall2 (fun xl h => encode_example self xl = Ok h) (combine X L)
                (map (fun r => if (1 <? hidden_factor self)%nat
                               then concat r else hd [] r)
                     (map (encoder_rnn self)
                          (map2 (fun l row => firstn (Z.to_nat l) row) L OH)))).
  { clear E. assert (HL : length L = length X) by congruence. clear Hlen HX.
    revert L HL. induction Ha as [|x oh X OH Hx Ha IH]; intros [|l L] HL;
      simpl in *; try discriminate; constructor.
    - unfold encode_example. simpl. rewrite Hx. reflexivity.
    - apply IH. lia. }
  destruct (1 <? hidden_factor self)%nat; injection E as <-; exact G.
Qed.

Lemma reparameterize_gather (self : EVAE) (H eps : list (list R)) (p : list nat) :
  Forall (fun k => (k < length H)%nat) p -> length eps = length H ->
  reparameterize self (gather [] H p) (gather [] eps p)
  = (gather [] (fst (fst (reparameterize self H eps))) p,
     gather [] (snd (fst (reparameterize self H eps))) p,
     gather [] (snd (reparameterize self H eps)) p).
Proof.
  intros Hp Hlen. unfold reparameterize, to_cuda_var. simpl.
  assert (Hm : forall f : list R -> list R,
             map f (gather [] H p) = gather [] (map f H) p).
  { intros f. rewrite <- gather_map.
    apply gather_indep. rewrite length_map. exact Hp. }
  rewrite !Hm.
  assert (Hs : map (map (fun v => exp (0.5 * v))) (gather [] (map (hidden2logv self) H) p)
               = gather [] (map (map (fun v => exp (0.5 * v))) (map (hidden2logv self) H)) p).
  { rewrite <- (gather_map _ _ (map (fun v => exp (0.5 * v)))). reflexivity. }
  rewrite Hs.
  rewrite (gather_map2 _ _ _ (map2 Rmult) [] [] [])
    by (rewrite ?length_map; congruence || (rewrite Hlen; exact Hp)).
  rewrite (gather_map2 _ _ _ (map2 Rplus) [] [] []).
  - reflexivity.
  - rewrite length_map. exact Hp.
  - rewrite length_map2, !length_map, Hlen. apply Nat.min_id.
Qed.

Lemma reparameterize_length (self : EVAE) (H eps : list (list R)) :
  length eps = length H ->
  length (fst (fst (reparameterize self H eps))) = length H /\
  length (snd (fst (reparameterize self H eps))) = length H /\
  length (snd (reparameterize self H eps)) = length H.
Proof.
  intros Hlen. unfold reparameterize, to_cuda_var. simpl.
  rewrite !length_map2, !length_map, Hlen, !Nat.min_id. auto.
Qed.

Lemma mapM_length (A B : Type) (f : A -> result B) (l : list A) (r : list B) :
  mapM f l = Ok r -> length r = length l.
Proof.
  intros H. apply mapM_Ok_Forall2 in H. symmetry. eapply Forall2_length. exact H.
Qed.

(** ** The diagnostic readout is in the order of the batch *)

Lemma get_intermediates_rows
  (self : EVAE) (batch : Batch) (eps0 eps : list (list R))
  (res : list (list R) * list (list R) * list (list R)) :
  length (drug_inputs batch) = length (drug_len batch) ->
  length eps0 = length (drug_len batch) ->
  index_select eps0 (snd (torch_sort (drug_len batch) true)) = Ok eps ->
  get_intermediates self batch eps = Ok res ->
  exists hidden,
    mapM (encode_example self) (combine (drug_inputs batch) (drug_len batch)) = Ok hidden /\
    res = reparameterize self hidden eps0.
Proof.
  intros HX He Heps H. unfold get_intermediates in H.
  rewrite torch_sort_eq in H, Heps. simpl in Heps.
  set (L := drug_len batch) in *. set (X := drug_inputs batch) in *.
  set (p := sort_perm L true) in *.
  assert (Pp : Permutation p (seq 0 (length L))) by apply sort_perm_perm.
  assert (Lp : Forall (fun k => (k < length L)%nat) p) by apply sort_perm_lt.
  rewrite (index_select_gather _ []) in Heps by (rewrite He; exact Lp).
  injection Heps as <-.
  rewrite (index_select_gather _ []) in H by (rewrite HX; exact Lp).
  cbn [bind] in H.
  destruct (torch_sort (map Z.of_nat p) false) as [u rev] eqn:Erev.
  assert (Hrev : rev = snd (torch_sort (map Z.of_nat p) false))
    by (rewrite Erev; reflexivity).
  inv_bind H. rename a into H'.
  apply encoder_rows in Ha.
  rewrite (gather_combine _ _ [] 0%Z) in Ha by congruence.
  assert (Lc : length (combine X L) = length L)
    by (rewrite length_combine, HX; apply Nat.min_id).
  apply (mapM_gather _ _ _ _ []) in Ha; [|rewrite Lc; exact Pp].
  destruct Ha as (hidden & Hh & ->).
  exists hidden. split; [exact Hh|].
  assert (Lh : length hidden = length L)
    by (rewrite (mapM_length _ _ _ _ _ Hh); exact Lc).
  rewrite reparameterize_gather in H by (rewrite Lh; congruence || exact Lp).
  destruct (reparameterize_length self hidden eps0) as (L1 & L2 & L3);
    [congruence|].
  destruct (reparameterize self hidden eps0) as [[m lv] z]. simpl in *.
  rewrite Hrev in H.
  rewrite !index_select_unsort in H by (rewrite ?L1, ?L2, ?L3, Lh; exact Pp).
  cbn [bind] in H. injection H as <-. reflexivity.
Qed.

(** ** The decoder output is in the order of the batch *)

Lemma max_len_perm (t u : list (list (list R))) :
  Permutation t u -> max_len t = max_len u.
Proof.
  unfold max_len. induction 1; simpl; try lia.
Qed.

Lemma gather_perm (A : Type) (d : A) (t : list A) (p : list nat) :
  Permutation p (seq 0 (length t)) -> Permutation (gather d t p) t.
Proof.
  intros Hp. rewrite <- (gather_seq _ d t) at 2.
  unfold gather. apply Permutation_map. exact Hp.
Qed.

Lemma decoder_input_sequence_gather
  (self : EVAE) (X : list (list Z)) (prob : list (list R)) (p : list nat) :
  Forall (fun k => (k < length X)%nat) p -> length prob = length X ->
  decoder_input_sequence self (gather [] X p) (gather [] prob p)
  = gather [] (decoder_input_sequence self X prob) p.
Proof.
  intros Hp Hlen. unfold decoder_input_sequence.
  rewrite (gather_map2 _ _ _ (map2 (keep_prob self)) [] [] []) by assumption.
  rewrite (gather_map2 _ _ _ (map2 (drop_token self)) [] [] []).
  - reflexivity.
  - exact Hp.
  - rewrite length_map2, Hlen. apply Nat.min_id.
Qed.

Lemma decode_examples
  (self : EVAE) (m : nat) (X : list (list Z)) (L : list Z) (z0 prob0 : list (list R))
  (OH : list (list (list R))) :
  length L = length X -> length z0 = length X -> length prob0 = length X ->
  Forall2 (fun c oh => mapM (one_hot_char self) c = Ok oh)
          (decoder_input_sequence self X prob0) OH ->
  Forall2 (fun ex y => decode_example self m ex = Ok y)
    (combine (combine X L) (combine z0 prob0))
    (map (map (fun o => log_softmax (outputs2vocab self o)))
       (map (fun row => row ++ repeat (zeros (hidden_size self)) (m - length row))
          (map2 (decoder_rnn self)
             (map2 (fun l row => firstn (Z.to_nat l) row) L OH)
             (map (fun zb => chunk (num_layers self) (hidden_size self)
                               (latent2hidden self zb)) z0)))).
Proof.
  unfold decoder_input_sequence.
  revert L z0 prob0 OH.
  induction X as [|x X IH]; intros [|l L] [|zb z0] [|pb prob0] OH HL Hz Hp HO;
    simpl in *; try discriminate.
  - inversion HO. constructor.
  - inversion HO as [|? oh ? OH' Hoh HO']; subst. simpl. constructor.
    + unfold decode_example. rewrite Hoh. reflexivity.
    + apply IH; auto.
Qed.

Lemma decoder_rows
  (self : EVAE) (X : list (list Z)) (L : list Z) (z0 prob0 : list (list R))
  (X' : list (list Z)) (z prob : list (list R)) (logp : list (list (list R))) :
  length X = length L -> length z0 = length L -> length prob0 = length L ->
  index_select X (snd (torch_sort L true)) = Ok X' ->
  index_select z0 (snd (torch_sort L true)) = Ok z ->
  index_select prob0 (snd (torch_sort L true)) = Ok prob ->
  decoder self X' (fst (torch_sort L true)) (snd (torch_sort L true)) z prob = Ok logp ->
  exists m,
    mapM (decode_example self m) (combine (combine X L) (combine z0 prob0)) = Ok logp.
Proof.
  intros HX Hz Hp EX Ez Ep H.
  rewrite torch_sort_eq in *. simpl in *.
  set (p := sort_perm L true) in *.
  assert (Pp : Permutation p (seq 0 (length L))) by apply sort_perm_perm.
  assert (Lp : Forall (fun k => (k < length L)%nat) p) by apply sort_perm_lt.
  rewrite (index_select_gather _ []) in EX by (rewrite HX; exact Lp).
  rewrite (index_select_gather _ []) in Ez by (rewrite Hz; exact Lp).
  rewrite (index_select_gather _ []) in Ep by (rewrite Hp; exact Lp).
  injection EX as <-. injection Ez as <-. injection Ep as <-.
  unfold decoder in H.
  destruct (Rlt_dec 0 (word_dropout_rate self)); [|discriminate].
  rewrite decoder_input_sequence_gather in H by (rewrite ?HX; assumption).
  set (C := decoder_input_sequence self X prob0) in *.
  assert (LC : length C = length L).
  { unfold C, decoder_input_sequence. rewrite !length_map2, HX, Hp, !Nat.min_id.
    reflexivity. }
  inv_bind H. rename a into OH'.
  rewrite one_hot_embedding_rows in Ha.
  apply (mapM_gather _ _ _ _ []) in Ha; [|rewrite LC; exact Pp].
  destruct Ha as (OH & HOH & ->).
  assert (LO : length OH = length L)
    by (rewrite (mapM_length _ _ _ _ _ HOH); exact LC).
  inv_bind H. rename a into packed.
  apply pack_padded_sequence_Ok in Ha as [_ ->].
  rewrite (gather_map2 _ _ _ (fun l row => firstn (Z.to_nat l) row) 0%Z [] [])
    in H by assumption.
  set (hz := fun zb => chunk (num_layers self) (hidden_size self)
                         (latent2hidden self zb)) in *.
  assert (Ehz : map hz (gather [] z0 p) = gather [] (map hz z0) p).
  { rewrite <- gather_map. apply gather_indep. rewrite length_map, Hz. exact Lp. }
  rewrite Ehz in H.
  set (packed0 := map2 (fun l row => firstn (Z.to_nat l) row) L OH) in *.
  assert (Lk : length packed0 = length L).
  { unfold packed0. rewrite length_map2, LO. apply Nat.min_id. }
  destruct (negb _); [discriminate|].
  rewrite (gather_map2 _ _ _ (decoder_rnn self) [] [] [])
    in H by (rewrite ?length_map, ?Lk, ?Hz; auto).
  set (outputs0 := map2 (decoder_rnn self) packed0 (map hz z0)) in *.
  assert (Lo : length outputs0 = length L).
  { unfold outputs0. rewrite length_map2, length_map, Lk, Hz. apply Nat.min_id. }
  unfold pad_packed_sequence in H.
  rewrite (max_len_perm _ _ (gather_perm _ [] outputs0 p
                               ltac:(rewrite Lo; exact Pp))) in H.
  set (pad := fun row : list (list R) =>
                row ++ repeat (zeros (hidden_size self))
                         (max_len outputs0 - length row)) in *.
  assert (Epad : map pad (gather [] outputs0 p) = gather [] (map pad outputs0) p).
  { rewrite <- gather_map. apply gather_indep. rewrite length_map, Lo. exact Lp. }
  rewrite Epad in H.
  rewrite index_select_unsort in H by (rewrite length_map, Lo; exact Pp).
  cbn [bind] in H. injection H as <-.
  exists (max_len outputs0).
  apply mapM_Ok_Forall2.
  apply mapM_Ok_Forall2 in HOH.
  apply decode_examples; [congruence | congruence | congruence | exact HOH].
Qed.

(** ** The sorted batch is accepted by the packing *)

Lemma insert_by_sorted_desc (x : Z * Z) (l : list (Z * Z)) :
  Sorted key_ge l -> Sorted key_ge (insert_by true x l).
Proof.
  induction 1 as [|y l Hs IH Hhd]; simpl.
  - repeat constructor.
  - destruct (Z.leb_spec (fst y) (fst x)) as [Hle|Hgt].
    + constructor; [constructor; assumption|]. constructor. exact Hle.
    + constructor; [exact IH|].
      destruct l as [|w l]; simpl.
      * constructor. unfold key_ge. lia.
      * destruct (Z.leb_spec (fst w) (fst x)).
        -- constructor. unfold key_ge. lia.
        -- inversion Hhd; subst. constructor. assumption.
Qed.

Lemma sort_pairs_sorted_desc (l : list (Z * Z)) : Sorted key_ge (sort_pairs true l).
Proof.
  induction l as [|x l IH]; simpl; [constructor | apply insert_by_sorted_desc, IH].
Qed.

Lemma sorted_desc_fst (l : list (Z * Z)) :
  Sorted key_ge l -> sorted_desc (map fst l) = true.
Proof.
  induction 1 as [|y l Hs IH Hhd]; [reflexivity|].
  destruct l as [|w l]; [reflexivity|].
  change (sorted_desc (map fst (y :: w :: l)))
    with ((fst w <=? fst y)%Z && sorted_desc (map fst (w :: l))).
  rewrite IH, andb_true_r. inversion Hhd; subst. apply Z.leb_le. assumption.
Qed.

Lemma sorted_desc_torch_sort (t : list Z) :
  sorted_desc (fst (torch_sort t true)) = true.
Proof.
  unfold torch_sort. simpl. apply sorted_desc_fst, sort_pairs_sorted_desc.
Qed.

Lemma Forall_gather (A : Type) (P : A -> Prop) (d : A) (t : list A) (p : list nat) :
  Forall P t -> Forall (fun k => (k < length t)%nat) p -> Forall P (gather d t p).
Proof.
  intros Ht Hp. unfold gather. apply Forall_map.
  rewrite Forall_forall in *. intros k Hk. apply Ht, nth_In, Hp, Hk.
Qed.

Lemma forallb_Forall (A : Type) (f : A -> bool) (P : A -> Prop) (l : list A) :
  (forall a, P a -> f a = true) -> Forall P l -> forallb f l = true.
Proof.
  intros H HP. apply forallb_forall. rewrite Forall_forall in HP. auto.
Qed.

Lemma one_hot_char_valid (self : EVAE) (tok : Z) :
  valid_token self tok -> exists v, one_hot_char self tok = Ok v.
Proof.
  intros Hv. unfold one_hot_char, py_index.
  destruct (Z.eqb_spec tok 0) as [E|E]; [eauto|].
  destruct Hv as [Hv|Hv]; [contradiction|].
  destruct (Z.leb_spec 0 tok); destruct (Z.ltb_spec tok (Z.of_nat (vocab_size self)));
    simpl; eauto; try lia.
  destruct (Z.leb_spec (- Z.of_nat (vocab_size self)) tok);
    destruct (Z.ltb_spec tok 0); simpl; eauto; lia.
Qed.

Lemma mapM_returns (A B : Type) (f : A -> result B) (l : list A) :
  Forall (fun a => exists b, f a = Ok b) l -> exists r, mapM f l = Ok r.
Proof.
  induction 1 as [|a l [b Hb] H [r Hr]]; simpl; [eauto|].
  rewrite Hb, Hr. simpl. eauto.
Qed.

Lemma one_hot_embedding_valid (self : EVAE) (T : nat) (X : list (list Z)) :
  has_width T X -> Forall (Forall (valid_token self)) X ->
  exists OH, one_hot_embedding self X = Ok OH /\ has_width T OH /\ length OH = length X.
Proof.
  intros Hw Hv. rewrite one_hot_embedding_rows.
  destruct (mapM_returns _ _ (fun batch => mapM (one_hot_char self) batch) X) as [OH HOH].
  { apply Forall_forall. intros r Hr. rewrite Forall_forall in Hv.
    apply mapM_returns. eapply Forall_impl; [|apply Hv, Hr].
    apply one_hot_char_valid. }
  exists OH. split; [exact HOH|]. split.
  - apply mapM_Ok_Forall2 in HOH. unfold has_width in *.
    clear Hv. induction HOH as [|x oh X OH Hx H IH]; constructor.
    + apply mapM_length in Hx. apply Forall_cons_iff in Hw as [Hw _]. congruence.
    + apply IH. apply Forall_cons_iff in Hw as [_ Hw]. exact Hw.
  - apply (mapM_length _ _ _ _ _ HOH).
Qed.

Lemma length_list_set (A : Type) (i : nat) (v : A) (l : list A) :
  length (list_set i v l) = length l.
Proof.
  revert i. induction l as [|a l IH]; intros [|i]; simpl; auto.
Qed.

Lemma length_zeros (n : nat) : length (zeros n) = n.
Proof. apply repeat_length. Qed.

Lemma one_hot_char_length (self : EVAE) (tok : Z) (v : list R) :
  one_hot_char self tok = Ok v -> length v = vocab_size self.
Proof.
  unfold one_hot_char. destruct (tok =? 0)%Z.
  - intros H. injection H as <-. apply length_zeros.
  - intros H. inv_bind H as k Hk. injection H as <-.
    rewrite length_list_set. apply length_zeros.
Qed.

(** The one-hot tensor of a batch with a row, a column and a symbol has an
    entry. *)
Lemma numel_one_hot (self : EVAE) (T : nat) (X : list (list Z))
  (OH : list (list (list R))) :
  one_hot_embedding self X = Ok OH ->
  X <> [] -> has_width T X -> (1 <= T)%nat -> (1 <= vocab_size self)%nat ->
  numel OH <> 0%nat.
Proof.
  rewrite one_hot_embedding_rows. intros H HX Hw HT HV.
  destruct X as [|x X]; [congruence|].
  apply Forall_inv in Hw.
  destruct x as [|tok x]; [simpl in Hw; lia|].
  simpl in H. inv_bind H as oh Hoh. inv_bind H as rest Hrest. injection H as <-.
  inv_bind Hoh as v Hv. inv_bind Hoh as vs Hvs. injection Hoh as <-.
  apply one_hot_char_length in Hv.
  unfold numel. simpl. rewrite !length_app. lia.
Qed.

Lemma pack_padded_sequence_returns (T : nat) (input : list (list (list R))) (lengths : list Z) :
  numel input <> 0%nat ->
  length lengths = length input -> has_width T input ->
  Forall (fun l => (1 <= l <= Z.of_nat T)%Z) lengths ->
  sorted_desc lengths = true ->
  pack_padded_sequence input lengths
  = Ok (map2 (fun l row => firstn (Z.to_nat l) row) lengths input).
Proof.
  intros Hnum Hlen Hw Hl Hs. unfold pack_padded_sequence.
  destruct (Nat.eqb_spec (numel input) 0) as [E|_]; [contradiction|].
  rewrite Hlen, Nat.eqb_refl. cbn [negb].
  assert (F1 : forallb (fun l => (0 <? l)%Z) lengths = true).
  { apply (forallb_Forall _ _ _ lengths) with (2 := Hl).
    intros l H. apply Z.ltb_lt. lia. }
  rewrite F1. cbn [negb]. rewrite Hs. cbn [negb].
  destruct input as [|r input].
  - exfalso. apply Hnum. reflexivity.
  - apply Forall_cons_iff in Hw as [Hr _]. cbn [hd]. rewrite Hr.
    assert (F2 : forallb (fun l => (l <=? Z.of_nat T)%Z) lengths = true).
    { apply (forallb_Forall _ _ _ lengths) with (2 := Hl).
      intros l H. apply Z.leb_le. lia. }
    rewrite F2. reflexivity.
Qed.

(** A valid batch with an example has a column. *)
Lemma valid_batch_columns (self : EVAE) (T : nat) (X : list (list Z)) (L : list Z) :
  valid_batch self T X L -> L <> [] -> X <> [] /\ (1 <= T)%nat.
Proof.
  intros (Hlen & _ & _ & Hl) HL. destruct L as [|l L]; [congruence|].
  apply Forall_inv in Hl. split; [|lia].
  intros E. rewrite E in Hlen. discriminate.
Qed.

Lemma encoder_returns (self : EVAE) (T : nat) (X : list (list Z)) (L : list Z) :
  valid_batch self T X L -> sorted_desc L = true ->
  L <> [] -> (1 <= vocab_size self)%nat ->
  exists H, encoder self X L = Ok H.
Proof.
  intros Hvb Hs HL HV. unfold encoder.
  destruct (valid_batch_columns self T X L Hvb HL) as [HX HT].
  destruct Hvb as (Hlen & Hw & Hv & Hl).
  destruct (one_hot_embedding_valid self T X Hw Hv) as (OH & HOH & HwO & LO).
  pose proof (numel_one_hot self T X OH HOH HX Hw HT HV) as Hnum.
  rewrite HOH. cbn [bind].
  rewrite (pack_padded_sequence_returns T) by (congruence || assumption).
  cbn [bind]. eauto.
Qed.

Lemma gather_sort_nonempty (A : Type) (d : A) (t : list A) (L : list Z) (b : bool) :
  L <> [] -> gather d t (sort_perm L b) <> [].
Proof.
  intros HL E. apply (f_equal (@length A)) in E.
  rewrite length_gather, length_sort_perm in E.
  destruct L; [congruence|discriminate].
Qed.

Lemma valid_batch_sorted (self : EVAE) (T : nat) (X : list (list Z)) (L : list Z) :
  valid_batch self T X L ->
  valid_batch self T (gather [] X (sort_perm L true)) (gather 0%Z L (sort_perm L true)).
Proof.
  intros (Hlen & Hw & Hv & Hl).
  pose proof (sort_perm_lt L true) as Lp.
  repeat split.
  - rewrite !length_gather. reflexivity.
  - apply Forall_gather; [exact Hw | rewrite Hlen; exact Lp].
  - apply Forall_gather; [exact Hv | rewrite Hlen; exact Lp].
  - apply Forall_gather; [exact Hl | exact Lp].
Qed.

Lemma get_intermediates_returns
  (self : EVAE) (T : nat) (batch : Batch) (eps : list (list R)) :
  valid_batch self T (drug_inputs batch) (drug_len batch) ->
  drug_len batch <> [] -> (1 <= vocab_size self)%nat ->
  length eps = length (drug_len batch) ->
  exists res, get_intermediates self batch eps = Ok res.
Proof.
  intros Hv HLne HV He. unfold get_intermediates.
  pose proof (valid_batch_sorted self T _ _ Hv) as Hs.
  destruct Hv as (Hlen & Hw & Hv & Hl).
  rewrite torch_sort_eq.
  set (L := drug_len batch) in *. set (X := drug_inputs batch) in *.
  set (p := sort_perm L true) in *.
  assert (Pp : Permutation p (seq 0 (length L))) by apply sort_perm_perm.
  assert (Lp : Forall (fun k => (k < length L)%nat) p) by apply sort_perm_lt.
  assert (Hp : length p = length L) by apply length_sort_perm.
  rewrite (index_select_gather _ []) by (rewrite Hlen; exact Lp).
  cbn [bind].
  destruct (torch_sort (map Z.of_nat p) false) as [u rev] eqn:Erev.
  assert (Hrev : rev = map Z.of_nat (sort_perm (map Z.of_nat p) false))
    by (rewrite <- snd_torch_sort, Erev; reflexivity).
  destruct (encoder_returns self T _ _ Hs) as [H HH].
  { fold p. unfold p. rewrite <- fst_torch_sort. apply sorted_desc_torch_sort. }
  { apply gather_sort_nonempty. exact HLne. }
  { exact HV. }
  rewrite HH. cbn [bind].
  assert (LH : length H = length L).
  { apply encoder_rows, mapM_length in HH.
    rewrite HH, length_combine, !length_gather. lia. }
  destruct (reparameterize_length self H eps) as (L1 & L2 & L3); [congruence|].
  destruct (reparameterize self H eps) as [[m lv] z]. simpl in L1, L2, L3.
  pose proof (sort_perm_of_nat_lt p false) as Lq.
  rewrite Hrev.
  rewrite !(index_select_gather _ []) by (rewrite ?L1, ?L2, ?L3, LH, <- Hp; exact Lq).
  cbn [bind]. eauto.
Qed.

Lemma drop_token_valid (self : EVAE) (tok : Z) (p : R) :
  valid_token self (unk_idx self) -> valid_token self tok ->
  valid_token self (drop_token self tok p).
Proof.
  intros Hu Ht. unfold drop_token. destruct (Rlt_dec p (word_dropout_rate self)); assumption.
Qed.

Lemma decoder_input_sequence_valid
  (self : EVAE) (T : nat) (X : list (list Z)) (prob : list (list R)) :
  has_width T X -> has_width T prob -> length prob = length X ->
  Forall (Forall (valid_token self)) X -> valid_token self (unk_idx self) ->
  has_width T (decoder_input_sequence self X prob) /\
  Forall (Forall (valid_token self)) (decoder_input_sequence self X prob).
Proof.
  unfold decoder_input_sequence, has_width. intros Hw. revert prob.
  induction Hw as [|x X Hx Hw IH]; intros [|pb prob] Hp Hlen Hv Hu;
    simpl in *; try discriminate; [split; constructor|].
  apply Forall_cons_iff in Hp as [Hpb Hp]. apply Forall_cons_iff in Hv as [Hvx Hv].
  destruct (IH prob Hp ltac:(lia) Hv Hu) as [IH1 IH2].
  split; constructor; try assumption.
  - rewrite !length_map2, Hx, Hpb, !Nat.min_id. reflexivity.
  - clear - Hvx Hu. revert pb.
    induction Hvx as [|tok x Ht Hvx IH]; intros [|p pb]; simpl; constructor.
    + apply drop_token_valid; assumption.
    + apply IH.
Qed.

Lemma decoder_returns
  (self : EVAE) (T : nat) (X : list (list Z)) (L : list Z) (z0 prob0 : list (list R)) :
  valid_batch self T X L ->
  L <> [] -> (1 <= vocab_size self)%nat ->
  length z0 = length L -> length prob0 = length L -> has_width T prob0 ->
  valid_token self (unk_idx self) -> (0 < word_dropout_rate self)%R ->
  let p := sort_perm L true in
  exists logp,
    decoder self (gather [] X p) (fst (torch_sort L true)) (snd (torch_sort L true))
            (gather [] z0 p) (gather [] prob0 p) = Ok logp.
Proof.
  intros Hv HLne HV Hz Hp Hwp Hu Hrate p.
  destruct (valid_batch_columns self T X L Hv HLne) as [_ HT].
  pose proof (valid_batch_sorted self T _ _ Hv) as (Hlen' & Hw' & Hv' & Hl').
  destruct Hv as (Hlen & Hw & Hv & Hl).
  fold p in Hlen', Hw', Hv', Hl'.
  assert (Lp : Forall (fun k => (k < length L)%nat) p) by apply sort_perm_lt.
  assert (Ep : length p = length L) by apply length_sort_perm.
  unfold decoder. rewrite if_Rlt_dec_true by exact Hrate.
  destruct (decoder_input_sequence_valid self T (gather [] X p) (gather [] prob0 p))
    as [HwC HvC]; try assumption.
  { apply Forall_gather; [exact Hwp | rewrite Hp; exact Lp]. }
  { rewrite !length_gather. reflexivity. }
  destruct (one_hot_embedding_valid self T _ HwC HvC) as (OH & HOH & HwO & LO).
  assert (LC : length (decoder_input_sequence self (gather [] X p) (gather [] prob0 p))
               = length p).
  { unfold decoder_input_sequence. rewrite !length_map2, !length_gather, !Nat.min_id.
    reflexivity. }
  assert (Hnum : numel OH <> 0%nat).
  { apply (numel_one_hot self T _ OH HOH); try assumption.
    intros E. apply (f_equal (@length (list Z))) in E.
    rewrite LC, Ep in E. destruct L; [congruence|discriminate]. }
  rewrite HOH. cbn [bind].
  rewrite torch_sort_eq. cbn [fst snd]. fold p.
  rewrite (pack_padded_sequence_returns T);
    [| exact Hnum | rewrite length_gather; congruence | exact HwO | exact Hl'
     | unfold p; rewrite <- fst_torch_sort; apply sorted_desc_torch_sort ].
  cbn [bind].
  rewrite length_map, length_map2, !length_gather, LO, LC, Nat.min_id, Nat.eqb_refl.
  cbn [negb].
  rewrite snd_torch_sort.
  rewrite (index_select_gather _ []).
  - cbn [bind]. eauto.
  - unfold pad_packed_sequence.
    rewrite length_map, length_map2, length_map, length_map2, !length_gather, LO, LC,
      !Nat.min_id.
    apply sort_perm_of_nat_lt.
Qed.

(** Selecting with the index tensor of the sort gives the sorted batch. *)
Lemma index_select_sorted (A : Type) (d : A) (t : list A) (L : list Z) :
  length t = length L ->
  index_select t (snd (torch_sort L true)) = Ok (gather d t (sort_perm L true)).
Proof.
  intros H. rewrite snd_torch_sort. apply index_select_gather.
  rewrite H. apply sort_perm_lt.
Qed.

(** C5.  Let the batch be sorted by decreasing length as at the call sites
    ([sorted_idx] of [torch.sort]), with the noise, the latent codes and the
    dropout draws of the sorted rows being those of the rows of the batch,
    sorted alike.  Then whatever [get_intermediates] and [decoder] return is
    in the order of the batch: row i of (mean, logv, z) is the encoding of
    example i, and row i of the decoder output is the decoding of example
    i, all padded to one length [m].  Both return on a valid batch with an
    example, for a vocabulary that is not empty, layers of the shapes of
    their construction, and noise and latent codes of [latent_size]
    columns (the decoder for a positive word-dropout rate and an unknown
    symbol of the vocabulary). *)
Theorem outputs_in_batch_order
  (self : EVAE) (T : nat) (batch : Batch) (eps0 z0 prob0 : list (list R))
  (input_sequence : list (list Z)) (eps z prob : list (list R)) :
  let X := drug_inputs batch in
  let L := drug_len batch in
  let sorted_lengths := fst (torch_sort L true) in
  let sorted_idx := snd (torch_sort L true) in
  length X = length L ->
  length eps0 = length L -> length z0 = length L -> length prob0 = length L ->
  index_select X sorted_idx = Ok input_sequence ->
  index_select eps0 sorted_idx = Ok eps ->
  index_select z0 sorted_idx = Ok z ->
  index_select prob0 sorted_idx = Ok prob ->
  (forall res,
     get_intermediates self batch eps = Ok res ->
     exists hidden,
       mapM (encode_example self) (combine X L) = Ok hidden /\
       res = reparameterize self hidden eps0) /\
  (forall logp,
     decoder self input_sequence sorted_lengths sorted_idx z prob = Ok logp ->
     exists m,
       mapM (decode_example self m) (combine (combine X L) (combine z0 prob0)) = Ok logp) /\
  (valid_batch self T X L -> L <> [] -> layers_shaped self ->
   has_width (latent_size self) eps0 ->
   exists res, get_intermediates self batch eps = Ok res) /\
  (valid_batch self T X L -> L <> [] -> layers_shaped self ->
   has_width (latent_size self) z0 -> has_width T prob0 ->
   valid_token self (unk_idx self) -> (0 < word_dropout_rate self)%R ->
   exists logp,
     decoder self input_sequence sorted_lengths sorted_idx z prob = Ok logp).
Proof.
  intros X L sorted_lengths sorted_idx HX He Hz Hp EX Ee Ez Ep.
  split; [|split; [|split]].
  - intros res H. apply (get_intermediates_rows self batch eps0 eps); assumption.
  - intros logp H.
    apply (decoder_rows self X L z0 prob0 input_sequence z prob); assumption.
  - intros Hv HLne (HV & _) _.
    apply (get_intermediates_returns self T); [exact Hv|exact HLne|exact HV|].
    unfold sorted_idx in Ee. rewrite (index_select_sorted _ [] eps0 L He) in Ee.
    injection Ee as <-. rewrite length_gather. apply length_sort_perm.
  - intros Hv HLne (HV & _) _ Hw Hu Hrate.
    unfold sorted_idx in EX, Ez, Ep.
    rewrite (index_select_sorted _ [] X L HX) in EX.
    rewrite (index_select_sorted _ [] z0 L Hz) in Ez.
    rewrite (index_select_sorted _ [] prob0 L Hp) in Ep.
    injection EX as <-. injection Ez as <-. injection Ep as <-.
    apply (decoder_returns self T); assumption.
Qed.

Lemma small_model_shaped (rate : R) (pad : Z) (a b g : R) :
  layers_shaped (small_model rate pad a b g).
Proof.
  repeat split; intros; try reflexivity; simpl; try lia. apply length_map.
Qed.

Lemma outputs_in_batch_order_witness :
  let self := small_model (1 / 2) 0 0 0 0 in
  let X := drug_inputs batch_of_two in
  let L := drug_len batch_of_two in
  (exists hidden,
     mapM (encode_example self) (combine X L) = Ok hidden /\
     ([[1 + 0]; [1 + 1 + 0]], [[0]; [0]],
      [[1 + 0 + 7 * exp (0.5 * 0)]; [1 + 1 + 0 + 5 * exp (0.5 * 0)]])%R
     = reparameterize self hidden [[7]; [5]]%R) /\
  (exists m,
     mapM (decode_example self m)
       (combine (combine X L) (combine [[7]; [5]] [[0; 0; 0]; [0; 0; 0]])%R)
     = Ok [[log_softmax (zeros 4); log_softmax (zeros 4)];
           [log_softmax (zeros 4); log_softmax (zeros 4)]]) /\
  (exists res, get_intermediates self batch_of_two [[5]; [7]]%R = Ok res) /\
  (exists logp,
     decoder self [[2; 3; 0]; [2; 0; 0]]%Z [2; 1]%Z [1; 0]%Z
             [[5]; [7]]%R [[0; 0; 0]; [0; 0; 0]]%R = Ok logp).
Proof.
  intros self X L.
  assert (Hv : valid_batch self 3 X L).
  { unfold valid_batch, has_width. simpl.
    repeat split; repeat (apply Forall_cons || apply Forall_nil);
      unfold valid_token; simpl; try reflexivity; lia. }
  destruct (outputs_in_batch_order self 3 batch_of_two
              [[7]; [5]]%R [[7]; [5]]%R [[0; 0; 0]; [0; 0; 0]]%R
              [[2; 3; 0]; [2; 0; 0]]%Z
              [[5]; [7]]%R [[5]; [7]]%R [[0; 0; 0]; [0; 0; 0]]%R
              eq_refl eq_refl eq_refl eq_refl eq_refl eq_refl eq_refl eq_refl)
    as (G1 & G2 & G3 & G4).
  split; [|split; [|split]].
  - apply G1. reflexivity.
  - apply G2. unfold decoder, decoder_input_sequence. simpl.
    unfold drop_token, keep_prob. simpl. eval_Rlt. reflexivity.
  - apply G3; [exact Hv|discriminate|apply small_model_shaped|repeat constructor].
  - apply G4; [exact Hv|discriminate|apply small_model_shaped|repeat constructor
               |repeat constructor| |simpl; lra].
    unfold valid_token. simpl. lia.
Defined.

(** ** The log-density of a diagonal Gaussian *)

Lemma sqrt_exp (v : R) : sqrt (exp v) = exp (v / 2).
Proof.
  replace (exp v) with (exp (v / 2) * exp (v / 2))%R
    by (rewrite <- exp_plus; f_equal; lra).
  apply sqrt_square. left. apply exp_pos.
Qed.

Lemma nth_map_seq (f : nat -> R) (n i : nat) :
  (i < n)%nat -> nth i (map f (seq 0 n)) 0%R = f i.
Proof.
  intros Hi.
  rewrite (nth_indep _ 0%R (f 0%nat)) by (rewrite length_map, length_seq; exact Hi).
  rewrite map_nth, seq_nth by exact Hi. reflexivity.
Qed.

Lemma eye_rows_diag (n : nat) (g : R -> list R -> list R) (h : R -> R) (l : list R) (s : nat) :
  (s + length l <= n)%nat ->
  (forall v i, (i < n)%nat ->
     nth i (g v (map (fun j => if (i =? j)%nat then 1%R else 0%R) (seq 0 n))) 0%R = h v) ->
  map2 (fun i row => nth i row 0%R) (seq s (length l))
       (map2 g l (map (fun i => map (fun j => if (i =? j)%nat then 1%R else 0%R) (seq 0 n))
                      (seq s (length l))))
  = map h l.
Proof.
  intros Hn Hg. revert s Hn. induction l as [|v l IH]; intros s Hn; simpl in *;
    [reflexivity|].
  rewrite Hg by lia. rewrite IH by lia. reflexivity.
Qed.

Lemma length_eye (n : nat) : length (eye n) = n.
Proof. unfold eye. rewrite length_map, length_seq. reflexivity. Qed.

Lemma length_cov_of (n : nat) (lv : list R) :
  length lv = n -> length (cov_of lv (eye n)) = n.
Proof.
  intros H. unfold cov_of.
  rewrite length_map2, length_map, length_eye, H. apply Nat.min_id.
Qed.

Lemma diagonal_cov_of (n : nat) (lv : list R) :
  length lv = n -> diagonal (cov_of lv (eye n)) = map exp lv.
Proof.
  intros H. unfold diagonal. rewrite (length_cov_of n lv H).
  unfold cov_of, eye. subst n.
  pose proof (eye_rows_diag (length lv) (fun v row => map (Rmult v) row)
                (fun v => v) (map exp lv) 0) as E.
  rewrite length_map in E. rewrite E; [apply map_id | lia |].
  intros v i Hi. rewrite map_map, nth_map_seq by exact Hi.
  rewrite Nat.eqb_refl. lra.
Qed.

Lemma diagonal_eye (n : nat) : diagonal (eye n) = repeat 1%R n.
Proof.
  unfold diagonal. rewrite length_eye. unfold eye.
  pose proof (@eye_rows_diag n (fun _ row => row) (fun _ => 1%R) (repeat 0%R n) 0) as E.
  rewrite repeat_length in E.
  assert (M : forall (A : Type) (g : R -> A -> A) (m : list A) (k : nat),
             (forall v a, g v a = a) -> length m = k ->
             map2 g (repeat 0%R k) m = m).
  { intros A g m k Hg. revert k. induction m as [|a m IH]; intros [|k] Hk;
      simpl in *; try discriminate; try reflexivity.
    rewrite Hg, IH by lia. reflexivity. }
  rewrite M in E by (auto; rewrite length_map, length_seq; reflexivity).
  rewrite E; [| lia |].
  - clear. induction n as [|n IH]; simpl; [reflexivity | rewrite IH; reflexivity].
  - intros _ i Hi. rewrite nth_map_seq by exact Hi.
    rewrite Nat.eqb_refl. reflexivity.
Qed.

Lemma mvn_log_prob_diag (n : nat) (m lv zz : list R) :
  length m = n -> length lv = n -> length zz = n ->
  mvn_log_prob m (cov_of lv (eye n)) zz
  = (- 0.5 * (INR n * ln (2 * PI)
              + sum_list (map3 (fun zi mi li => (zi - mi) ^ 2 / exp li) zz m lv))
     - sum_list (map (fun li => li / 2) lv))%R.
Proof.
  intros Hm Hl Hz. unfold mvn_log_prob.
  rewrite (diagonal_cov_of n lv Hl), Hm. f_equal; [f_equal; f_equal|].
  - clear Hm Hl Hz. revert m lv.
    induction zz as [|zi zz IH]; intros [|mi m] [|li lv]; simpl; try reflexivity.
    rewrite IH. f_equal. rewrite sqrt_exp.
    replace (exp li) with (exp (li / 2) * exp (li / 2))%R
      by (rewrite <- exp_plus; f_equal; lra).
    pose proof (exp_pos (li / 2)). field. lra.
  - clear. induction lv as [|li lv IH]; simpl; [reflexivity|].
    rewrite IH, sqrt_exp, ln_exp. reflexivity.
Qed.

Lemma mvn_log_prob_standard (n : nat) (zz : list R) :
  length zz = n ->
  mvn_log_prob (zeros n) (eye n) zz
  = (- 0.5 * (INR n * ln (2 * PI) + sum_list (map (fun zi => zi ^ 2) zz)))%R.
Proof.
  intros Hz. unfold mvn_log_prob, zeros.
  rewrite diagonal_eye, repeat_length.
  assert (M : sum_list (map2 (fun d l => ((d / l) ^ 2)%R)
                          (map2 Rminus zz (repeat 0%R n)) (map sqrt (repeat 1%R n)))
              = sum_list (map (fun zi => (zi ^ 2)%R) zz)).
  { clear - Hz. revert n Hz. induction zz as [|zi zz IH]; intros [|n] Hz;
      simpl in *; try discriminate; [reflexivity|].
    rewrite (IH n) by lia. rewrite sqrt_1. f_equal. field. }
  assert (L : sum_list (map ln (map sqrt (repeat 1%R n))) = 0%R).
  { clear. induction n as [|n IH]; simpl; [reflexivity|].
    rewrite IH, sqrt_1, ln_1. lra. }
  rewrite M, L. lra.
Qed.

(** ** The checks of the distributions *)

Lemma f32_underflow_lt_1 : (f32_underflow < 1)%R.
Proof.
  unfold f32_underflow.
  assert (H : (1 < 2 ^ 150)%R) by (apply Rlt_pow_R1; [lra|lia]).
  rewrite <- Rinv_1. apply Rinv_lt_contravar; lra.
Qed.

Lemma f32_overflow_gt_1 : (1 < f32_overflow)%R.
Proof.
  unfold f32_overflow.
  replace (2 ^ 128)%R with (2 ^ 103 * 2 ^ 25)%R by (rewrite <- pow_add; reflexivity).
  assert (H : (1 < 2 ^ 103)%R) by (apply Rlt_pow_R1; [lra|lia]).
  assert (H2 : (2 ^ 25 = 33554432)%R) by (simpl; lra).
  rewrite H2. nra.
Qed.

Lemma positive_float_true (d : R) :
  (f32_underflow < d)%R <-> positive_float d = true.
Proof.
  unfold positive_float.
  destruct (Rlt_dec f32_underflow d); split; intros H;
    try reflexivity; try assumption; try contradiction; discriminate.
Qed.

Lemma positive_float_1 : positive_float 1 = true.
Proof. apply positive_float_true, f32_underflow_lt_1. Qed.

Lemma log_variances_accepted (logv : list (list R)) :
  Forall (Forall log_variance_ok) logv -> Forall (Forall variance_accepted) logv.
Proof.
  intros H. eapply Forall_impl; [|exact H]. intros lv Hlv.
  eapply Forall_impl; [|exact Hlv]. intros v [Hv _]. exact Hv.
Qed.

Lemma gaussian_batch_accepted (n : nat) (mean logv z : list (list R)) :
  gaussian_batch n mean logv z -> accepted_batch n mean logv z.
Proof.
  intros (Hn & Hne & Hm & Hl & Hz & El & Ez & Hok).
  unfold accepted_batch. repeat split; try assumption.
  apply log_variances_accepted, Hok.
Qed.

Lemma log_variance_ok_0 : log_variance_ok 0.
Proof.
  unfold log_variance_ok. rewrite exp_0. split;
    [apply f32_underflow_lt_1 | apply f32_overflow_gt_1].
Qed.

Lemma concat_has_entry (A : Type) (n : nat) (t : list (list A)) :
  t <> [] -> (1 <= n)%nat -> has_width n t -> length (concat t) <> 0%nat.
Proof.
  intros Ht Hn Hw. destruct t as [|r t]; [congruence|].
  apply Forall_cons_iff in Hw as [Hr _]. simpl. rewrite length_app. lia.
Qed.

(** The distribution of a tensor without entries is refused. *)
Lemma MultivariateNormal_no_entries (loc : list (list R)) (cov : list (list (list R))) :
  length (concat loc) = 0%nat -> MultivariateNormal loc cov = Raise RuntimeError.
Proof. intros H. unfold MultivariateNormal. rewrite H. reflexivity. Qed.

(** The distribution of [loc] with the variances [exp(logv)] is accepted
    when [loc] has an entry and no variance rounds to 0. *)
Lemma MultivariateNormal_accepted (n : nat) (loc logv : list (list R)) (k : nat) :
  length (concat loc) <> 0%nat -> has_width n logv ->
  Forall (Forall variance_accepted) logv ->
  MultivariateNormal loc (map2 cov_of logv (repeat (eye n) k)) = Ok tt.
Proof.
  intros Hl Hw Hok. unfold MultivariateNormal.
  destruct (Nat.eqb_spec (length (concat loc)) 0) as [E|_]; [contradiction|].
  assert (F : forallb (fun m => forallb positive_float (diagonal m))
                (map2 cov_of logv (repeat (eye n) k)) = true).
  { clear Hl. revert k. unfold has_width in Hw.
    induction logv as [|lv logv IH]; intros [|k]; simpl; try reflexivity.
    apply Forall_cons_iff in Hw as [Hw0 Hw]. apply Forall_cons_iff in Hok as [Hok0 Hok].
    rewrite (diagonal_cov_of n lv Hw0), (IH Hw Hok k), andb_true_r.
    apply forallb_forall. intros d Hd. apply in_map_iff in Hd as (v & <- & Hv).
    rewrite Forall_forall in Hok0. apply positive_float_true, Hok0, Hv. }
  rewrite F. reflexivity.
Qed.

Lemma MultivariateNormal_returns (n : nat) (loc logv : list (list R)) (k : nat) :
  length (concat loc) <> 0%nat -> has_width n logv ->
  Forall (Forall log_variance_ok) logv ->
  MultivariateNormal loc (map2 cov_of logv (repeat (eye n) k)) = Ok tt.
Proof.
  intros Hl Hw Hok. apply MultivariateNormal_accepted; try assumption.
  apply log_variances_accepted, Hok.
Qed.

(** The standard normal distribution of [n >= 1] coordinates is accepted. *)
Lemma MultivariateNormal_standard (n k : nat) :
  (1 <= n)%nat -> MultivariateNormal [zeros n] (repeat (eye n) k) = Ok tt.
Proof.
  intros Hn. unfold MultivariateNormal. simpl concat. rewrite app_nil_r.
  unfold zeros at 1. rewrite repeat_length.
  destruct (Nat.eqb_spec n 0) as [E|_]; [lia|].
  assert (F : forallb (fun m => forallb positive_float (diagonal m))
                (repeat (eye n) k) = true).
  { apply forallb_forall. intros m Hm. apply repeat_spec in Hm. subst m.
    rewrite diagonal_eye. apply forallb_forall. intros d Hd.
    apply repeat_spec in Hd. subst d. apply positive_float_1. }
  rewrite F. reflexivity.
Qed.

(** ** The conditional KL term *)

Lemma kl_sample_term_sum (m lv zz : list R) :
  length lv = length m -> length zz = length m ->
  sum_list (map3 kl_sample_term m lv zz)
  = (0.5 * sum_list (map (fun zi => zi ^ 2) zz)
     - 0.5 * sum_list (map3 (fun zi mi li => (zi - mi) ^ 2 / exp li) zz m lv)
     - sum_list (map (fun li => li / 2) lv))%R.
Proof.
  revert lv zz. induction m as [|mi m IH]; intros [|li lv] [|zi zz] Hl Hz;
    simpl in *; try discriminate; [lra|].
  rewrite IH by lia. unfold kl_sample_term. lra.
Qed.

Lemma kl_row (n : nat) (m lv zz : list R) :
  length m = n -> length lv = n -> length zz = n ->
  (mvn_log_prob m (cov_of lv (eye n)) zz - mvn_log_prob (zeros n) (eye n) zz)%R
  = sum_list (map3 kl_sample_term m lv zz).
Proof.
  intros Hm Hl Hz.
  rewrite mvn_log_prob_diag, mvn_log_prob_standard by assumption.
  rewrite kl_sample_term_sum by congruence. lra.
Qed.

Lemma kl_rows (n : nat) (mean logv z : list (list R)) :
  has_width n mean -> has_width n logv -> has_width n z ->
  length logv = length mean -> length z = length mean ->
  map2 Rminus
    (map3 mvn_log_prob mean (map2 cov_of logv (repeat (eye n) (length mean))) z)
    (map2 (mvn_log_prob (zeros n)) (repeat (eye n) (length mean)) z)
  = map3 (fun m lv zz => sum_list (map3 kl_sample_term m lv zz)) mean logv z.
Proof.
  unfold has_width. intros Hm. revert logv z.
  induction Hm as [|m mean Hm0 Hm IH]; intros [|lv logv] [|zz z] Hl Hz El Ez;
    simpl in *; try discriminate; [reflexivity|].
  apply Forall_cons_iff in Hl as [Hl0 Hl]. apply Forall_cons_iff in Hz as [Hz0 Hz].
  rewrite kl_row by assumption. f_equal.
  apply IH; auto.
Qed.

Lemma gaussian_batch_width (n : nat) (mean logv z : list (list R)) :
  gaussian_batch n mean logv z -> length (hd [] mean) = n.
Proof.
  intros (_ & Hne & Hm & _). destruct mean as [|m mean]; [congruence|].
  apply Forall_cons_iff in Hm as [Hm _]. exact Hm.
Qed.


(** Under the standard prior [kl_loss] returns where its distributions are
    accepted. *)
Lemma kl_loss_accepted (self : EVAE) (n : nat) (mean logv z : list (list R)) :
  prior self = "Standard"%string ->
  accepted_batch n mean logv z ->
  kl_loss self mean logv z = Ok (kl_sample mean logv z).
Proof.
  intros Hp (Hn & Hne & Hm & Hl & Hz & El & Ez & Hok).
  unfold kl_loss, to_cuda_var. rewrite Hp.
  assert (Hw : length (hd [] mean) = n).
  { destruct mean as [|m mean]; [congruence|].
    apply Forall_cons_iff in Hm as [Hm _]. exact Hm. }
  rewrite Hw.
  rewrite (MultivariateNormal_accepted n mean logv _);
    [|apply (concat_has_entry _ n); assumption|exact Hl|exact Hok].
  cbn [bind].
  change (("Standard" =? "Standard")%string) with true. cbv iota.
  rewrite (MultivariateNormal_standard n _ Hn). cbn [bind].
  rewrite kl_rows by assumption. reflexivity.
Qed.

(** The value of [kl_loss] under the standard prior. *)
Lemma kl_loss_at_sample (self : EVAE) (n : nat) (mean logv z : list (list R)) :
  prior self = "Standard"%string ->
  gaussian_batch n mean logv z ->
  kl_loss self mean logv z = Ok (kl_sample mean logv z).
Proof.
  intros Hp G. apply (kl_loss_accepted self n); [exact Hp|].
  apply gaussian_batch_accepted, G.
Qed.


Lemma gaussian_batch_one (m lv zz : R) :
  log_variance_ok lv -> gaussian_batch 1 [[m]] [[lv]] [[zz]].
Proof.
  intros H. unfold gaussian_batch, has_width.
  repeat split; try discriminate; try lia;
    repeat (apply Forall_cons || apply Forall_nil); try reflexivity; assumption.
Qed.

Lemma analytic_kl_term_nonneg (m lv : R) : (0 <= analytic_kl_term m lv)%R.
Proof.
  unfold analytic_kl_term.
  assert (1 + lv <= exp lv)%R.
  { destruct (Req_dec lv 0) as [->|H].
    - rewrite exp_0. lra.
    - left. apply exp_ineq1. exact H. }
  assert (0 <= m ^ 2)%R by (apply pow2_ge_0).
  lra.
Qed.

Lemma analytic_kl_nonneg (mean logv : list (list R)) : (0 <= analytic_kl mean logv)%R.
Proof.
  unfold analytic_kl. revert logv.
  induction mean as [|m mean IH]; intros [|lv logv]; simpl; try lra.
  assert (0 <= sum_list (map2 analytic_kl_term m lv))%R.
  { clear. revert lv. induction m as [|a m IH]; intros [|b lv]; simpl; try lra.
    pose proof (analytic_kl_term_nonneg a b). specialize (IH lv). lra. }
  specialize (IH logv). lra.
Qed.

Lemma kl_sample_term_split (m lv zz : R) :
  kl_sample_term m lv zz = (analytic_kl_term m lv + sampling_term m lv zz)%R.
Proof.
  unfold kl_sample_term, analytic_kl_term, sampling_term.
  pose proof (exp_pos lv) as He.
  set (e := exp lv) in *. set (q := ((zz - m) ^ 2 / e)%R).
  assert (Hq : (q * e = (zz - m) ^ 2)%R) by (unfold q; field; lra).
  nra.
Qed.

Lemma kl_sample_split (n : nat) (mean logv z : list (list R)) :
  has_width n mean -> has_width n logv -> has_width n z ->
  length logv = length mean -> length z = length mean ->
  kl_sample mean logv z = (analytic_kl mean logv + sampling_deviation mean logv z)%R.
Proof.
  unfold has_width, kl_sample, analytic_kl, sampling_deviation. intros Hm. revert logv z.
  induction Hm as [|m mean Hm0 Hm IH]; intros [|lv logv] [|zz z] Hl Hz El Ez;
    simpl in *; try discriminate; [lra|].
  apply Forall_cons_iff in Hl as [Hl0 Hl]. apply Forall_cons_iff in Hz as [Hz0 Hz].
  rewrite IH by (auto; lia).
  assert (E : forall m lv zz : list R,
             length lv = length m -> length zz = length m ->
             sum_list (map3 kl_sample_term m lv zz)
             = (sum_list (map2 analytic_kl_term m lv)
                + sum_list (map3 sampling_term m lv zz))%R).
  { clear. induction m as [|a m IH]; intros [|b lv] [|c zz] H1 H2;
      simpl in *; try discriminate; [lra|].
    rewrite IH by lia. rewrite kl_sample_term_split. lra. }
  rewrite E by congruence. lra.
Qed.

(** C3, as the code has it.  Let [mean], [logv] and [z] be tensors of
    one shape with at least one row and one column, the variances
    [exp(logv)] positive finite floats.  Under the standard prior [kl_loss]
    returns the sum over the batch of log q(z|x) - log p(z) at the sampled
    [z], which is 0.5 * sum (z^2 - (z - mean)^2 / exp(logv) - logv).  It is
    the analytic KL 0.5 * sum (exp(logv) + mean^2 - 1 - logv), which is not
    negative, plus a term that depends on the sample,
    sum (mean (z - mean) + 0.5 ((z - mean)^2 / exp(logv) - 1) (exp(logv) - 1)). *)
Theorem kl_loss_is_sample_estimate
  (self : EVAE) (n : nat) (mean logv z : list (list R)) :
  prior self = "Standard"%string ->
  gaussian_batch n mean logv z ->
  kl_loss self mean logv z = Ok (kl_sample mean logv z) /\
  kl_sample mean logv z = (analytic_kl mean logv + sampling_deviation mean logv z)%R /\
  (0 <= analytic_kl mean logv)%R.
Proof.
  intros Hp G. split; [|split].
  - apply (kl_loss_at_sample self n); assumption.
  - destruct G as (_ & _ & Hm & Hl & Hz & El & Ez & _).
    apply (kl_sample_split n); assumption.
  - apply analytic_kl_nonneg.
Qed.

Lemma kl_loss_is_sample_estimate_witness :
  let self := small_model (1 / 2) 0 0 0 0 in
  kl_loss self [[1%R]] [[0%R]] [[0%R]] = Ok (kl_sample [[1%R]] [[0%R]] [[0%R]]) /\
  kl_sample [[1%R]] [[0%R]] [[0%R]]
  = (analytic_kl [[1%R]] [[0%R]] + sampling_deviation [[1%R]] [[0%R]] [[0%R]])%R /\
  (0 <= analytic_kl [[1%R]] [[0%R]])%R.
Proof.
  intros self.
  apply (kl_loss_is_sample_estimate self 1 [[1%R]] [[0%R]] [[0%R]]);
    [reflexivity | apply gaussian_batch_one, log_variance_ok_0].
Defined.

(** C3, as stated, fails: for mean 1, log-variance 0 and the sample 0 the
    value of [kl_loss] is -1/2, negative, and the analytic KL is 1/2. *)
Lemma kl_loss_negative_at_sample :
  let self := small_model (1 / 2) 0 0 0 0 in
  prior self = "Standard"%string /\
  exists v, kl_loss self [[1%R]] [[0%R]] [[0%R]] = Ok v /\
            (v < 0)%R /\
            v <> analytic_kl [[1%R]] [[0%R]].
Proof.
  intros self. split; [reflexivity|].
  exists (kl_sample [[1%R]] [[0%R]] [[0%R]]).
  split.
  - apply (kl_loss_at_sample self 1);
      [reflexivity | apply gaussian_batch_one, log_variance_ok_0].
  - unfold kl_sample, analytic_kl, kl_sample_term, analytic_kl_term. simpl.
    rewrite exp_0. split; [lra|]. lra.
Qed.

(** ** The marginal-posterior estimator *)

Lemma mvn_log_prob_gauss (n : nat) (m lv zz : list R) :
  length m = n -> length lv = n -> length zz = n ->
  mvn_log_prob m (cov_of lv (eye n)) zz = gauss_logpdf m lv zz.
Proof.
  intros Hm Hl Hz. rewrite mvn_log_prob_diag by assumption.
  unfold gauss_logpdf. subst n. clear - Hl Hz.
  revert lv zz Hl Hz. induction m as [|mi m IH]; intros [|li lv] [|zi zz] Hl Hz;
    simpl in Hl, Hz; try discriminate; [simpl; lra|].
  specialize (IH lv zz ltac:(lia) ltac:(lia)).
  change (length (mi :: m)) with (S (length m)). rewrite S_INR.
  unfold sum_list in *. cbn [map3 map fold_right] in *. lra.
Qed.

Lemma mvn_log_prob_std_normal (n : nat) (zz : list R) :
  length zz = n ->
  mvn_log_prob (zeros n) (eye n) zz = std_normal_logpdf zz.
Proof.
  intros Hz. rewrite mvn_log_prob_standard by assumption.
  unfold std_normal_logpdf. subst n.
  induction zz as [|zi zz IH]; [simpl; lra|].
  change (length (zi :: zz)) with (S (length zz)). rewrite S_INR.
  unfold sum_list in *. cbn [map fold_right] in *. lra.
Qed.

Lemma filter_map_S (b : nat) (l : list nat) :
  filter (fun r => negb (r =? S b)%nat) (map S l)
  = map S (filter (fun r => negb (r =? b)%nat) l).
Proof.
  induction l as [|k l IH]; simpl; [reflexivity|].
  destruct (k =? b)%nat; simpl; rewrite IH; reflexivity.
Qed.

Lemma gather_cons_S (A : Type) (d a : A) (t : list A) (p : list nat) :
  gather d (a :: t) (map S p) = gather d t p.
Proof. unfold gather. rewrite map_map. reflexivity. Qed.

(** Cutting row [b] out of a tensor leaves the rows of the other examples,
    in order. *)
Lemma remove_row_others (A : Type) (d : A) (t : list A) (b : nat) :
  (b < length t)%nat ->
  firstn b t ++ skipn (b + 1) t = gather d t (others (length t) b).
Proof.
  unfold others. revert b. induction t as [|a t IH]; intros b Hb; simpl in Hb; [lia|].
  change (length (a :: t)) with (S (length t)).
  rewrite <- cons_seq, <- seq_shift.
  destruct b as [|b].
  - cbn [firstn skipn app Nat.add filter Nat.eqb negb].
    assert (E : forall l, filter (fun r => negb (r =? 0)%nat) (map S l) = map S l).
    { clear. induction l as [|k l IH]; simpl; [reflexivity|].
      rewrite IH. reflexivity. }
    rewrite E, gather_cons_S, gather_seq. reflexivity.
  - cbn [firstn skipn app Nat.add filter Nat.eqb negb]. rewrite filter_map_S.
    change (gather d (a :: t) (0%nat :: ?p)) with (a :: gather d (a :: t) p).
    rewrite gather_cons_S. f_equal. apply IH. lia.
Qed.

Lemma length_others (n b : nat) : (b < n)%nat -> length (others n b) = (n - 1)%nat.
Proof.
  intros Hb.
  pose proof (remove_row_others nat 0%nat (seq 0 n) b) as E.
  rewrite length_seq in E. specialize (E Hb).
  apply (f_equal (@length nat)) in E.
  rewrite length_gather, length_app, length_firstn, length_skipn, length_seq in E.
  lia.
Qed.

Lemma others_lt (n b r : nat) : In r (others n b) -> (r < n)%nat /\ r <> b.
Proof.
  unfold others. intros H. apply filter_In in H as [H1 H2].
  apply in_seq in H1. apply negb_true_iff, Nat.eqb_neq in H2. lia.
Qed.

Lemma has_width_nth (A : Type) (n : nat) (t : list (list A)) (k : nat) :
  has_width n t -> (k < length t)%nat -> length (nth k t []) = n.
Proof.
  unfold has_width. intros H Hk. rewrite Forall_forall in H.
  apply H, nth_In, Hk.
Qed.

Lemma cross_terms (n : nat) (mean logv : list (list R)) (zb : list R) (idx : list nat) :
  has_width n mean -> has_width n logv -> length logv = length mean ->
  length zb = n ->
  Forall (fun r => (r < length mean)%nat) idx ->
  map3 mvn_log_prob (gather [] mean idx)
       (map2 cov_of (gather [] logv idx) (repeat (eye n) (length idx)))
       (concat (repeat [zb] (length idx)))
  = map (fun r => gauss_logpdf (nth r mean []) (nth r logv []) zb) idx.
Proof.
  intros Hm Hl Hlen Hz Hidx.
  induction Hidx as [|r idx Hr Hidx IH]; simpl; [reflexivity|].
  rewrite IH. f_equal.
  apply mvn_log_prob_gauss; [| |exact Hz].
  - apply has_width_nth; assumption.
  - apply has_width_nth; [assumption | congruence].
Qed.

Lemma mapM_pointwise (A B : Type) (f : A -> result B) (g : A -> B) (l : list A) :
  (forall a, In a l -> f a = Ok (g a)) -> mapM f l = Ok (map g l).
Proof.
  induction l as [|a l IH]; intros H; simpl; [reflexivity|].
  rewrite H by (simpl; auto). simpl.
  rewrite IH by (intros; apply H; simpl; auto). reflexivity.
Qed.

Lemma row_nth (A : Type) (d : A) (t : list A) (b : nat) :
  (b < length t)%nat -> row t b = Ok (nth b t d).
Proof.
  intros H. unfold row. rewrite (nth_error_nth' t d H). reflexivity.
Qed.

Lemma mapM_Raise_head (A B : Type) (f : A -> result B) (a : A) (l : list A) (e : exn) :
  f a = Raise e -> mapM f (a :: l) = Raise e.
Proof. intros H. simpl. rewrite H. reflexivity. Qed.

Lemma gaussian_batch_others (n : nat) (mean logv z : list (list R)) (b : nat) :
  gaussian_batch n mean logv z -> (2 <= length mean)%nat -> (b < length mean)%nat ->
  let idx := others (length mean) b in
  length (concat (gather [] mean idx)) <> 0%nat /\
  has_width n (gather [] logv idx) /\
  Forall (Forall log_variance_ok) (gather [] logv idx).
Proof.
  intros (Hn & Hne & Hm & Hl & Hz & El & Ez & Hok) HB Hb idx.
  assert (Hidx : Forall (fun r => (r < length mean)%nat) idx).
  { apply Forall_forall. intros r Hr. apply others_lt in Hr. lia. }
  split; [|split].
  - apply (concat_has_entry _ n); [|exact Hn|apply Forall_gather; assumption].
    intros E. apply (f_equal (@length (list R))) in E.
    rewrite length_gather in E. unfold idx in E.
    rewrite (length_others _ _ Hb) in E. simpl in E. lia.
  - apply Forall_gather; [exact Hl | rewrite El; exact Hidx].
  - apply Forall_gather; [exact Hok | rewrite El; exact Hidx].
Qed.

(** One round of the loop, for a batch of two examples or more: after the
    distributions are built, the conversion of [num_samples] and the
    division of the weight decide whether the round has a value. *)
Lemma mpd_step_value (n : nat) (z mean logv : list (list R)) (num_samples : Z) (b : nat) :
  gaussian_batch n mean logv z -> (2 <= length mean)%nat -> (b < length mean)%nat ->
  mpd_step z mean logv num_samples b
  = (_ <- tensor_of_int num_samples ;;
     _ <- py_truediv (num_samples - 1) ((Z.of_nat (length mean) - 1) * num_samples) ;;
     Ok (logq_marginal z mean logv num_samples b, [std_normal_logpdf (nth b z [])])).
Proof.
  intros G HB Hb.
  pose proof (gaussian_batch_width n mean logv z G) as Hn.
  destruct (gaussian_batch_others n mean logv z b G HB Hb) as (R1 & R2 & R3).
  destruct G as (Hn1 & Hne & Hm & Hl & Hz & El & Ez & Hok).
  unfold mpd_step, to_cuda_var.
  rewrite (row_nth _ [] z), (row_nth _ [] mean), (row_nth _ [] logv) by congruence.
  cbn [bind]. rewrite Hn.
  assert (Wz : length (nth b z []) = n) by (apply has_width_nth; congruence).
  assert (Wm : length (nth b mean []) = n) by (apply has_width_nth; congruence).
  assert (Wl : length (nth b logv []) = n) by (apply has_width_nth; congruence).
  assert (Ob : Forall log_variance_ok (nth b logv [])).
  { rewrite Forall_forall in Hok. apply Hok, nth_In. lia. }
  change [eye n] with (repeat (eye n) 1).
  rewrite (MultivariateNormal_returns n [nth b mean []] [nth b logv []] 1);
    [| simpl; rewrite app_nil_r; lia | repeat constructor; exact Wl
     | repeat constructor; exact Ob ].
  rewrite (MultivariateNormal_standard n 1 Hn1).
  cbn [bind repeat].
  rewrite (remove_row_others _ [] mean b Hb).
  rewrite (remove_row_others _ [] logv b) by congruence.
  rewrite El.
  rewrite (MultivariateNormal_returns n _ _ _ R1 R2 R3).
  cbn [bind].
  unfold tensor_of_int.
  destruct ((- 2 ^ 63 <=? num_samples) && (num_samples <? 2 ^ 63))%Z;
    [cbn [bind]|reflexivity].
  unfold py_truediv.
  destruct (Z.eqb_spec ((Z.of_nat (length mean) - 1) * num_samples) 0) as [E|E];
    [reflexivity|].
  cbn [bind map2 map3 map app].
  rewrite mvn_log_prob_gauss, mvn_log_prob_std_normal by assumption.
  rewrite <- (length_others (length mean) b Hb).
  rewrite (cross_terms n) by
    (try assumption; apply Forall_forall; intros r Hr; apply others_lt in Hr; lia).
  rewrite map_map.
  unfold logq_marginal, cross_weight.
  rewrite <- mult_IZR. reflexivity.
Qed.

(** The estimator on a batch of two examples or more. *)
Lemma marginal_posterior_divergence_steps
  (n : nat) (z mean logv : list (list R)) (num_samples : Z) :
  gaussian_batch n mean logv z -> (2 <= length mean)%nat ->
  marginal_posterior_divergence z mean logv num_samples
  = (_ <- tensor_of_int num_samples ;;
     _ <- py_truediv (num_samples - 1) ((Z.of_nat (length mean) - 1) * num_samples) ;;
     Ok (marginal_divergence_sum z mean logv num_samples)).
Proof.
  intros G HB. unfold marginal_posterior_divergence.
  destruct (tensor_of_int num_samples) as [s|e] eqn:Et.
  - destruct (py_truediv (num_samples - 1) ((Z.of_nat (length mean) - 1) * num_samples))
      as [w|e] eqn:Ew.
    + rewrite (mapM_pointwise _ _ _
                 (fun b => (logq_marginal z mean logv num_samples b,
                            [std_normal_logpdf (nth b z [])]))).
      * cbn [bind].
        set (g := fun b => (logq_marginal z mean logv num_samples b,
                            [std_normal_logpdf (nth b z [])])).
        assert (E : forall l,
                   map2 Rminus (map fst (map g l))
                        (map (fun p => hd 0%R (snd p)) (map g l))
                   = map (fun b => (logq_marginal z mean logv num_samples b
                                    - std_normal_logpdf (nth b z []))%R) l).
        { induction l as [|b l IH]; simpl; [reflexivity | rewrite IH; reflexivity]. }
        destruct (map g (seq 0 (length mean))) as [|y ys] eqn:EL.
        -- apply map_eq_nil in EL. apply (f_equal (@length nat)) in EL.
           rewrite length_seq in EL. simpl in EL. lia.
        -- rewrite <- EL, E. reflexivity.
      * intros b Hb. apply in_seq in Hb.
        rewrite (mpd_step_value n) by (try assumption; lia).
        rewrite Et, Ew. reflexivity.
    + destruct (length mean) as [|B] eqn:EB; [lia|]. cbn [seq].
      rewrite (mapM_Raise_head _ _ _ _ _ e); [reflexivity|].
      rewrite (mpd_step_value n) by (try assumption; lia).
      rewrite Et, EB, Ew. reflexivity.
  - destruct (length mean) as [|B] eqn:EB; [lia|]. cbn [seq].
    rewrite (mapM_Raise_head _ _ _ _ _ e); [reflexivity|].
    rewrite (mpd_step_value n) by (try assumption; lia).
    rewrite Et. reflexivity.
Qed.

Lemma tensor_of_int_in_range (x : Z) :
  (- 2 ^ 63 <= x < 2 ^ 63)%Z -> tensor_of_int x = Ok (IZR x).
Proof.
  intros H. unfold tensor_of_int.
  destruct (Z.leb_spec (- 2 ^ 63) x); [|lia].
  destruct (Z.ltb_spec x (2 ^ 63)); [reflexivity|lia].
Qed.

Lemma tensor_of_int_overflow (x : Z) :
  (2 ^ 63 <= x)%Z -> tensor_of_int x = Raise RuntimeError.
Proof.
  intros H. unfold tensor_of_int.
  destruct (Z.ltb_spec x (2 ^ 63)); [lia|]. rewrite andb_false_r. reflexivity.
Qed.

Lemma py_truediv_nonzero (a b : Z) :
  b <> 0%Z -> py_truediv a b = Ok (IZR a / IZR b)%R.
Proof.
  intros H. unfold py_truediv. destruct (Z.eqb_spec b 0); [contradiction|reflexivity].
Qed.

(** The value of the estimator on a batch of two examples or more. *)
Lemma marginal_posterior_divergence_value
  (n : nat) (z mean logv : list (list R)) (num_samples : Z) :
  gaussian_batch n mean logv z -> (2 <= length mean)%nat ->
  (1 <= num_samples < 2 ^ 63)%Z ->
  marginal_posterior_divergence z mean logv num_samples
  = Ok (marginal_divergence_sum z mean logv num_samples).
Proof.
  intros G HB HN. rewrite (marginal_posterior_divergence_steps n) by assumption.
  rewrite tensor_of_int_in_range by lia. cbn [bind].
  rewrite py_truediv_nonzero; [reflexivity|].
  intros E. apply Z.mul_eq_0 in E. lia.
Qed.

(** Without samples the weight of the cross terms divides by 0. *)
Lemma marginal_posterior_divergence_no_samples
  (n : nat) (z mean logv : list (list R)) :
  gaussian_batch n mean logv z -> (2 <= length mean)%nat ->
  marginal_posterior_divergence z mean logv 0 = Raise ZeroDivisionError.
Proof.
  intros G HB. rewrite (marginal_posterior_divergence_steps n) by assumption.
  rewrite tensor_of_int_in_range by lia. cbn [bind].
  unfold py_truediv. rewrite Z.mul_0_r. reflexivity.
Qed.

(** With one sample the cross terms have the weight 0, whose logarithm is
    minus infinity: log q(z_b) is the log-density of the example's own
    posterior. *)
Lemma logq_marginal_one_sample (z mean logv : list (list R)) (b : nat) :
  logq_marginal z mean logv 1 b
  = gauss_logpdf (nth b mean []) (nth b logv []) (nth b z []).
Proof.
  unfold logq_marginal, xlogsumexp, cross_weight, torch_log.
  rewrite if_Rlt_dec_false by (simpl; lra).
  cbn [map xexp sum_list fold_right xplus].
  assert (E : forall l : list nat,
             fold_right Rplus 0%R (map xexp (map (fun _ => NegInf) l)) = 0%R).
  { induction l as [|r l IH]; simpl; [reflexivity | rewrite IH; lra]. }
  rewrite E, ln_1, Rplus_0_r, Rminus_0_r, ln_exp. reflexivity.
Qed.

(** C2, as the code has it.  Let the batch have two examples or more, the
    tensors one shape with at least one column and variances [exp(logv)]
    that are positive finite floats.  For [1 <= num_samples < 2^63] the
    estimator returns the sum over the examples b of
    log q(z_b) - log p(z_b): log q(z_b) is the log-sum-exp of
    log q(z_b | x_b) - log(num_samples) and, for every other example r, of
    log q(z_b | x_r) + log((num_samples - 1) / ((batch_size - 1) num_samples));
    log p(z_b) is the standard normal log-density.  The weight of the cross
    terms is positive from [num_samples = 2] on; at [num_samples = 1] it is
    0, its logarithm minus infinity, and the sum is that of
    log q(z_b | x_b) - log p(z_b).  For [num_samples = 0] the call stops
    with [ZeroDivisionError], and from [2^63] on with the [RuntimeError] of
    the conversion to an int64 tensor. *)
Theorem marginal_posterior_divergence_is_weighted_sum
  (n : nat) (z mean logv : list (list R)) (num_samples : Z) :
  gaussian_batch n mean logv z -> (2 <= length mean)%nat ->
  ((1 <= num_samples < 2 ^ 63)%Z ->
   marginal_posterior_divergence z mean logv num_samples
   = Ok (marginal_divergence_sum z mean logv num_samples) /\
   (0 < IZR num_samples)%R /\
   (0 <= cross_weight (length mean) num_samples)%R) /\
  ((2 <= num_samples)%Z -> (0 < cross_weight (length mean) num_samples)%R) /\
  (num_samples = 1%Z ->
   marginal_divergence_sum z mean logv num_samples
   = sum_list (map (fun b => (gauss_logpdf (nth b mean []) (nth b logv []) (nth b z [])
                              - std_normal_logpdf (nth b z []))%R)
                   (seq 0 (length mean)))) /\
  (num_samples = 0%Z ->
   marginal_posterior_divergence z mean logv num_samples = Raise ZeroDivisionError) /\
  ((2 ^ 63 <= num_samples)%Z ->
   marginal_posterior_divergence z mean logv num_samples = Raise RuntimeError).
Proof.
  intros G HB.
  assert (W : forall k : Z, (1 <= k)%Z ->
                (0 < IZR (Z.of_nat (length mean) - 1) * IZR k)%R).
  { intros k Hk. apply Rmult_lt_0_compat; apply IZR_lt; lia. }
  split; [|split; [|split; [|split]]].
  - intros HN. split; [|split].
    + apply (marginal_posterior_divergence_value n); assumption.
    + apply IZR_lt. lia.
    + unfold cross_weight. apply Rmult_le_pos.
      * apply IZR_le. lia.
      * left. apply Rinv_0_lt_compat, W. lia.
  - intros HN. unfold cross_weight. apply Rdiv_lt_0_compat.
    + apply IZR_lt. lia.
    + apply W. lia.
  - intros ->. unfold marginal_divergence_sum. f_equal.
    apply map_ext. intros b. rewrite logq_marginal_one_sample. reflexivity.
  - intros ->. apply (marginal_posterior_divergence_no_samples n); assumption.
  - intros HN. rewrite (marginal_posterior_divergence_steps n) by assumption.
    rewrite tensor_of_int_overflow by exact HN. reflexivity.
Qed.

Lemma gaussian_batch_two (m1 m2 z1 z2 : R) :
  gaussian_batch 1 [[m1]; [m2]] [[0]; [0]]%R [[z1]; [z2]].
Proof.
  unfold gaussian_batch, has_width.
  repeat split; try discriminate; try lia;
    repeat (apply Forall_cons || apply Forall_nil); try reflexivity;
    apply log_variance_ok_0.
Qed.

Lemma marginal_posterior_divergence_is_weighted_sum_witness :
  let z := [[0]; [1]]%R in
  let mean := [[0]; [1]]%R in
  let logv := [[0]; [0]]%R in
  (marginal_posterior_divergence z mean logv 10
   = Ok (marginal_divergence_sum z mean logv 10) /\
   (0 < IZR 10)%R /\ (0 <= cross_weight 2 10)%R) /\
  (0 < cross_weight 2 10)%R /\
  marginal_posterior_divergence z mean logv 1
  = Ok (marginal_divergence_sum z mean logv 1) /\
  marginal_divergence_sum z mean logv 1
  = sum_list (map (fun b => (gauss_logpdf (nth b mean []) (nth b logv []) (nth b z [])
                             - std_normal_logpdf (nth b z []))%R) [0; 1]%nat) /\
  marginal_posterior_divergence z mean logv 0 = Raise ZeroDivisionError /\
  marginal_posterior_divergence z mean logv (2 ^ 63) = Raise RuntimeError.
Proof.
  intros z mean logv.
  pose proof (fun k => marginal_posterior_divergence_is_weighted_sum 1 z mean logv k
                         (gaussian_batch_two 0 1 0 1) (le_n 2)) as T.
  split; [|split; [|split; [|split; [|split]]]].
  - apply (T 10%Z). lia.
  - apply (T 10%Z). lia.
  - apply (T 1%Z). lia.
  - apply (T 1%Z). reflexivity.
  - apply (T 0%Z). reflexivity.
  - apply (T (2 ^ 63)%Z). lia.
Defined.

(** C2, as stated, fails for [num_samples = 0]: the weight of the
    cross-example terms divides by [(batch_size - 1) * num_samples = 0] and
    the call stops with [ZeroDivisionError] instead of returning a sum. *)
Lemma marginal_posterior_divergence_zero_samples :
  marginal_posterior_divergence [[0]; [1]]%R [[0]; [1]]%R [[0]; [0]]%R 0
  = Raise ZeroDivisionError /\
  marginal_posterior_divergence [[0]; [1]]%R [[0]; [1]]%R [[0]; [0]]%R 0
  <> Ok (marginal_divergence_sum [[0]; [1]]%R [[0]; [1]]%R [[0]; [0]]%R 0).
Proof.
  assert (E : marginal_posterior_divergence [[0]; [1]]%R [[0]; [1]]%R [[0]; [0]]%R 0
              = Raise ZeroDivisionError).
  { apply (marginal_posterior_divergence_no_samples 1), le_n.
    apply (gaussian_batch_two 0 1 0 1). }
  split; [exact E | rewrite E; discriminate].
Qed.

(** ** The marginal estimator on a batch of one *)

(** On a batch of one example the distribution of the other examples has
    no entries: the first round of the loop stops there. *)
Lemma marginal_posterior_divergence_one_example
  (n : nat) (z mean logv : list (list R)) (num_samples : Z) :
  gaussian_batch n mean logv z -> length mean = 1%nat ->
  marginal_posterior_divergence z mean logv num_samples = Raise RuntimeError.
Proof.
  intros G HB. pose proof (gaussian_batch_width n mean logv z G) as Hn.
  destruct G as (Hn1 & Hne & Hm & Hl & Hz & El & Ez & Hok).
  destruct mean as [|mu [|? ?]]; try discriminate.
  destruct z as [|zb [|? ?]]; try discriminate.
  destruct logv as [|lv [|? ?]]; try discriminate.
  unfold marginal_posterior_divergence. cbn [length seq].
  rewrite (mapM_Raise_head _ _ _ _ _ RuntimeError); [reflexivity|].
  unfold mpd_step, to_cuda_var. rewrite Hn.
  cbn [row nth_error bind length firstn skipn app Nat.add Nat.sub].
  change [eye n] with (repeat (eye n) 1).
  rewrite (MultivariateNormal_returns n [mu] [lv] 1);
    [| simpl; rewrite app_nil_r; simpl in Hn; lia | exact Hl | exact Hok ].
  cbn [bind].
  rewrite MultivariateNormal_no_entries by reflexivity. reflexivity.
Qed.

(** C9.  On a batch of exactly one example, of [n >= 1] coordinates and
    with a variance that is a positive finite float, the marginal-posterior
    estimator has no value, for every [num_samples]: the weight of the
    cross-example terms has the denominator
    [(batch_size - 1) * num_samples = 0], whose division raises
    [ZeroDivisionError], and the call stops before it, with the
    [RuntimeError] of the distribution over the other examples, of which
    there are none.  The conditional KL of the same batch has a value, so
    the two do not agree there. *)
Theorem marginal_posterior_divergence_batch_of_one
  (self : EVAE) (n : nat) (z mean logv : list (list R)) (num_samples : Z) :
  gaussian_batch n mean logv z -> length mean = 1%nat ->
  prior self = "Standard"%string ->
  marginal_posterior_divergence z mean logv num_samples = Raise RuntimeError /\
  py_truediv (num_samples - 1) ((Z.of_nat (length mean) - 1) * num_samples)
  = Raise ZeroDivisionError /\
  kl_loss self mean logv z = Ok (kl_sample mean logv z) /\
  marginal_posterior_divergence z mean logv num_samples <> kl_loss self mean logv z.
Proof.
  intros G HB Hp.
  pose proof (marginal_posterior_divergence_one_example n z mean logv num_samples G HB)
    as E.
  pose proof (kl_loss_at_sample self n mean logv z Hp G) as K.
  split; [exact E|]. split; [|split; [exact K|]].
  - rewrite HB. reflexivity.
  - rewrite E, K. discriminate.
Qed.

Lemma marginal_posterior_divergence_batch_of_one_witness :
  let self := small_model (1 / 2) 0 0 0 0 in
  marginal_posterior_divergence [[0%R]] [[0%R]] [[0%R]] 10 = Raise RuntimeError /\
  py_truediv (10 - 1) ((Z.of_nat 1 - 1) * 10) = Raise ZeroDivisionError /\
  kl_loss self [[0%R]] [[0%R]] [[0%R]] = Ok (kl_sample [[0%R]] [[0%R]] [[0%R]]) /\
  marginal_posterior_divergence [[0%R]] [[0%R]] [[0%R]] 10
  <> kl_loss self [[0%R]] [[0%R]] [[0%R]].
Proof.
  intros self.
  apply (@marginal_posterior_divergence_batch_of_one
           self 1 [[0%R]] [[0%R]] [[0%R]] 10);
    [apply gaussian_batch_one, log_variance_ok_0 | reflexivity | reflexivity].
Defined.

(** ** The MMD estimator *)

Lemma sum_list_app (l m : list R) :
  sum_list (l ++ m) = (sum_list l + sum_list m)%R.
Proof.
  induction l as [|a l IH]; simpl; [lra | rewrite IH; lra].
Qed.

Lemma sum_list_concat (t : list (list R)) :
  sum_list (concat t) = sum_list (map sum_list t).
Proof.
  induction t as [|r t IH]; simpl; [reflexivity|].
  rewrite sum_list_app, IH. reflexivity.
Qed.

Lemma length_concat_map (A B : Type) (f : A -> list B) (n : nat) (x : list A) :
  (forall a, In a x -> length (f a) = n) ->
  length (concat (map f x)) = (length x * n)%nat.
Proof.
  induction x as [|a x IH]; intros H; simpl; [reflexivity|].
  rewrite length_app, H by (simpl; auto).
  rewrite IH by (intros; apply H; simpl; auto). reflexivity.
Qed.

Lemma map2_repeat_l (A B C : Type) (f : A -> B -> C) (a : A) (m : list B) :
  map2 f (repeat a (length m)) m = map (f a) m.
Proof.
  induction m as [|b m IH]; simpl; [reflexivity | rewrite IH; reflexivity].
Qed.

Lemma map2_map_repeat (A B C D : Type) (g : C -> B -> D) (h : A -> C) (y : B) (x : list A) :
  map2 g (map h x) (repeat y (length x)) = map (fun a => g (h a) y) x.
Proof.
  induction x as [|a x IH]; simpl; [reflexivity | rewrite IH; reflexivity].
Qed.

Lemma sum_sq_diff_nth (a b : list R) :
  length a = length b ->
  sum_list (map (fun d => (d ^ 2)%R) (map2 Rminus a b))
  = sum_list (map (fun i => ((nth i a 0 - nth i b 0) ^ 2)%R) (seq 0 (length a))).
Proof.
  revert b. induction a as [|u a IH]; intros [|v b] Hlen; simpl in *;
    try discriminate; [reflexivity|].
  injection Hlen as Hlen.
  rewrite <- seq_shift, map_map, (IH b Hlen). reflexivity.
Qed.

Lemma compute_kernel_entries (dim : nat) (x y : list (list R)) :
  has_width dim x -> has_width dim y ->
  compute_kernel x y = map (fun a => map (fun b => gaussian_kernel dim a b) y) x.
Proof.
  intros Hx Hy. unfold compute_kernel.
  rewrite map2_map_repeat, map_map.
  apply map_ext_in. intros a Ha.
  rewrite map2_repeat_l, map_map.
  apply map_ext_in. intros b Hb.
  unfold has_width in *. rewrite Forall_forall in Hx, Hy.
  assert (La : length a = dim) by auto.
  assert (Lb : length b = dim) by auto.
  assert (Lh : length (hd [] x) = dim).
  { destruct x as [|r x]; [destruct Ha|]. simpl. apply Hx. simpl. auto. }
  unfold gaussian_kernel, mean_sq_diff, mean_list.
  rewrite Lh, length_map, length_map2, La, Lb, Nat.min_id.
  rewrite sum_sq_diff_nth, La by congruence. reflexivity.
Qed.

Lemma tensor_mean_entries (A B : Type) (k : A -> B -> R) (x : list A) (y : list B) :
  tensor_mean (map (fun a => map (fun b => k a b) y) x)
  = (sum_list (map (fun a => sum_list (map (fun b => k a b) y)) x)
     / INR (length x * length y))%R.
Proof.
  unfold tensor_mean, mean_list.
  rewrite sum_list_concat, map_map.
  rewrite (@length_concat_map _ _ _ (length y))
    by (intros; apply length_map).
  reflexivity.
Qed.

(** C7.  For the latent codes [zq] and the prior samples [true_samples],
    all of [dim] coordinates, the MMD estimator is
    mean(K_tt) + mean(K_zz) - 2 mean(K_tz) for the kernel
    exp(-(mean over the coordinates of (a - b)^2) / dim). *)
Theorem mmd_loss_is_kernel_mean_difference
  (self : EVAE) (dim : nat) (zq true_samples : list (list R)) :
  has_width dim zq -> has_width dim true_samples ->
  length true_samples = length zq ->
  mmd_loss self zq true_samples
  = (kernel_mean dim true_samples true_samples + kernel_mean dim zq zq
     - 2 * kernel_mean dim true_samples zq)%R.
Proof.
  intros Hz Ht _. unfold mmd_loss, compute_mmd, to_cuda_var.
  rewrite !(@compute_kernel_entries dim) by assumption.
  rewrite !tensor_mean_entries. reflexivity.
Qed.

Lemma mmd_loss_is_kernel_mean_difference_witness :
  mmd_loss (small_model (1 / 2) 0 0 0 0) [[1; 2]; [0; 1]]%R [[0; 0]; [1; 1]]%R
  = (kernel_mean 2 [[0; 0]; [1; 1]] [[0; 0]; [1; 1]]
     + kernel_mean 2 [[1; 2]; [0; 1]] [[1; 2]; [0; 1]]
     - 2 * kernel_mean 2 [[0; 0]; [1; 1]] [[1; 2]; [0; 1]])%R.
Proof.
  apply (@mmd_loss_is_kernel_mean_difference (small_model (1 / 2) 0 0 0 0) 2);
    [repeat constructor | repeat constructor | reflexivity].
Defined.

(** ** Loss terms with a zero weight *)

(** With the weight [beta = 0] the loss does not read the prior. *)
Lemma vae_loss_with_prior
  (self : EVAE) (p : string) (batch : Batch) (num_samples : Z)
  (eps prob true_samples : list (list R)) :
  beta self = 0%R ->
  vae_loss (with_prior self p) batch num_samples eps prob true_samples
  = vae_loss self batch num_samples eps prob true_samples.
Proof.
  intros Hb. unfold vae_loss.
  change (beta (with_prior self p)) with (beta self).
  destruct (Rlt_dec 0 (beta self)) as [H|H]; [lra|]. reflexivity.
Qed.

(** C10.  In every result of [vae_loss] a term whose weight is zero is the
    constant 0: the conditional KL for [beta = 0], the marginal KL for
    [alpha = 0], the MMD for [gamma = 0].  The estimator of such a term is
    not run: the result does not depend on what only that estimator reads
    (the prior for the conditional KL, [num_samples] for the marginal KL,
    the prior draws for the MMD), also where the estimator would raise. *)
Theorem vae_loss_zero_weight_terms
  (self : EVAE) (batch : Batch) (num_samples : Z) (eps prob true_samples : list (list R))
  (recon kl mkl mmd : R) :
  vae_loss self batch num_samples eps prob true_samples = Ok (recon, kl, mkl, mmd) ->
  (beta self = 0%R ->
   kl = 0%R /\
   forall p, vae_loss (with_prior self p) batch num_samples eps prob true_samples
             = Ok (recon, kl, mkl, mmd)) /\
  (alpha self = 0%R ->
   mkl = 0%R /\
   forall n', vae_loss self batch n' eps prob true_samples = Ok (recon, kl, mkl, mmd)) /\
  (gamma self = 0%R ->
   mmd = 0%R /\
   forall t', vae_loss self batch num_samples eps prob t' = Ok (recon, kl, mkl, mmd)).
Proof.
  intros H.
  assert (P : beta self = 0%R ->
              forall p, vae_loss (with_prior self p) batch num_samples eps prob true_samples
                        = Ok (recon, kl, mkl, mmd)).
  { intros Hb p. rewrite vae_loss_with_prior by exact Hb. exact H. }
  cut ((beta self = 0%R -> kl = 0%R) /\
       (alpha self = 0%R ->
        mkl = 0%R /\
        forall n', vae_loss self batch n' eps prob true_samples = Ok (recon, kl, mkl, mmd)) /\
       (gamma self = 0%R ->
        mmd = 0%R /\
        forall t', vae_loss self batch num_samples eps prob t' = Ok (recon, kl, mkl, mmd))).
  { intros (Q1 & Q2 & Q3). split; [|split]; auto. }
  clear P.
  unfold vae_loss, to_cuda_var in *.
  destruct (torch_sort (drug_len batch) true) as [sorted_lengths sorted_idx].
  destruct (index_select (drug_inputs batch) sorted_idx) as [input_sequence|];
    [cbn [bind] in *|cbn [bind] in H; discriminate].
  destruct (encoder self input_sequence sorted_lengths) as [hidden|];
    [cbn [bind] in *|cbn [bind] in H; discriminate].
  destruct (reparameterize self hidden eps) as [[mean logv] z].
  destruct (decoder self input_sequence sorted_lengths sorted_idx z prob) as [logp_drug|];
    [cbn [bind] in *|cbn [bind] in H; discriminate].
  destruct (torch_max (drug_len batch)) as [longest|]; [cbn [bind] in *|cbn [bind] in H; discriminate].
  destruct (RECON self _ _) as [rc|]; [cbn [bind] in *|cbn [bind] in H; discriminate].
  inv_bind H. rename a into k.
  inv_bind H. rename a into m.
  injection H as <- <- <- <-.
  split; [|split].
  - intros Hb. rewrite if_Rlt_dec_false in Ha by lra. congruence.
  - intros Hal. rewrite Ha. cbn [bind].
    rewrite if_Rlt_dec_false in Ha0 by lra.
    injection Ha0 as <-.
    split; [reflexivity|]. intros n'.
    rewrite (@if_Rlt_dec_false _ 0%R (alpha self)) by lra. reflexivity.
  - intros Hg. rewrite Ha. cbn [bind]. rewrite Ha0. cbn [bind].
    rewrite (@if_Rlt_dec_false _ 0%R (gamma self)) by lra.
    split; [reflexivity|]. intros t'.
    rewrite (@if_Rlt_dec_false _ 0%R (gamma self)) by lra. reflexivity.
Qed.

Lemma vae_loss_zero_weight_terms_witness :
  let self := small_model (1 / 2) 0 0 0 0 in
  let recon := ((- (0 - ln (exp 0 + (exp 0 + (exp 0 + (exp 0 + 0))))) + (0 + 0)) / 1)%R in
  (beta self = 0%R ->
   0%R = 0%R /\
   forall p, vae_loss (with_prior self p) batch_of_one 10 [[0%R]] [[0; 0; 0]%R] [[0%R]]
             = Ok (recon, 0%R, 0%R, 0%R)) /\
  (alpha self = 0%R ->
   0%R = 0%R /\
   forall n', vae_loss self batch_of_one n' [[0%R]] [[0; 0; 0]%R] [[0%R]]
              = Ok (recon, 0%R, 0%R, 0%R)) /\
  (gamma self = 0%R ->
   0%R = 0%R /\
   forall t', vae_loss self batch_of_one 10 [[0%R]] [[0; 0; 0]%R] t'
              = Ok (recon, 0%R, 0%R, 0%R)).
Proof.
  intros self recon.
  apply (@vae_loss_zero_weight_terms self batch_of_one 10
           [[0%R]] [[0; 0; 0]%R] [[0%R]] recon 0%R 0%R 0%R).
  unfold vae_loss. simpl.
  unfold decoder, decoder_input_sequence. simpl.
  unfold drop_token, keep_prob. simpl.
  eval_Rlt. reflexivity.
Defined.

(** ** The ranking loss *)

Lemma chunk_concat (A : Type) (w : nat) (rows : list (list A)) :
  has_width w rows -> chunk (length rows) w (concat rows) = rows.
Proof.
  unfold has_width. induction 1 as [|r rows Hr H IH]; simpl; [reflexivity|].
  rewrite firstn_app, Hr, Nat.sub_diag, firstn_all2 by lia. simpl.
  rewrite app_nil_r. f_equal.
  rewrite skipn_app, Hr, Nat.sub_diag, skipn_all2 by lia. simpl. exact IH.
Qed.

Lemma map2_app (A B C : Type) (f : A -> B -> C) (a a' : list A) (b b' : list B) :
  length a = length b ->
  map2 f (a ++ a') (b ++ b') = map2 f a b ++ map2 f a' b'.
Proof.
  revert b. induction a as [|x a IH]; intros [|y b] H; simpl in *;
    try discriminate; [reflexivity|].
  rewrite IH by lia. reflexivity.
Qed.

Lemma map2_repeat_r (A B C : Type) (f : A -> B -> C) (b : B) (a : list A) :
  map2 f a (repeat b (length a)) = map (fun x => f x b) a.
Proof.
  induction a as [|x a IH]; simpl; [reflexivity | rewrite IH; reflexivity].
Qed.

Lemma distances_by_anchor (group : nat) (cands : list (list (list R)))
  (anchors : list (list R)) :
  has_width group cands -> length anchors = length cands ->
  map2 pairwise_distance (concat cands) (concat (map (fun a => repeat a group) anchors))
  = concat (map2 candidate_distances cands anchors).
Proof.
  unfold has_width. intros H. revert anchors.
  induction H as [|cs cands Hc H IH]; intros [|a anchors] Hlen; simpl in *;
    try discriminate; [reflexivity|].
  rewrite map2_app by (rewrite repeat_length; exact Hc).
  rewrite IH by lia. f_equal.
  rewrite <- Hc. apply map2_repeat_r.
Qed.

Lemma sum_exp_neg_nth (d : list R) :
  sum_list (map exp (map Ropp d))
  = sum_list (map (fun k => exp (- nth k d 0)%R) (seq 0 (length d))).
Proof.
  unfold sum_list. induction d as [|x d IH]; simpl; [reflexivity|].
  rewrite IH, <- seq_shift, (map_map S). reflexivity.
Qed.

Lemma softmax_margin_value (euclidean_dist : list (list R)) (group : nat) :
  (1 <= group)%nat -> has_width group euclidean_dist ->
  softmax_margin euclidean_dist (length euclidean_dist)
  = Ok (mean_list (map anchor_loss euclidean_dist)).
Proof.
  intros Hg Hw. unfold softmax_margin.
  rewrite (mapM_pointwise _ _ _ (fun r => nth 0 r 0%R)).
  - cbn [bind]. unfold mean_list. rewrite length_map. f_equal. f_equal. f_equal.
    unfold has_width in Hw. clear Hw.
    induction euclidean_dist as [|d D IH]; simpl; [reflexivity|].
    rewrite IH. f_equal. unfold anchor_loss, logsumexp.
    rewrite sum_exp_neg_nth. reflexivity.
  - intros r Hr. apply row_nth.
    unfold has_width in Hw. rewrite Forall_forall in Hw. rewrite (Hw r Hr). lia.
Qed.

Lemma length_concat_width (A : Type) (w : nat) (rows : list (list A)) :
  has_width w rows -> length (concat rows) = (length rows * w)%nat.
Proof.
  unfold has_width. induction 1 as [|r rows Hr H IH]; simpl; [reflexivity|].
  rewrite length_app, IH, Hr. reflexivity.
Qed.

Lemma local_ranking_loss_value
  (group : nat) (cands : list (list (list R))) (anchors : list (list R)) :
  (1 <= group)%nat ->
  length cands = length anchors -> has_width group cands ->
  local_ranking_loss (concat cands) (concat (map (fun a => repeat a group) anchors))
                     (length anchors) group
  = Ok (mean_list (map anchor_loss (map2 candidate_distances cands anchors))).
Proof.
  intros Hg Hlen Hw. unfold local_ranking_loss.
  assert (HA : has_width group (map (fun a : list R => repeat a group) anchors)).
  { apply Forall_forall. intros r Hr. apply in_map_iff in Hr as (a & <- & _).
    apply repeat_length. }
  rewrite (length_concat_width _ group cands Hw).
  rewrite (length_concat_width _ group _ HA), length_map, Hlen, Nat.eqb_refl.
  cbn [negb].
  rewrite (distances_by_anchor group) by (assumption || congruence).
  set (D := map2 candidate_distances cands anchors).
  assert (HD : has_width group D).
  { unfold D. clear - Hw Hlen. revert anchors Hlen.
    induction Hw as [|cs cands Hc H IH]; intros [|a anchors] Hlen; simpl in *;
      try discriminate; constructor.
    - unfold candidate_distances. rewrite length_map. exact Hc.
    - apply IH. lia. }
  assert (LD : length D = length anchors).
  { unfold D. rewrite length_map2, Hlen. apply Nat.min_id. }
  unfold view_shape.
  rewrite (length_concat_width _ group D HD), LD, Nat.eqb_refl. cbn [negb bind].
  rewrite <- LD, chunk_concat by exact HD.
  apply (softmax_margin_value D group); assumption.
Qed.

(** ** The ranking loss on a batch *)

Lemma select_from_Ok (instance_idx : list Z) (range : list nat) (select_idx : list Z) :
  select_from instance_idx range = Ok select_idx ->
  select_idx = map Z.of_nat (filter (fun i => (nth i instance_idx 0 =? 1)%Z) range).
Proof.
  revert select_idx. induction range as [|i range IH]; intros select_idx H; simpl in H.
  - injection H as <-. reflexivity.
  - inv_bind H. rename a into flag. inv_bind H. injection H as <-.
    unfold row in Ha. destruct (nth_error instance_idx i) as [f|] eqn:E; [|discriminate].
    injection Ha as <-.
    simpl. rewrite (nth_error_nth _ _ 0%Z E).
    rewrite (IH a Ha0). destruct (f =? 1)%Z; reflexivity.
Qed.

Lemma index_select_of_nat_Ok (A : Type) (d : A) (t : list A) (p : list nat) (r : list A) :
  index_select t (map Z.of_nat p) = Ok r ->
  Forall (fun k => (k < length t)%nat) p /\ r = gather d t p.
Proof.
  unfold index_select. revert r. induction p as [|k p IH]; intros r H; simpl in H.
  - injection H as <-. split; constructor.
  - inv_bind H as x Hx. inv_bind H as r' Hr'. injection H as <-.
    destruct (IH r' Hr') as [Hp ->].
    inv_bind Hx as k' Ha1. rename Hx into Ha.
    assert (Hk : (k < length t)%nat /\ k' = k).
    { unfold py_index in Ha1.
      destruct (Z.leb_spec 0 (Z.of_nat k)); [|lia].
      destruct (Z.ltb_spec (Z.of_nat k) (Z.of_nat (length t))); simpl in Ha1.
      - injection Ha1 as <-. rewrite Nat2Z.id. split; [lia | reflexivity].
      - destruct (Z.ltb_spec (Z.of_nat k) 0); [lia|].
        rewrite andb_false_r in Ha1. discriminate. }
    destruct Hk as [Hk ->].
    rewrite (nth_error_nth' t d Hk) in Ha. injection Ha as <-.
    split; [constructor; assumption | reflexivity].
Qed.

Lemma rows_of_concat (A : Type) (w : nat) (rows : list (list A)) (fuel : nat) :
  (1 <= w)%nat -> has_width w rows -> (length rows <= fuel)%nat ->
  rows_of fuel w (concat rows) = rows.
Proof.
  intros Hw H. revert fuel. unfold has_width in H.
  induction H as [|r rows Hr H IH]; intros fuel Hf; simpl in *.
  - destruct fuel; reflexivity.
  - destruct fuel as [|fuel]; [lia|]. simpl.
    destruct (r ++ concat rows) as [|a l] eqn:E.
    + apply (f_equal (@length A)) in E. rewrite length_app, Hr in E. simpl in E. lia.
    + rewrite <- E. rewrite firstn_app, Hr, Nat.sub_diag, firstn_all2 by lia.
      simpl. rewrite app_nil_r. f_equal.
      rewrite skipn_app, Hr, Nat.sub_diag, skipn_all2 by lia. simpl.
      apply IH. lia.
Qed.

Lemma view_rows_concat (A : Type) (w : nat) (rows : list (list A)) :
  (1 <= w)%nat -> has_width w rows -> view_rows w (concat rows) = Ok rows.
Proof.
  intros Hw H. unfold view_rows.
  rewrite (length_concat_width _ w rows H).
  destruct (Nat.eqb_spec w 0) as [E|E]; [lia|]. cbn [orb].
  rewrite Nat.Div0.mod_mul, Nat.eqb_refl. cbn [negb].
  rewrite rows_of_concat; [reflexivity | exact Hw | exact H | nia].
Qed.

Lemma has_width_concat (A : Type) (w : nat) (t : list (list (list A))) :
  Forall (has_width w) t -> has_width w (concat t).
Proof.
  unfold has_width. induction 1 as [|r t Hr H IH]; simpl; [constructor|].
  apply Forall_app. split; assumption.
Qed.

Lemma length_concat_same_shape (A B : Type) (t : list (list A)) (u : list (list B)) :
  same_shape t u -> length (concat t) = length (concat u).
Proof.
  induction 1 as [|r s t u Hrs H IH]; simpl; [reflexivity|].
  rewrite !length_app, IH, Hrs. reflexivity.
Qed.

Lemma combine_concat (A B : Type) (t : list (list A)) (u : list (list B)) :
  same_shape t u ->
  combine (concat t) (concat u)
  = concat (map (fun c => combine (fst c) (snd c)) (combine t u)).
Proof.
  induction 1 as [|r s t u Hrs H IH]; simpl; [reflexivity|].
  rewrite <- IH. clear IH H. revert s Hrs.
  induction r as [|a r IHr]; intros [|b s] Hrs; simpl in *; try discriminate;
    [reflexivity|].
  rewrite IHr by lia. reflexivity.
Qed.

Lemma mapM_app (A B : Type) (f : A -> result B) (l m : list A) (r : list B) :
  mapM f (l ++ m) = Ok r ->
  exists r1 r2, mapM f l = Ok r1 /\ mapM f m = Ok r2 /\ r = r1 ++ r2.
Proof.
  revert r. induction l as [|a l IH]; intros r H; simpl in *.
  - exists [], r. auto.
  - inv_bind H as b Hb. inv_bind H as r' Hr'. injection H as <-.
    destruct (IH r' Hr') as (r1 & r2 & E1 & E2 & ->).
    rewrite Hb, E1. simpl. eauto.
Qed.

Lemma mapM_concat (A B : Type) (f : A -> result B) (t : list (list A)) (r : list B) :
  mapM f (concat t) = Ok r ->
  exists rs, mapM (mapM f) t = Ok rs /\ r = concat rs.
Proof.
  revert r. induction t as [|l t IH]; intros r H; simpl in *.
  - injection H as <-. exists []. auto.
  - apply mapM_app in H as (r1 & r2 & E1 & E2 & ->).
    destruct (IH r2 E2) as (rs & Ers & ->).
    rewrite E1, Ers. simpl. exists (r1 :: rs). auto.
Qed.

Lemma mapM_map (A B C : Type) (f : B -> result C) (g : A -> B) (l : list A) :
  mapM f (map g l) = mapM (fun a => f (g a)) l.
Proof.
  induction l as [|a l IH]; simpl; [reflexivity | rewrite IH; reflexivity].
Qed.

Lemma mapM_then_map (A B C : Type) (f : A -> result B) (g : B -> C) (l : list A) (r : list B) :
  mapM f l = Ok r -> mapM (fun a => b <- f a ;; Ok (g b)) l = Ok (map g r).
Proof.
  revert r. induction l as [|a l IH]; intros r H; simpl in *.
  - injection H as <-. reflexivity.
  - inv_bind H as b Hb. inv_bind H as r' Hr'. injection H as <-.
    rewrite Hb. simpl. rewrite (IH r' Hr'). reflexivity.
Qed.

Lemma reparameterize_mean (self : EVAE) (H eps : list (list R)) :
  reparameterize self H eps
  = (map (hidden2mean self) H, map (hidden2logv self) H, snd (reparameterize self H eps)).
Proof. reflexivity. Qed.

(** Encoding the batch sorted by length and un-sorting the means gives the
    means of the examples in the order of the batch. *)
Lemma encoder_sorted_means (self : EVAE) (X : list (list Z)) (L : list Z)
  (H' : list (list R)) :
  length X = length L ->
  encoder self (gather [] X (sort_perm L true)) (gather 0%Z L (sort_perm L true)) = Ok H' ->
  exists H,
    mapM (encode_example self) (combine X L) = Ok H /\
    index_select (map (hidden2mean self) H')
                 (snd (torch_sort (map Z.of_nat (sort_perm L true)) false))
    = Ok (map (hidden2mean self) H).
Proof.
  intros HX Henc.
  set (p := sort_perm L true) in *.
  assert (Pp : Permutation p (seq 0 (length L))) by apply sort_perm_perm.
  assert (Lp : Forall (fun k => (k < length L)%nat) p) by apply sort_perm_lt.
  apply encoder_rows in Henc.
  rewrite (gather_combine _ _ [] 0%Z) in Henc by congruence.
  assert (Lc : length (combine X L) = length L)
    by (rewrite length_combine, HX; apply Nat.min_id).
  apply (mapM_gather _ _ _ _ []) in Henc; [|rewrite Lc; exact Pp].
  destruct Henc as (H & HH & ->).
  exists H. split; [exact HH|].
  assert (LH : length H = length L)
    by (rewrite (mapM_length _ _ _ _ _ HH); exact Lc).
  assert (E : map (hidden2mean self) (gather [] H p)
              = gather [] (map (hidden2mean self) H) p).
  { rewrite <- gather_map. apply gather_indep. rewrite length_map, LH. exact Lp. }
  rewrite E. apply index_select_unsort. rewrite length_map, LH. exact Pp.
Qed.

Lemma encode_candidates_means (self : EVAE) (cs : list (list (list Z) * list Z))
  (nested : list (list (list R))) :
  mapM (mapM (encode_example self)) (map (fun c => combine (fst c) (snd c)) cs) = Ok nested ->
  mapM (encode_candidates self) cs = Ok (map (map (hidden2mean self)) nested).
Proof.
  rewrite mapM_map. revert nested.
  induction cs as [|c cs IH]; intros nested H; simpl in *.
  - injection H as <-. reflexivity.
  - inv_bind H as hs Hhs. inv_bind H as rest Hrest. injection H as <-.
    unfold encode_candidates at 1. unfold encode_mean.
    rewrite (mapM_then_map _ _ _ _ _ _ _ Hhs). simpl.
    rewrite (IH rest Hrest). reflexivity.
Qed.

Lemma concat_map_concat (A B : Type) (f : A -> list (list B)) (l : list A) :
  concat (map (fun a => concat (f a)) l) = concat (concat (map f l)).
Proof.
  induction l as [|a l IH]; simpl; [reflexivity|].
  rewrite concat_app, IH. reflexivity.
Qed.

(** Steps 4 to 6 on the means in the order of the batch. *)
Lemma ranking_tail_value
  (self : EVAE) (g : nat) (CXs : list (list (list Z))) (CLs : list (list Z))
  (H1 H2 : list (list R)) :
  (1 <= g)%nat -> (1 <= latent_size self)%nat ->
  (forall h, length (hidden2mean self h) = latent_size self) ->
  same_shape CXs CLs -> has_width g CLs -> CLs <> [] ->
  length H1 = length CLs ->
  mapM (encode_example self) (combine (concat CXs) (concat CLs)) = Ok H2 ->
  exists cands,
    mapM (encode_candidates self) (combine CXs CLs) = Ok cands /\
    (mean_drug_exp <-
       view_rows (latent_size self)
         (concat (map (fun m : list R => concat (repeat m (length (hd [] CLs))))
                      (map (hidden2mean self) H1))) ;;
     local_ranking_loss (map (hidden2mean self) H2) mean_drug_exp
                        (length CLs) (length (hd [] CLs)))
    = Ok (mean_list (map anchor_loss
                       (map2 candidate_distances cands (map (hidden2mean self) H1)))).
Proof.
  intros Hg Hlat Hmean Hsh HCLs Hne LH1 HH2.
  set (anchors := map (hidden2mean self) H1) in *.
  assert (HG : length (hd [] CLs) = g).
  { destruct CLs as [|c CLs0]; [contradiction|].
    apply Forall_cons_iff in HCLs as [HC _]. exact HC. }
  rewrite HG.
  rewrite (concat_map_concat _ _ (fun m : list R => repeat m g)).
  rewrite (view_rows_concat _ (latent_size self)); [|exact Hlat|].
  2:{ apply has_width_concat. apply Forall_forall. intros r Hr.
      apply in_map_iff in Hr as (m & <- & Hm).
      apply Forall_forall. intros x Hx. apply repeat_spec in Hx. subst x.
      unfold anchors in Hm. apply in_map_iff in Hm as (h & <- & _). apply Hmean. }
  cbn [bind].
  rewrite (combine_concat _ _ _ _ Hsh) in HH2.
  apply mapM_concat in HH2 as (nested & Hnested & ->).
  rewrite concat_map.
  set (cands := map (map (hidden2mean self)) nested) in *.
  assert (LA : length anchors = length CLs).
  { unfold anchors. rewrite length_map. exact LH1. }
  assert (LC : length cands = length anchors).
  { unfold cands. rewrite length_map, (mapM_length _ _ _ _ _ Hnested), length_map,
      length_combine, LA, (Forall2_length Hsh). apply Nat.min_id. }
  assert (WC : has_width g cands).
  { unfold cands, has_width. apply Forall_map.
    apply mapM_Ok_Forall2 in Hnested.
    clear - Hnested Hsh HCLs. unfold has_width, same_shape in *.
    revert nested Hnested.
    induction Hsh as [|cx cl CXs0 CLs0 Hc Hsh IH]; intros nested Hn; simpl in Hn.
    - inversion Hn. constructor.
    - inversion Hn as [|? r ? rest Hr Hrest]; subst.
      apply Forall_cons_iff in HCLs as [Hcl HCLs].
      constructor; [|apply IH; assumption].
      rewrite length_map, (mapM_length _ _ _ _ _ Hr). simpl.
      rewrite length_combine, Hc, Hcl. apply Nat.min_id. }
  exists cands. split.
  - apply encode_candidates_means. exact Hnested.
  - rewrite <- LA. apply local_ranking_loss_value; assumption.
Qed.

Lemma same_shape_gather (A B : Type) (t : list (list A)) (u : list (list B)) (p : list nat) :
  same_shape t u -> Forall (fun k => (k < length t)%nat) p ->
  same_shape (gather [] t p) (gather [] u p).
Proof. intros H Hp. unfold same_shape. apply Forall2_gather; assumption. Qed.

(** The ranking loss of a batch with flagged examples: every flagged
    example is an anchor with its group of [g] candidates; the loss is the
    mean over the anchors of the softmax margin of the distances from the
    candidate means to the anchor mean. *)
Lemma ranking_loss_value
  (self : EVAE) (batch : Batch) (eps_drug eps_local : list (list R))
  (g : nat) (loss : R) :
  let sel := selected batch in
  let Xs := gather [] (drug_inputs batch) sel in
  let Ls := gather 0%Z (drug_len batch) sel in
  let CXs := gather [] (loc_ranking_inputs batch) sel in
  let CLs := gather [] (loc_ranking_len batch) sel in
  sel <> [] -> (1 <= g)%nat ->
  (1 <= max_sequence_length self - 1)%nat ->
  Forall (has_width (max_sequence_length self - 1)) (loc_ranking_inputs batch) ->
  has_width g (loc_ranking_len batch) ->
  same_shape (loc_ranking_inputs batch) (loc_ranking_len batch) ->
  (1 <= latent_size self)%nat ->
  (forall h, length (hidden2mean self h) = latent_size self) ->
  ranking_loss self batch eps_drug eps_local = Ok loss ->
  exists anchors cands,
    mapM (encode_mean self) (combine Xs Ls) = Ok anchors /\
    mapM (encode_candidates self) (combine CXs CLs) = Ok cands /\
    loss = mean_list (map anchor_loss (map2 candidate_distances cands anchors)).
Proof.
  intros sel Xs Ls CXs CLs Hne Hg Hw HCX HCL Hshape Hlat Hmean H.
  unfold ranking_loss in H.
  inv_bind H as select_idx Hsel. apply select_from_Ok in Hsel.
  fold (selected batch) in Hsel. fold sel in Hsel. subst select_idx.
  rewrite length_map in H.
  destruct (Nat.eqb_spec (length sel) 0) as [E|E];
    [destruct sel; [contradiction | discriminate]|].
  inv_bind H as Xs' HXs.
  apply (index_select_of_nat_Ok _ []) in HXs as [SX ->]. fold Xs in H.
  inv_bind H as Ls' HLs.
  apply (index_select_of_nat_Ok _ 0%Z) in HLs as [SL ->]. fold Ls in H.
  rewrite torch_sort_eq in H.
  assert (LXs : length Xs = length Ls)
    by (unfold Xs, Ls; rewrite !length_gather; reflexivity).
  rewrite (index_select_gather _ []) in H by (rewrite LXs; apply sort_perm_lt).
  cbn [bind] in H.
  inv_bind H as H1' Henc1.
  rewrite reparameterize_mean in H.
  destruct (encoder_sorted_means self Xs Ls H1' LXs Henc1) as (H1 & HH1 & Hun1).
  inv_bind H as CLs' HCLs.
  apply (index_select_of_nat_Ok _ []) in HCLs as [SCL ->]. fold CLs in H.
  inv_bind H as CXs' HCXs.
  apply (index_select_of_nat_Ok _ []) in HCXs as [SCX ->]. fold CXs in H.
  set (w := (max_sequence_length self - 1)%nat) in *.
  assert (HCXs : Forall (has_width w) CXs) by (apply Forall_gather; assumption).
  assert (HCLs : has_width g CLs) by (apply Forall_gather; assumption).
  assert (Hsh : same_shape CXs CLs) by (apply same_shape_gather; assumption).
  rewrite (view_rows_concat _ w (concat CXs)) in H
    by (assumption || apply has_width_concat; assumption).
  cbn [bind] in H.
  destruct (length (concat CLs) =? 1)%nat; [discriminate|].
  rewrite torch_sort_eq in H.
  assert (LF : length (concat CXs) = length (concat CLs))
    by (apply length_concat_same_shape; exact Hsh).
  rewrite (index_select_gather _ []) in H by (rewrite LF; apply sort_perm_lt).
  cbn [bind] in H.
  inv_bind H as H2' Henc2.
  rewrite reparameterize_mean in H.
  destruct (encoder_sorted_means self _ _ H2' LF Henc2) as (H2 & HH2 & Hun2).
  rewrite Hun2 in H. cbn [bind] in H. rewrite Hun1 in H. cbn [bind] in H.
  assert (LS : length sel = length CLs) by (unfold CLs; rewrite length_gather; reflexivity).
  assert (LH1 : length H1 = length CLs).
  { rewrite (mapM_length _ _ _ _ _ HH1), length_combine, LXs, Nat.min_id.
    unfold Ls, CLs. rewrite !length_gather. reflexivity. }
  assert (NE : CLs <> []).
  { intros EC. apply (f_equal (@length (list Z))) in EC. simpl in EC. lia. }
  destruct (ranking_tail_value self g CXs CLs H1 H2 Hg Hlat Hmean Hsh HCLs NE LH1 HH2)
    as (cands & Hc & Hv).
  rewrite LS, Hv in H. injection H as <-.
  exists (map (hidden2mean self) H1), cands. split; [|split].
  - unfold encode_mean. apply mapM_then_map. exact HH1.
  - exact Hc.
  - reflexivity.
Qed.

Lemma select_from_returns (instance_idx : list Z) (range : list nat) :
  Forall (fun i => (i < length instance_idx)%nat) range ->
  select_from instance_idx range
  = Ok (map Z.of_nat (filter (fun i => (nth i instance_idx 0 =? 1)%Z) range)).
Proof.
  induction 1 as [|i range Hi H IH]; simpl; [reflexivity|].
  rewrite (row_nth _ 0%Z) by exact Hi. cbn [bind]. rewrite IH. cbn [bind].
  destruct (nth i instance_idx 0 =? 1)%Z; reflexivity.
Qed.

Lemma selected_lt (batch : Batch) :
  Forall (fun i => (i < length (drug_name batch))%nat) (selected batch).
Proof.
  apply Forall_forall. intros i Hi. unfold selected in Hi.
  apply filter_In in Hi as [Hi _]. apply in_seq in Hi. lia.
Qed.

Lemma valid_batch_gather (self : EVAE) (T : nat) (X : list (list Z)) (L : list Z)
  (p : list nat) :
  valid_batch self T X L -> Forall (fun k => (k < length L)%nat) p ->
  valid_batch self T (gather [] X p) (gather 0%Z L p).
Proof.
  intros (Hlen & Hw & Hv & Hl) Lp.
  repeat split.
  - rewrite !length_gather. reflexivity.
  - apply Forall_gather; [exact Hw | rewrite Hlen; exact Lp].
  - apply Forall_gather; [exact Hv | rewrite Hlen; exact Lp].
  - apply Forall_gather; [exact Hl | exact Lp].
Qed.

Lemma valid_batch_concat (self : EVAE) (w : nat)
  (CX : list (list (list Z))) (CL : list (list Z)) :
  Forall2 (valid_batch self w) CX CL -> valid_batch self w (concat CX) (concat CL).
Proof.
  induction 1 as [|cx cl CX CL (H1 & H2 & H3 & H4) H (I1 & I2 & I3 & I4)]; simpl.
  - repeat split; constructor.
  - repeat split.
    + rewrite !length_app. congruence.
    + apply Forall_app. split; assumption.
    + apply Forall_app. split; assumption.
    + apply Forall_app. split; assumption.
Qed.

Lemma valid_groups_same_shape (self : EVAE) (w : nat)
  (CX : list (list (list Z))) (CL : list (list Z)) :
  Forall2 (valid_batch self w) CX CL -> same_shape CX CL.
Proof.
  unfold same_shape. intros H. eapply Forall2_impl; [|exact H].
  intros cx cl (E & _). exact E.
Qed.

(** On a rankable batch with a flagged example the ranking loss has a
    value, unless there is a single candidate in all (one anchor, no
    negative). *)
Lemma ranking_loss_returns
  (self : EVAE) (T g : nat) (batch : Batch) (eps_drug eps_local : list (list R)) :
  rankable self T g batch ->
  selected batch <> [] -> (1 <= g)%nat -> (2 <= length (selected batch) * g)%nat ->
  (1 <= max_sequence_length self - 1)%nat ->
  (1 <= vocab_size self)%nat ->
  (1 <= latent_size self)%nat ->
  (forall h, length (hidden2mean self h) = latent_size self) ->
  exists loss, ranking_loss self batch eps_drug eps_local = Ok loss.
Proof.
  intros (LI & LL & LCL & HvX & HvC & HCL) Hne Hg Hsg Hw HV Hlat Hmean.
  set (B := length (drug_name batch)) in *.
  set (sel := selected batch) in *.
  pose proof (selected_lt batch) as Hsel. fold sel in Hsel. fold B in Hsel.
  assert (LX : length (drug_inputs batch) = B) by (destruct HvX as [E _]; congruence).
  assert (LCX : length (loc_ranking_inputs batch) = B)
    by (rewrite (Forall2_length HvC); exact LCL).
  unfold ranking_loss.
  rewrite select_from_returns by (rewrite LI; apply Forall_forall; intros i Hi;
                                  apply in_seq in Hi; unfold B; lia).
  cbn [bind]. fold (selected batch). fold sel. rewrite length_map.
  destruct (Nat.eqb_spec (length sel) 0) as [E|E];
    [destruct sel; [contradiction | discriminate]|].
  rewrite (index_select_gather _ []) by (rewrite LX; exact Hsel). cbn [bind].
  rewrite (index_select_gather _ 0%Z) by (rewrite LL; exact Hsel). cbn [bind].
  set (Xs := gather [] (drug_inputs batch) sel).
  set (Ls := gather 0%Z (drug_len batch) sel).
  rewrite torch_sort_eq.
  assert (HvXs : valid_batch self T Xs Ls)
    by (apply valid_batch_gather; [exact HvX | rewrite LL; exact Hsel]).
  assert (LXs : length Xs = length Ls) by (destruct HvXs as [E' _]; exact E').
  assert (Lp1 : Forall (fun k => (k < length Xs)%nat) (sort_perm Ls true))
    by (rewrite LXs; apply sort_perm_lt).
  rewrite (index_select_gather _ [] Xs _ Lp1).
  cbn [bind].
  destruct (encoder_returns self T _ _ (valid_batch_sorted self T _ _ HvXs)) as [H1' Henc1].
  { rewrite <- fst_torch_sort. apply sorted_desc_torch_sort. }
  { apply gather_sort_nonempty. intros EL. apply (f_equal (@length Z)) in EL.
    unfold Ls in EL. rewrite length_gather in EL. simpl in EL. lia. }
  { exact HV. }
  rewrite Henc1. cbn [bind]. rewrite reparameterize_mean.
  destruct (encoder_sorted_means self Xs Ls H1' LXs Henc1) as (H1 & HH1 & Hun1).
  rewrite (index_select_gather _ []) by (rewrite LCL; exact Hsel). cbn [bind].
  rewrite (index_select_gather _ []) by (rewrite LCX; exact Hsel). cbn [bind].
  set (CXs := gather [] (loc_ranking_inputs batch) sel).
  set (CLs := gather [] (loc_ranking_len batch) sel).
  set (w := (max_sequence_length self - 1)%nat) in *.
  assert (HvCs : Forall2 (valid_batch self w) CXs CLs).
  { unfold CXs, CLs. apply Forall2_gather; [exact HvC | rewrite LCX; exact Hsel]. }
  assert (HCLs : has_width g CLs)
    by (apply Forall_gather; [exact HCL | rewrite LCL; exact Hsel]).
  pose proof (valid_batch_concat self w _ _ HvCs) as HvF.
  destruct HvF as (LF & WF & VF & LnF).
  rewrite (view_rows_concat _ w (concat CXs)) by assumption.
  cbn [bind].
  assert (LS : length sel = length CLs)
    by (unfold CLs; rewrite length_gather; reflexivity).
  assert (LCc : length (concat CLs) = (length sel * g)%nat).
  { rewrite (length_concat_width _ g CLs HCLs), LS. reflexivity. }
  destruct (Nat.eqb_spec (length (concat CLs)) 1) as [E1|E1]; [lia|].
  rewrite torch_sort_eq.
  assert (Lp2 : Forall (fun k => (k < length (concat CXs))%nat)
                  (sort_perm (concat CLs) true))
    by (rewrite LF; apply sort_perm_lt).
  rewrite (index_select_gather _ [] (concat CXs) _ Lp2).
  cbn [bind].
  assert (HvF : valid_batch self w (concat CXs) (concat CLs)) by (repeat split; assumption).
  destruct (encoder_returns self w _ _ (valid_batch_sorted self w _ _ HvF)) as [H2' Henc2].
  { rewrite <- fst_torch_sort. apply sorted_desc_torch_sort. }
  { apply gather_sort_nonempty. intros EL. apply (f_equal (@length Z)) in EL.
    rewrite LCc in EL. simpl in EL. lia. }
  { exact HV. }
  rewrite Henc2. cbn [bind]. rewrite reparameterize_mean.
  destruct (encoder_sorted_means self _ _ H2' LF Henc2) as (H2 & HH2 & Hun2).
  rewrite Hun2. cbn [bind]. rewrite Hun1. cbn [bind].
  assert (LH1 : length H1 = length CLs).
  { rewrite (mapM_length _ _ _ _ _ HH1), length_combine, LXs, Nat.min_id.
    unfold Ls, CLs. rewrite !length_gather. reflexivity. }
  assert (NE : CLs <> []).
  { intros EC. apply (f_equal (@length (list Z))) in EC. simpl in EC. lia. }
  destruct (ranking_tail_value self g CXs CLs H1 H2 Hg Hlat Hmean
              (valid_groups_same_shape self w _ _ HvCs) HCLs NE LH1 HH2)
    as (cands & Hc & Hv).
  rewrite LS, Hv. eauto.
Qed.

(** Without a flagged example the ranking loss is zero. *)
Lemma ranking_loss_none_selected
  (self : EVAE) (batch : Batch) (eps_drug eps_local : list (list R)) :
  length (loc_ranking_indicator batch) = length (drug_name batch) ->
  selected batch = [] ->
  ranking_loss self batch eps_drug eps_local = Ok 0%R.
Proof.
  intros LI Hs. unfold ranking_loss.
  rewrite select_from_returns
    by (rewrite LI; apply Forall_forall; intros i Hi; apply in_seq in Hi; lia).
  cbn [bind]. fold (selected batch). rewrite Hs. reflexivity.
Qed.

(** C6.  On a rankable batch with at least one flagged example (and not a
    single candidate in all), for a vocabulary that is not empty, the
    ranking loss is the average, over the flagged examples as anchors, of
    the distance from the mean of the positive candidate (index 0) to the
    anchor mean plus the log-sum-exp of the negated distances of all
    [g] = 1 + K candidates; for one anchor and the distances 0, 5, 5 it is
    log(1 + 2 exp(-5)). *)
Theorem ranking_loss_is_mean_softmax_margin
  (self : EVAE) (T g : nat) (batch : Batch) (eps_drug eps_local : list (list R)) :
  let sel := selected batch in
  let Xs := gather [] (drug_inputs batch) sel in
  let Ls := gather 0%Z (drug_len batch) sel in
  let CXs := gather [] (loc_ranking_inputs batch) sel in
  let CLs := gather [] (loc_ranking_len batch) sel in
  rankable self T g batch ->
  sel <> [] -> (2 <= length sel * g)%nat ->
  (1 <= max_sequence_length self - 1)%nat ->
  (1 <= vocab_size self)%nat ->
  (1 <= latent_size self)%nat ->
  (forall h, length (hidden2mean self h) = latent_size self) ->
  (exists anchors cands,
     mapM (encode_mean self) (combine Xs Ls) = Ok anchors /\
     mapM (encode_candidates self) (combine CXs CLs) = Ok cands /\
     ranking_loss self batch eps_drug eps_local
     = Ok (mean_list (map anchor_loss (map2 candidate_distances cands anchors)))) /\
  softmax_margin [[0; 5; 5]%R] 1 = Ok (ln (1 + 2 * exp (-5)))%R.
Proof.
  intros sel Xs Ls CXs CLs Hr Hne Hsg Hw HV Hlat Hmean. split.
  - assert (Hg : (1 <= g)%nat) by nia.
    destruct (ranking_loss_returns self T g batch eps_drug eps_local
                Hr Hne Hg Hsg Hw HV Hlat Hmean) as [loss Hloss].
    destruct Hr as (_ & _ & _ & _ & HvC & HCL).
    destruct (ranking_loss_value self batch eps_drug eps_local g loss
                Hne Hg Hw) as (anchors & cands & Ha & Hc & ->); try assumption.
    + clear - HvC. induction HvC as [|cx cl CX CL (_ & Hwd & _) H IH];
        constructor; assumption.
    + apply (valid_groups_same_shape self _ _ _ HvC).
    + exists anchors, cands. auto.
  - unfold softmax_margin. simpl. f_equal.
    unfold logsumexp. simpl.
    rewrite Ropp_0, exp_0.
    replace (- (5))%R with (-5)%R by lra.
    replace (1 + (exp (-5) + (exp (-5) + 0)))%R with (1 + 2 * exp (-5))%R by lra.
    lra.
Qed.

Lemma ranking_loss_is_mean_softmax_margin_witness :
  let self := small_model (1 / 2) 0 0 0 0 in
  let batch := batch_with_ranking in
  let sel := selected batch in
  (exists anchors cands,
     mapM (encode_mean self)
          (combine (gather [] (drug_inputs batch) sel) (gather 0%Z (drug_len batch) sel))
     = Ok anchors /\
     mapM (encode_candidates self)
          (combine (gather [] (loc_ranking_inputs batch) sel)
                   (gather [] (loc_ranking_len batch) sel))
     = Ok cands /\
     ranking_loss self batch [[5%R]] [[5%R]; [7%R]]
     = Ok (mean_list (map anchor_loss (map2 candidate_distances cands anchors)))) /\
  softmax_margin [[0; 5; 5]%R] 1 = Ok (ln (1 + 2 * exp (-5)))%R.
Proof.
  intros self batch sel.
  apply (ranking_loss_is_mean_softmax_margin self 3 2 batch [[5%R]] [[5%R]; [7%R]]).
  - unfold rankable, valid_batch, has_width. simpl.
    repeat split; repeat (apply Forall_cons || apply Forall_nil
                          || apply Forall2_cons || apply Forall2_nil || split);
      try reflexivity; unfold valid_token; simpl; lia.
  - discriminate.
  - simpl. lia.
  - simpl. lia.
  - simpl. lia.
  - simpl. lia.
  - intros h. reflexivity.
Defined.

(** ** The tokens that the one-hot embedding accepts *)

Lemma mapM_Raise_In (A B : Type) (f : A -> result B) (l : list A) (e : exn) :
  mapM f l = Raise e -> exists a, In a l /\ f a = Raise e.
Proof.
  induction l as [|a l IH]; simpl; intros H; [discriminate|].
  destruct (f a) as [b|e'] eqn:Ea; simpl in H.
  - destruct (mapM f l) as [bs|e'']; simpl in H; [discriminate|].
    destruct (IH H) as (a' & Hin & Ha'). exists a'. auto.
  - injection H as ->. exists a. auto.
Qed.

Lemma one_hot_char_cases (self : EVAE) (tok : Z) :
  let V := Z.of_nat (vocab_size self) in
  (tok = 0%Z /\ one_hot_char self tok = Ok (zeros (vocab_size self))) \/
  (tok <> 0%Z /\ (0 <= tok < V)%Z /\
   one_hot_char self tok = Ok (list_set (Z.to_nat tok) 1%R (zeros (vocab_size self)))) \/
  ((- V <= tok < 0)%Z /\
   one_hot_char self tok
   = Ok (list_set (Z.to_nat (tok + V)) 1%R (zeros (vocab_size self)))) \/
  (~ valid_token self tok /\ one_hot_char self tok = Raise IndexError).
Proof.
  intros V. unfold one_hot_char, py_index, valid_token. fold V.
  destruct (Z.eqb_spec tok 0) as [E|E]; [left; auto|right].
  destruct (Z.leb_spec 0 tok) as [H0|H0];
    destruct (Z.ltb_spec tok V) as [H1|H1]; simpl.
  - left. auto.
  - right. right.
    destruct (Z.leb_spec (- V) tok); destruct (Z.ltb_spec tok 0); simpl;
      split; try reflexivity; lia.
  - right.
    destruct (Z.leb_spec (- V) tok); destruct (Z.ltb_spec tok 0); simpl;
      try lia; [left|right]; split; try reflexivity; lia.
  - lia.
Qed.

Lemma one_hot_char_Ok_valid (self : EVAE) (tok : Z) (v : list R) :
  one_hot_char self tok = Ok v -> valid_token self tok.
Proof.
  intros H. unfold valid_token.
  destruct (one_hot_char_cases self tok) as [[E _]|[(_ & E & _)|[[E _]|[_ E]]]];
    try lia. congruence.
Qed.

Lemma one_hot_char_Raise (self : EVAE) (tok : Z) (e : exn) :
  one_hot_char self tok = Raise e -> e = IndexError.
Proof.
  intros H.
  destruct (one_hot_char_cases self tok) as [[_ E]|[(_ & _ & E)|[[_ E]|[_ E]]]];
    congruence.
Qed.

Lemma one_hot_embedding_returns (self : EVAE) (X : list (list Z)) :
  Forall (Forall (valid_token self)) X -> exists OH, one_hot_embedding self X = Ok OH.
Proof.
  intros H. rewrite one_hot_embedding_rows. apply mapM_returns.
  eapply Forall_impl; [|exact H]. intros x Hx. apply mapM_returns.
  eapply Forall_impl; [|exact Hx]. intros t. apply one_hot_char_valid.
Qed.

(** X1 ([one_hot_embedding]): the embedding returns exactly on the tensors
    all of whose tokens are the constant 0 or index the vocabulary from
    either end, and the only exception it raises is [IndexError]. *)
Theorem one_hot_embedding_accepts_valid_tokens (self : EVAE) (X : list (list Z)) :
  ((exists OH, one_hot_embedding self X = Ok OH)
   <-> Forall (Forall (valid_token self)) X) /\
  (forall e, one_hot_embedding self X = Raise e -> e = IndexError).
Proof.
  split; [split|].
  - rewrite one_hot_embedding_rows.
    intros [OH H]. apply mapM_Ok_Forall2 in H.
    induction H as [|x oh X OH Hx _ IH]; constructor; [|exact IH].
    apply mapM_Ok_Forall2 in Hx. clear IH.
    induction Hx as [|t v x oh Ht _ IH]; constructor; [|exact IH].
    eapply one_hot_char_Ok_valid. exact Ht.
  - apply one_hot_embedding_returns.
  - rewrite one_hot_embedding_rows. intros e H. apply mapM_Raise_In in H as (x & _ & H).
    apply mapM_Raise_In in H as (t & _ & H).
    eapply one_hot_char_Raise. exact H.
Qed.

(** ** The embedded vectors are one-hot *)

Lemma sum_list_zeros (n : nat) : sum_list (zeros n) = 0%R.
Proof.
  induction n as [|n IH]; simpl; [reflexivity|].
  unfold sum_list, zeros in *. simpl. rewrite IH. lra.
Qed.

Lemma sum_list_set_zeros (n k : nat) :
  (k < n)%nat -> sum_list (list_set k 1%R (zeros n)) = 1%R.
Proof.
  revert k. induction n as [|n IH]; intros k Hk; [lia|].
  destruct k as [|k]; unfold zeros; simpl.
  - fold (zeros n). unfold sum_list. simpl. fold (sum_list (zeros n)).
    rewrite sum_list_zeros. lra.
  - fold (zeros n). unfold sum_list. simpl.
    fold (sum_list (list_set k 1%R (zeros n))). rewrite IH by lia. lra.
Qed.

Lemma Forall_list_set (A : Type) (P : A -> Prop) (i : nat) (v : A) (l : list A) :
  P v -> Forall P l -> Forall P (list_set i v l).
Proof.
  intros Hv H. revert i. induction H as [|a l Ha Hl IH]; intros [|i]; simpl;
    constructor; auto.
Qed.

Lemma Forall_zeros (P : R -> Prop) (n : nat) : P 0%R -> Forall P (zeros n).
Proof.
  intros H. unfold zeros. induction n; simpl; constructor; auto.
Qed.

(** The vector of one token. *)
Lemma one_hot_char_one_hot (self : EVAE) (tok : Z) (v : list R) :
  one_hot_char self tok = Ok v ->
  length v = vocab_size self /\
  Forall (fun x => x = 0%R \/ x = 1%R) v /\
  sum_list v = (if (tok =? 0)%Z then 0 else 1)%R.
Proof.
  intros H.
  assert (Z01 : Forall (fun x => x = 0%R \/ x = 1%R) (zeros (vocab_size self)))
    by (apply Forall_zeros; auto).
  destruct (one_hot_char_cases self tok) as [[E H']|[(E & B & H')|[[B H']|[_ H']]]];
    rewrite H' in H; try discriminate; injection H as <-.
  - subst tok. simpl. rewrite length_zeros, sum_list_zeros. auto.
  - rewrite length_list_set, length_zeros.
    destruct (Z.eqb_spec tok 0); [contradiction|].
    rewrite sum_list_set_zeros by lia.
    split; [reflexivity|]. split; [|reflexivity].
    apply Forall_list_set; auto.
  - rewrite length_list_set, length_zeros.
    destruct (Z.eqb_spec tok 0); [lia|].
    rewrite sum_list_set_zeros by lia.
    split; [reflexivity|]. split; [|reflexivity].
    apply Forall_list_set; auto.
Qed.

(** X2 ([one_hot_embedding]): the result has the shape of the input with
    one more axis of size [vocab_size]; every vector has entries 0 or 1
    only, and they sum to 0 for the token 0 and to 1 for every other
    token. *)
Theorem one_hot_embedding_vectors
  (self : EVAE) (X : list (list Z)) (OH : list (list (list R))) :
  one_hot_embedding self X = Ok OH ->
  Forall2 (Forall2 (fun tok v =>
             length v = vocab_size self /\
             Forall (fun x => x = 0%R \/ x = 1%R) v /\
             sum_list v = (if (tok =? 0)%Z then 0 else 1)%R)) X OH.
Proof.
  rewrite one_hot_embedding_rows. intros H. apply mapM_Ok_Forall2 in H.
  induction H as [|x oh X OH Hx _ IH]; constructor; [|exact IH].
  apply mapM_Ok_Forall2 in Hx. clear IH.
  induction Hx as [|t v x oh Ht _ IH]; constructor; [|exact IH].
  apply one_hot_char_one_hot. exact Ht.
Qed.

Lemma one_hot_embedding_vectors_witness :
  one_hot_embedding (small_model 0.5 0 0 0 0) [[2; 3; 0]%Z]
  = Ok [[[0; 0; 1; 0]; [0; 0; 0; 1]; [0; 0; 0; 0]]%R] /\
  Forall2 (Forall2 (fun tok v =>
             length v = 4%nat /\
             Forall (fun x => x = 0%R \/ x = 1%R) v /\
             sum_list v = (if (tok =? 0)%Z then 0 else 1)%R))
          [[2; 3; 0]%Z] [[[0; 0; 1; 0]; [0; 0; 0; 1]; [0; 0; 0; 0]]%R].
Proof.
  split; [reflexivity|].
  apply (one_hot_embedding_vectors (small_model 0.5 0 0 0 0) [[2; 3; 0]%Z]).
  reflexivity.
Defined.

(** ** Negative tokens *)

Lemma mapM_map_ext (A B : Type) (f : A -> result B) (g : A -> A) (l : list A) :
  Forall (fun a => f (g a) = f a) l -> mapM f (map g l) = mapM f l.
Proof.
  induction 1 as [|a l Ha _ IH]; simpl; [reflexivity|]. rewrite Ha, IH. reflexivity.
Qed.

Lemma one_hot_char_mod (self : EVAE) (tok : Z) :
  let V := Z.of_nat (vocab_size self) in
  (- V < tok < V)%Z -> one_hot_char self (tok mod V) = one_hot_char self tok.
Proof.
  intros V H. subst V.
  destruct (Z_lt_le_dec tok 0) as [Hneg|Hpos].
  - assert (E : (tok mod Z.of_nat (vocab_size self)
                 = tok + Z.of_nat (vocab_size self))%Z).
    { symmetry.
      apply (Z.mod_unique tok _ (-1) (tok + Z.of_nat (vocab_size self))); lia. }
    rewrite E.
    destruct (one_hot_char_cases self tok) as [[E0 _]|[(_ & B & _)|[[_ H1]|[N _]]]];
      try lia.
    + destruct (one_hot_char_cases self (tok + Z.of_nat (vocab_size self)))
        as [[E0 _]|[(_ & _ & H2)|[[B _]|[N _]]]]; try lia.
      * congruence.
      * exfalso. apply N. unfold valid_token. lia.
    + exfalso. apply N. unfold valid_token. lia.
  - rewrite Z.mod_small by lia. reflexivity.
Qed.

(** X3 ([one_hot_embedding]): a negative token counts from the end of the
    vocabulary.  On tokens strictly between [- vocab_size] and [vocab_size]
    the embedding depends on the token modulo [vocab_size] only, so the
    token [t - vocab_size] is embedded as the token [t]. *)
Theorem one_hot_embedding_negative_tokens (self : EVAE) (X : list (list Z)) :
  let V := Z.of_nat (vocab_size self) in
  Forall (Forall (fun tok => (- V < tok < V)%Z)) X ->
  one_hot_embedding self (map (map (fun tok => (tok mod V)%Z)) X)
  = one_hot_embedding self X.
Proof.
  intros V H. rewrite !one_hot_embedding_rows.
  apply (mapM_map_ext _ _ (fun batch => mapM (one_hot_char self) batch)).
  eapply Forall_impl; [|exact H]. intros x Hx. simpl.
  apply mapM_map_ext.
  eapply Forall_impl; [|exact Hx]. intros t Ht. apply one_hot_char_mod. exact Ht.
Qed.

Lemma one_hot_embedding_negative_tokens_witness :
  Forall (Forall (fun tok => (- 4 < tok < 4)%Z)) [[-1; 3; -2; 0]%Z] /\
  one_hot_embedding (small_model 0.5 0 0 0 0) [[3; 3; 2; 0]%Z]
  = one_hot_embedding (small_model 0.5 0 0 0 0) [[-1; 3; -2; 0]%Z].
Proof.
  assert (H : Forall (Forall (fun tok => (- 4 < tok < 4)%Z)) [[-1; 3; -2; 0]%Z])
    by (repeat constructor; lia).
  split; [exact H|].
  exact (one_hot_embedding_negative_tokens (small_model 0.5 0 0 0 0) [[-1; 3; -2; 0]%Z] H).
Defined.

(** ** The embedding loses no token of the vocabulary *)

Lemma nth_list_set_zeros (n k j : nat) :
  (k < n)%nat ->
  nth j (list_set k 1%R (zeros n)) 0%R = if (j =? k)%nat then 1%R else 0%R.
Proof.
  revert k j. induction n as [|n IH]; intros k j Hk; [lia|].
  unfold zeros. simpl. fold (zeros n).
  destruct k as [|k], j as [|j]; simpl; try reflexivity.
  - unfold zeros. clear. revert j. induction n; intros [|j]; simpl; auto.
  - apply IH. lia.
Qed.

Lemma one_hot_char_injective (self : EVAE) (a b : Z) (v : list R) :
  let V := Z.of_nat (vocab_size self) in
  (0 <= a < V)%Z -> (0 <= b < V)%Z ->
  one_hot_char self a = Ok v -> one_hot_char self b = Ok v -> a = b.
Proof.
  intros V Ha Hb Ea Eb.
  pose proof (one_hot_char_one_hot self a v Ea) as (_ & _ & Sa).
  pose proof (one_hot_char_one_hot self b v Eb) as (_ & _ & Sb).
  destruct (Z.eqb_spec a 0) as [Za|Za]; destruct (Z.eqb_spec b 0) as [Zb|Zb];
    try congruence; try lra.
  destruct (one_hot_char_cases self a) as [[E _]|[(_ & _ & Ha')|[[B _]|[_ Ha']]]];
    try lia; try congruence.
  destruct (one_hot_char_cases self b) as [[E _]|[(_ & _ & Hb')|[[B _]|[_ Hb']]]];
    try lia; try congruence.
  rewrite Ha' in Ea. rewrite Hb' in Eb. injection Ea as Ea. injection Eb as Eb.
  assert (N : nth (Z.to_nat a) v 0%R = 1%R).
  { rewrite <- Ea, nth_list_set_zeros by lia. rewrite Nat.eqb_refl. reflexivity. }
  rewrite <- Eb, nth_list_set_zeros in N by lia.
  destruct (Nat.eqb_spec (Z.to_nat a) (Z.to_nat b)) as [E|E]; [lia|lra].
Qed.

(** X4 ([one_hot_embedding]): on tokens of the vocabulary, from 0 to
    [vocab_size - 1], the embedding is injective: two tensors with the same
    embedding are the same tensor. *)
Theorem one_hot_embedding_injective
  (self : EVAE) (X Y : list (list Z)) (OH : list (list (list R))) :
  let V := Z.of_nat (vocab_size self) in
  Forall (Forall (fun tok => (0 <= tok < V)%Z)) X ->
  Forall (Forall (fun tok => (0 <= tok < V)%Z)) Y ->
  one_hot_embedding self X = Ok OH -> one_hot_embedding self Y = Ok OH -> X = Y.
Proof.
  intros V HX HY. rewrite !one_hot_embedding_rows. intros EX EY.
  apply mapM_Ok_Forall2 in EX, EY.
  revert Y HY EY. induction EX as [|x oh X OH Hx _ IH]; intros Y HY EY.
  - inversion EY. reflexivity.
  - inversion EY as [|y oh' Y' OH' Hy EY']; subst.
    inversion HX as [|? ? Vx HX']; subst. inversion HY as [|? ? Vy HY']; subst.
    f_equal; [|apply IH; assumption].
    apply mapM_Ok_Forall2 in Hx, Hy. clear - Hx Hy Vx Vy.
    revert y Vy Hy. induction Hx as [|a v x oh Ha _ IH]; intros y Vy Hy.
    + inversion Hy. reflexivity.
    + inversion Hy as [|b v' y' oh' Hb Hy']; subst.
      inversion Vx; subst. inversion Vy; subst.
      f_equal; [|apply IH; assumption].
      eapply one_hot_char_injective; eassumption.
Qed.

Lemma one_hot_embedding_injective_witness :
  one_hot_embedding (small_model 0.5 0 0 0 0) [[2; 3; 0]%Z]
  = Ok [[[0; 0; 1; 0]; [0; 0; 0; 1]; [0; 0; 0; 0]]%R] /\
  [[2; 3; 0]%Z] = [[2; 3; 0]%Z].
Proof.
  split; [reflexivity|].
  apply (one_hot_embedding_injective (small_model 0.5 0 0 0 0)
           [[2; 3; 0]%Z] [[2; 3; 0]%Z] [[[0; 0; 1; 0]; [0; 0; 0; 1]; [0; 0; 0; 0]]%R]).
  - repeat constructor; simpl; lia.
  - repeat constructor; simpl; lia.
  - reflexivity.
  - reflexivity.
Defined.

(** ** The encoder reads no token beyond the length of a sequence *)

Lemma mapM_firstn (A B : Type) (f : A -> result B) (n : nat) (l : list A) (r : list B) :
  mapM f l = Ok r -> mapM f (firstn n l) = Ok (firstn n r).
Proof.
  intros H. apply mapM_Ok_Forall2 in H. apply mapM_Ok_Forall2.
  revert n. induction H as [|a b l r Hab _ IH]; intros [|n]; simpl; constructor; auto.
Qed.

Lemma encode_example_prefix (self : EVAE) (x x' : list Z) (l : Z) (h h' : list R) :
  firstn (Z.to_nat l) x = firstn (Z.to_nat l) x' ->
  encode_example self (x, l) = Ok h -> encode_example self (x', l) = Ok h' -> h = h'.
Proof.
  unfold encode_example. simpl. intros Hp E E'.
  inv_bind E as oh Hoh. inv_bind E' as oh' Hoh'.
  apply (mapM_firstn _ _ _ (Z.to_nat l)) in Hoh, Hoh'.
  rewrite Hp in Hoh. rewrite Hoh in Hoh'. injection Hoh' as Hoh'.
  rewrite Hoh' in E. congruence.
Qed.

Lemma encode_examples_prefix (self : EVAE) (X X' : list (list Z)) (L : list Z)
  (p : list nat) (H H' : list (list R)) :
  (forall i, firstn (Z.to_nat (nth i L 0%Z)) (nth i X [])
             = firstn (Z.to_nat (nth i L 0%Z)) (nth i X' [])) ->
  mapM (encode_example self) (combine (gather [] X p) (gather 0%Z L p)) = Ok H ->
  mapM (encode_example self) (combine (gather [] X' p) (gather 0%Z L p)) = Ok H' ->
  H = H'.
Proof.
  intros Hp. unfold gather. revert H H'.
  induction p as [|k p IH]; simpl; intros H H' E E'.
  - congruence.
  - inv_bind E as h Hh. inv_bind E as hs Hhs. injection E as <-.
    inv_bind E' as h' Hh'. inv_bind E' as hs' Hhs'. injection E' as <-.
    f_equal.
    + eapply encode_example_prefix; [apply (Hp k)|exact Hh|exact Hh'].
    + apply IH; assumption.
Qed.

(** X5 ([get_intermediates], [encoder]): the means, log-variances and
    latent codes of a batch depend on every sequence up to its length only.
    Two batches with the same lengths whose sequences agree up to their
    lengths, and differ in the padding beyond, have the same readout
    under the same noise. *)
Theorem get_intermediates_ignores_padding
  (self : EVAE) (batch batch' : Batch) (eps : list (list R))
  (res res' : list (list R) * list (list R) * list (list R)) :
  drug_len batch' = drug_len batch ->
  (forall i, firstn (Z.to_nat (nth i (drug_len batch) 0%Z)) (nth i (drug_inputs batch) [])
             = firstn (Z.to_nat (nth i (drug_len batch) 0%Z))
                      (nth i (drug_inputs batch') [])) ->
  get_intermediates self batch eps = Ok res ->
  get_intermediates self batch' eps = Ok res' ->
  res = res'.
Proof.
  intros HL Hp E E'. unfold get_intermediates in E, E'.
  rewrite HL in E'. rewrite torch_sort_eq in E, E'.
  set (L := drug_len batch) in *. set (p := sort_perm L true) in *.
  destruct (torch_sort (map Z.of_nat p) false) as [u rev].
  inv_bind E as Xs HXs. inv_bind E' as Xs' HXs'.
  apply (index_select_of_nat_Ok _ []) in HXs as [_ ->].
  apply (index_select_of_nat_Ok _ []) in HXs' as [_ ->].
  inv_bind E as H HH. inv_bind E' as H' HH'.
  apply encoder_rows in HH, HH'.
  assert (EH : H = H') by (eapply encode_examples_prefix; eassumption).
  subst H'. congruence.
Qed.

Lemma get_intermediates_ignores_padding_witness :
  get_intermediates (small_model 0.5 0 0 0 0) batch_of_one [[0%R]]
  = Ok ([[2 + 0]], [[0]], [[2 + 0 + 0 * exp (0.5 * 0)]])%R /\
  ([[2 + 0]], [[0]], [[2 + 0 + 0 * exp (0.5 * 0)]])%R
  = ([[2 + 0]], [[0]], [[2 + 0 + 0 * exp (0.5 * 0)]])%R.
Proof.
  assert (E : get_intermediates (small_model 0.5 0 0 0 0) batch_of_one [[0%R]]
              = Ok ([[2 + 0]], [[0]], [[2 + 0 + 0 * exp (0.5 * 0)]])%R)
    by reflexivity.
  assert (E' : get_intermediates (small_model 0.5 0 0 0 0)
                 {| drug_name := ["aspirin"%string];
                    drug_inputs := [[2; 3; 1]%Z];
                    drug_targets := [[3; 0; 0]%Z];
                    drug_len := [2%Z];
                    loc_ranking_indicator := [0%Z];
                    loc_ranking_len := [];
                    loc_ranking_inputs := [] |} [[0%R]]
              = Ok ([[2 + 0]], [[0]], [[2 + 0 + 0 * exp (0.5 * 0)]])%R)
    by reflexivity.
  split; [exact E|].
  refine (get_intermediates_ignores_padding _ _ _ _ _ _ eq_refl _ E E').
  intros [|[|i]]; reflexivity.
Defined.

(** ** A sequence of no token is rejected *)

Lemma forallb_Exists_false (A : Type) (f : A -> bool) (l : list A) :
  Exists (fun a => f a = false) l -> forallb f l = false.
Proof.
  induction 1 as [a l Ha|a l _ IH]; simpl.
  - rewrite Ha. reflexivity.
  - rewrite IH. apply andb_false_r.
Qed.

(** X6 ([get_intermediates], [encoder]): a batch with a length that is
    zero or negative is rejected by the packing with [RuntimeError],
    whatever the other sequences are. *)
Theorem get_intermediates_rejects_empty_sequence
  (self : EVAE) (batch : Batch) (eps : list (list R)) :
  length (drug_inputs batch) = length (drug_len batch) ->
  Forall (Forall (valid_token self)) (drug_inputs batch) ->
  Exists (fun l => (l <= 0)%Z) (drug_len batch) ->
  get_intermediates self batch eps = Raise RuntimeError.
Proof.
  intros Hlen Hv Hex. unfold get_intermediates.
  rewrite torch_sort_eq.
  set (L := drug_len batch) in *. set (X := drug_inputs batch) in *.
  set (p := sort_perm L true) in *.
  assert (Pp : Permutation p (seq 0 (length L))) by apply sort_perm_perm.
  assert (Lp : Forall (fun k => (k < length L)%nat) p) by apply sort_perm_lt.
  assert (Hp : length p = length L) by apply length_sort_perm.
  rewrite (index_select_gather _ []) by (rewrite Hlen; exact Lp).
  cbn [bind].
  destruct (torch_sort (map Z.of_nat p) false) as [u rev].
  unfold encoder.
  destruct (one_hot_embedding_returns self (gather [] X p)) as [OH HOH].
  { apply Forall_gather; [exact Hv|rewrite Hlen; exact Lp]. }
  rewrite HOH. cbn [bind].
  assert (LOH : length OH = length p).
  { rewrite one_hot_embedding_rows in HOH. apply mapM_length in HOH.
    rewrite HOH. apply length_gather. }
  unfold pack_padded_sequence.
  destruct (numel OH =? 0)%nat; [reflexivity|].
  rewrite length_gather, LOH, Nat.eqb_refl. cbn [negb].
  rewrite forallb_Exists_false; [reflexivity|].
  apply Exists_exists. apply Exists_exists in Hex as (l & Hin & Hl).
  exists l. split; [|apply Z.ltb_ge; exact Hl].
  eapply Permutation_in; [|exact Hin].
  symmetry. apply gather_perm. exact Pp.
Qed.

Lemma get_intermediates_rejects_empty_sequence_witness :
  get_intermediates (small_model 0.5 0 0 0 0)
    {| drug_name := ["aspirin"; "caffeine"]%string;
       drug_inputs := [[2; 3; 0]; [0; 0; 0]]%Z;
       drug_targets := [[3; 0; 0]; [0; 0; 0]]%Z;
       drug_len := [2; 0]%Z;
       loc_ranking_indicator := [0; 0]%Z;
       loc_ranking_len := [];
       loc_ranking_inputs := [] |} [[0%R]; [0%R]]
  = Raise RuntimeError.
Proof.
  apply get_intermediates_rejects_empty_sequence.
  - reflexivity.
  - repeat constructor; unfold valid_token; simpl; lia.
  - right. left. simpl. lia.
Defined.

(** ** Word dropout at a rate above one *)

Lemma keep_prob_cases (self : EVAE) (tok : Z) (p : R) :
  keep_prob self tok p = 1%R \/ keep_prob self tok p = p.
Proof.
  unfold keep_prob. destruct (_ =? 0)%Z; auto.
Qed.

(** X7 ([decoder]): the rate is used as given.  At a rate that is above
    one also when rounded to single precision, in which the draws are
    compared with it (from 1 + 2^-23 on, the float that follows 1), every
    token of the decoder input is replaced by [unk_idx], the start and pad
    symbols too: their draw is set to 1, which is below the rate. *)
Theorem word_dropout_rate_above_one
  (self : EVAE) (input_sequence : list (list Z)) (prob : list (list R)) :
  (1 + / 2 ^ 23 <= word_dropout_rate self)%R ->
  same_shape input_sequence prob ->
  Forall (Forall (fun p => (0 <= p < 1)%R)) prob ->
  decoder_input_sequence self input_sequence prob
  = map (map (fun _ => unk_idx self)) input_sequence.
Proof.
  intros Hr0 Hs Hp.
  assert (Hr : (1 < word_dropout_rate self)%R).
  { assert (0 < / 2 ^ 23)%R by (apply Rinv_0_lt_compat, pow_lt; lra). lra. }
  clear Hr0. unfold decoder_input_sequence.
  induction Hs as [|x pr X P Hx Hs IH]; simpl; [reflexivity|].
  inversion Hp as [|? ? Hpr Hp']; subst.
  rewrite (IH Hp'). f_equal. clear IH Hs Hp Hp'.
  revert pr Hx Hpr. induction x as [|tok x IH]; intros [|p pr] Hx Hpr;
    simpl in *; try discriminate; [reflexivity|].
  inversion Hpr as [|? ? Hp0 Hpr']; subst.
  rewrite IH by (auto; lia). f_equal.
  unfold drop_token.
  destruct (keep_prob_cases self tok p) as [-> | ->];
    rewrite if_Rlt_dec_true by lra; reflexivity.
Qed.

Lemma word_dropout_rate_above_one_witness :
  decoder_input_sequence (small_model 2 0 0 0 0) [[2; 3; 0]%Z] [[0.5; 0.5; 0.5]%R]
  = [[1; 1; 1]%Z].
Proof.
  apply (word_dropout_rate_above_one (small_model 2 0 0 0 0)
           [[2; 3; 0]%Z] [[0.5; 0.5; 0.5]%R]).
  - assert (/ 2 ^ 23 <= 1)%R.
    { rewrite <- Rinv_1. apply Rinv_le_contravar; [lra|].
      apply pow_R1_Rle. lra. }
    simpl word_dropout_rate. lra.
  - repeat constructor.
  - repeat constructor; lra.
Defined.

(** ** The decoder returns log-probabilities *)

Lemma sum_list_exp_pos (x : list R) : x <> [] -> (0 < sum_list (map exp x))%R.
Proof.
  destruct x as [|a x]; [congruence|]. intros _.
  unfold sum_list. simpl. fold (sum_list (map exp x)).
  assert (H : (0 <= sum_list (map exp x))%R).
  { induction x as [|b x IH]; unfold sum_list; simpl; [lra|].
    fold (sum_list (map exp x)). pose proof (exp_pos b). lra. }
  pose proof (exp_pos a). lra.
Qed.

Lemma exp_le_sum_list (x : list R) (v : R) :
  In v x -> (exp v <= sum_list (map exp x))%R.
Proof.
  induction x as [|a x IH]; simpl; [tauto|].
  unfold sum_list. simpl. fold (sum_list (map exp x)).
  assert (H : (0 <= sum_list (map exp x))%R).
  { clear. induction x as [|b x IH]; unfold sum_list; simpl; [lra|].
    fold (sum_list (map exp x)). pose proof (exp_pos b). lra. }
  intros [->|Hin].
  - lra.
  - pose proof (IH Hin). pose proof (exp_pos a). lra.
Qed.

Lemma sum_list_map_div (x : list R) (s : R) :
  sum_list (map (fun v => (v / s)%R) x) = (sum_list x / s)%R.
Proof.
  induction x as [|a x IH]; unfold sum_list in *; simpl; [lra|].
  rewrite IH. lra.
Qed.

(** [F.log_softmax] of a vector with at least one entry: the exponentials
    sum to one and no entry is positive. *)
Lemma log_softmax_normalised (x : list R) :
  x <> [] ->
  sum_list (map exp (log_softmax x)) = 1%R /\
  Forall (fun v => (v <= 0)%R) (log_softmax x) /\
  length (log_softmax x) = length x.
Proof.
  intros Hx. unfold log_softmax.
  pose proof (sum_list_exp_pos x Hx) as HS.
  set (S := sum_list (map exp x)) in *.
  split; [|split].
  - rewrite map_map.
    rewrite (map_ext (fun v => exp (v - ln S)) (fun v => (exp v / S)%R)).
    + rewrite <- (map_map exp (fun e => (e / S)%R)), sum_list_map_div.
      fold S. field. lra.
    + intros v. unfold Rminus. rewrite exp_plus, exp_Ropp, exp_ln by exact HS.
      reflexivity.
  - apply Forall_forall. intros w Hw. apply in_map_iff in Hw as (v & <- & Hv).
    pose proof (exp_le_sum_list x v Hv) as Hle. fold S in Hle.
    apply Rnot_lt_le. intros Hlt.
    assert (Hc : (ln S < v)%R) by lra.
    apply exp_increasing in Hc. rewrite exp_ln in Hc by exact HS. lra.
  - apply length_map.
Qed.

Lemma decoder_Ok (self : EVAE) (X : list (list Z)) (L idx : list Z)
  (z prob : list (list R)) (logp : list (list (list R))) :
  decoder self X L idx z prob = Ok logp ->
  exists OH padded,
    (0 < word_dropout_rate self)%R /\
    one_hot_embedding self (decoder_input_sequence self X prob) = Ok OH /\
    pack_padded_sequence OH L
    = Ok (map2 (fun l row => firstn (Z.to_nat l) row) L OH) /\
    length z = length L /\ length OH = length L /\
    index_select
      (pad_packed_sequence (hidden_size self)
         (map2 (decoder_rnn self)
            (map2 (fun l row => firstn (Z.to_nat l) row) L OH)
            (map (fun zb => chunk (num_layers self) (hidden_size self)
                              (latent2hidden self zb)) z)))
      (snd (torch_sort idx false)) = Ok padded /\
    logp = map (map (fun o => log_softmax (outputs2vocab self o))) padded.
Proof.
  unfold decoder. intros H.
  destruct (Rlt_dec 0 (word_dropout_rate self)) as [Hr|Hr]; [|discriminate].
  inv_bind H as OH HOH. inv_bind H as packed Hpack.
  pose proof Hpack as Hpack'.
  apply pack_padded_sequence_Ok in Hpack' as [Hlen ->].
  rewrite length_map, length_map2 in H.
  destruct (Nat.eqb_spec (length z) (Nat.min (length L) (length OH))) as [E|E];
    simpl in H; [|discriminate].
  inv_bind H as padded Hpad. injection H as <-.
  exists OH, padded. repeat split; auto; lia.
Qed.

(** X8 ([decoder]): when the output layer has at least one unit, every
    vector that the decoder returns is a vector of log-probabilities: no
    entry is positive and the exponentials of the entries sum to one. *)
Theorem decoder_returns_log_probabilities
  (self : EVAE) (X : list (list Z)) (L idx : list Z)
  (z prob : list (list R)) (logp : list (list (list R))) :
  (forall o, outputs2vocab self o <> []) ->
  decoder self X L idx z prob = Ok logp ->
  Forall (Forall (fun v => sum_list (map exp v) = 1%R /\
                           Forall (fun x => (x <= 0)%R) v)) logp.
Proof.
  intros Hv H.
  apply decoder_Ok in H as (OH & padded & _ & _ & _ & _ & _ & _ & ->).
  apply Forall_map, Forall_forall. intros r _.
  apply Forall_map, Forall_forall. intros o _.
  destruct (log_softmax_normalised (outputs2vocab self o) (Hv o)) as (H1 & H2 & _).
  auto.
Qed.

Lemma decoder_returns_log_probabilities_witness :
  Forall (Forall (fun v => sum_list (map exp v) = 1%R /\
                           Forall (fun x => (x <= 0)%R) v))
         [[log_softmax (zeros 4); log_softmax (zeros 4)]].
Proof.
  apply (decoder_returns_log_probabilities (small_model (1 / 2) 0 0 0 0)
           [[2; 3; 0]%Z] [2%Z] [0%Z] [[0%R]] [[0; 0; 0]%R]).
  - intros o. discriminate.
  - unfold decoder, decoder_input_sequence. simpl.
    unfold drop_token, keep_prob. simpl. eval_Rlt. reflexivity.
Defined.

(** ** The shape of the decoder output *)

Lemma pack_padded_sequence_checks
  (input packed : list (list (list R))) (lengths : list Z) :
  pack_padded_sequence input lengths = Ok packed ->
  Forall (fun l => (0 < l)%Z) lengths /\
  sorted_desc lengths = true /\
  Forall (fun l => (l <= Z.of_nat (length (hd [] input)))%Z) lengths.
Proof.
  unfold pack_padded_sequence. intros H.
  destruct (numel input =? 0)%nat; [discriminate|].
  destruct (negb (length lengths =? length input)%nat); [discriminate|].
  destruct (forallb (fun l => (0 <? l)%Z) lengths) eqn:F1; simpl in H; [|discriminate].
  destruct (sorted_desc lengths) eqn:F2; simpl in H; [|discriminate].
  destruct (forallb (fun l => (l <=? Z.of_nat (length (hd [] input)))%Z) lengths)
    eqn:F3; simpl in H; [|discriminate].
  repeat split.
  - apply Forall_forall. intros l Hl.
    apply Z.ltb_lt. exact (proj1 (forallb_forall _ _) F1 l Hl).
  - apply Forall_forall. intros l Hl.
    apply Z.leb_le. exact (proj1 (forallb_forall _ _) F3 l Hl).
Qed.

Lemma one_hot_embedding_shape (self : EVAE) (T : nat) (X : list (list Z))
  (OH : list (list (list R))) :
  one_hot_embedding self X = Ok OH -> has_width T X ->
  length OH = length X /\ has_width T OH.
Proof.
  rewrite one_hot_embedding_rows. intros H Hw. split.
  - eapply mapM_length. exact H.
  - apply mapM_Ok_Forall2 in H. unfold has_width in *.
    induction H as [|x oh X OH Hx _ IH]; constructor.
    + apply mapM_length in Hx. apply Forall_inv in Hw. congruence.
    + apply IH. eapply Forall_inv_tail. exact Hw.
Qed.

Lemma decoder_input_sequence_shape
  (self : EVAE) (T : nat) (X : list (list Z)) (prob : list (list R)) :
  has_width T X -> has_width T prob -> length prob = length X ->
  has_width T (decoder_input_sequence self X prob) /\
  length (decoder_input_sequence self X prob) = length X.
Proof.
  unfold decoder_input_sequence, has_width. intros Hw. revert prob.
  induction Hw as [|x X Hx Hw IH]; intros [|pb prob] Hp Hlen;
    simpl in *; try discriminate; [split; [constructor|reflexivity]|].
  apply Forall_cons_iff in Hp as [Hpb Hp].
  destruct (IH prob Hp ltac:(lia)) as [IH1 IH2].
  split; [constructor; [|exact IH1]|lia].
  rewrite !length_map2, Hx, Hpb, !Nat.min_id. reflexivity.
Qed.

Lemma sorted_desc_hd (L : list Z) :
  sorted_desc L = true -> Forall (fun l => (l <= hd 0 L)%Z) L.
Proof.
  induction L as [|a L IH]; intros H; [constructor|].
  constructor; [simpl; lia|].
  destruct L as [|b L]; [constructor|].
  simpl in H. apply andb_prop in H as [Hba Hs]. apply Z.leb_le in Hba.
  specialize (IH Hs). eapply Forall_impl; [|exact IH].
  simpl. intros l Hl. lia.
Qed.

Lemma max_to_nat_sorted (L : list Z) :
  sorted_desc L = true ->
  fold_right Nat.max 0%nat (map Z.to_nat L) = Z.to_nat (hd 0%Z L).
Proof.
  intros H. apply sorted_desc_hd in H.
  destruct L as [|a L]; [reflexivity|]. simpl in *.
  apply Forall_inv_tail in H.
  induction H as [|b L Hb _ IH]; simpl; lia.
Qed.

Lemma packed_lengths (T : nat) (f : list (list R) -> list (list R) -> list (list R))
  (L : list Z) (OH : list (list (list R))) (hs : list (list (list R))) :
  (forall x h, length (f x h) = length x) ->
  length OH = length L -> length hs = length L -> has_width T OH ->
  Forall (fun l => (l <= Z.of_nat T)%Z) L ->
  map (@length (list R))
      (map2 f (map2 (fun l row => firstn (Z.to_nat l) row) L OH) hs)
  = map Z.to_nat L.
Proof.
  intros Hf. revert OH hs.
  induction L as [|l L IH]; intros [|oh OH] [|h hs] H1 H2 Hw HL;
    simpl in *; try discriminate; [reflexivity|].
  apply Forall_cons_iff in Hw as [Hoh Hw]. apply Forall_cons_iff in HL as [Hl HL].
  rewrite Hf, length_firstn, Hoh. f_equal; [lia|].
  apply IH; auto.
Qed.

Lemma length_le_max_len (rows : list (list (list R))) (r : list (list R)) :
  In r rows -> (length r <= max_len rows)%nat.
Proof.
  unfold max_len. induction rows as [|a rows IH]; simpl; [tauto|].
  intros [->|H]; [lia|]. specialize (IH H). lia.
Qed.

Lemma pad_packed_sequence_width (w : nat) (outputs : list (list (list R))) :
  has_width (max_len outputs) (pad_packed_sequence w outputs) /\
  length (pad_packed_sequence w outputs) = length outputs.
Proof.
  unfold pad_packed_sequence, has_width. split; [|apply length_map].
  apply Forall_map, Forall_forall. intros r Hr.
  apply length_le_max_len in Hr.
  rewrite length_app, repeat_length. lia.
Qed.

Lemma index_select_In (A : Type) (t : list A) (idx : list Z) (r : list A) :
  index_select t idx = Ok r -> Forall (fun a => In a t) r /\ length r = length idx.
Proof.
  unfold index_select. intros H. split; [|eapply mapM_length; exact H].
  apply mapM_Ok_Forall2 in H.
  induction H as [|i a idx r Hi _ IH]; constructor; [|exact IH].
  inv_bind Hi as k Hk.
  destruct (nth_error t k) eqn:E; [|discriminate].
  injection Hi as <-. eapply nth_error_In. exact E.
Qed.

Lemma length_snd_torch_sort (t : list Z) (d : bool) :
  length (snd (torch_sort t d)) = length t.
Proof.
  rewrite snd_torch_sort, length_map. apply length_sort_perm.
Qed.

(** What the decoder returns: one row per index, as many steps as the
    first of the lengths, which the packing has checked to be the longest,
    and one value per symbol. *)
Lemma decoder_shape
  (self : EVAE) (T : nat) (X : list (list Z)) (L idx : list Z)
  (z prob : list (list R)) (logp : list (list (list R))) :
  has_width T X -> has_width T prob -> length prob = length X ->
  (forall x h, length (decoder_rnn self x h) = length x) ->
  (forall o, length (outputs2vocab self o) = vocab_size self) ->
  decoder self X L idx z prob = Ok logp ->
  length logp = length idx /\
  has_width (Z.to_nat (hd 0%Z L)) logp /\
  Forall (has_width (vocab_size self)) logp.
Proof.
  intros HwX Hwp Hlp Hrnn Hvoc H.
  apply decoder_Ok in H as (OH & padded & _ & HOH & Hpack & Hz & HL & Hsel & ->).
  destruct (decoder_input_sequence_shape self T X prob HwX Hwp Hlp) as [HwC _].
  destruct (one_hot_embedding_shape self T _ _ HOH HwC) as [_ HwO].
  apply pack_padded_sequence_checks in Hpack as (Hpos & Hsorted & Hle).
  apply index_select_In in Hsel as [Hin Hlen].
  rewrite length_snd_torch_sort in Hlen.
  set (outputs := map2 (decoder_rnn self)
                    (map2 (fun l row => firstn (Z.to_nat l) row) L OH)
                    (map (fun zb => chunk (num_layers self) (hidden_size self)
                                      (latent2hidden self zb)) z)) in *.
  assert (Hmax : max_len outputs = Z.to_nat (hd 0%Z L)).
  { unfold max_len, outputs.
    rewrite (packed_lengths T); auto.
    - apply max_to_nat_sorted. exact Hsorted.
    - rewrite length_map. exact Hz.
    - destruct OH as [|oh OH]; [destruct L; [constructor|discriminate]|].
      apply Forall_inv in HwO. simpl in Hle. rewrite HwO in Hle. exact Hle. }
  destruct (pad_packed_sequence_width (hidden_size self) outputs) as [Hw _].
  rewrite Hmax in Hw.
  split; [rewrite length_map; exact Hlen|]. split.
  - unfold has_width in *. apply Forall_map.
    eapply Forall_impl; [|exact Hin]. intros r Hr. simpl.
    rewrite length_map. exact (proj1 (Forall_forall _ _) Hw r Hr).
  - apply Forall_map, Forall_forall. intros r _.
    unfold has_width. apply Forall_map, Forall_forall. intros o _.
    unfold log_softmax. rewrite length_map. apply Hvoc.
Qed.

Lemma fold_max_ge (a : Z) (t : list Z) :
  (a <= fold_right Z.max a t)%Z /\
  Forall (fun l => (l <= fold_right Z.max a t)%Z) t /\
  In (fold_right Z.max a t) (a :: t).
Proof.
  induction t as [|b t (IH1 & IH2 & IH3)]; simpl.
  - split; [lia|]. split; [constructor|auto].
  - split; [lia|]. split.
    + constructor; [lia|]. eapply Forall_impl; [|exact IH2]. simpl. intros; lia.
    + destruct (Z.max_spec b (fold_right Z.max a t)) as [[_ ->]|[_ ->]].
      * simpl in IH3. destruct IH3; auto.
      * auto.
Qed.

(** The longest length is the first of the lengths sorted downwards. *)
Lemma torch_max_sorted (L : list Z) :
  L <> [] -> torch_max L = Ok (hd 0%Z (fst (torch_sort L true))).
Proof.
  intros HL. unfold torch_max. destruct L as [|a t] eqn:EL; [congruence|].
  rewrite <- EL. f_equal.
  pose proof (fold_max_ge a t) as (M1 & M2 & M3).
  set (m := fold_right Z.max a t) in *.
  pose proof (sorted_desc_hd _ (sorted_desc_torch_sort L)) as Hs.
  assert (P : Permutation (fst (torch_sort L true)) L).
  { rewrite fst_torch_sort. apply gather_perm, sort_perm_perm. }
  set (S := fst (torch_sort L true)) in *.
  assert (HS : S <> []).
  { intros E. rewrite E in P. apply Permutation_nil in P. congruence. }
  destruct S as [|s S']; [congruence|]. simpl in *.
  assert (H1 : In s L) by (eapply Permutation_in; [exact P|left; reflexivity]).
  assert (H2 : In m (s :: S')).
  { eapply Permutation_in; [symmetry; exact P|]. rewrite EL. exact M3. }
  assert (Hsm : (m <= s)%Z) by exact (proj1 (Forall_forall _ _) Hs m H2).
  assert (Hms : (s <= m)%Z).
  { rewrite EL in H1. destruct H1 as [<-|H1]; [exact M1|].
    exact (proj1 (Forall_forall _ _) M2 s H1). }
  lia.
Qed.

(** X9 ([decoder]): called as [vae_loss] calls it, on the batch sorted by
    length, the decoder returns one row per example, with as many steps as
    the longest sequence of the batch has tokens, which is where [vae_loss]
    cuts the targets, and [vocab_size] values per step. *)
Theorem decoder_output_shape
  (self : EVAE) (T : nat) (batch : Batch) (Xs : list (list Z))
  (z prob : list (list R)) (logp : list (list (list R))) (longest : Z) :
  let X := drug_inputs batch in
  let L := drug_len batch in
  has_width T X -> has_width T prob -> length X = length L -> length prob = length L ->
  (forall x h, length (decoder_rnn self x h) = length x) ->
  (forall o, length (outputs2vocab self o) = vocab_size self) ->
  index_select X (snd (torch_sort L true)) = Ok Xs ->
  decoder self Xs (fst (torch_sort L true)) (snd (torch_sort L true)) z prob = Ok logp ->
  torch_max L = Ok longest ->
  length logp = length L /\
  has_width (Z.to_nat longest) logp /\
  Forall (has_width (vocab_size self)) logp.
Proof.
  intros X L HwX Hwp HXL HpL Hrnn Hvoc HXs Hdec Hmax.
  assert (HL : L <> []) by (intros E; rewrite E in Hmax; discriminate).
  rewrite torch_max_sorted in Hmax by exact HL. injection Hmax as <-.
  rewrite (index_select_sorted _ []) in HXs by exact HXL. injection HXs as <-.
  destruct (decoder_shape self T _ _ _ _ _ _
              ltac:(apply Forall_gather;
                    [exact HwX|rewrite HXL; apply sort_perm_lt])
              Hwp
              ltac:(rewrite length_gather, length_sort_perm; exact HpL)
              Hrnn Hvoc Hdec) as (H1 & H2 & H3).
  rewrite length_snd_torch_sort in H1. auto.
Qed.

Lemma decoder_output_shape_witness :
  let logp := [[log_softmax (zeros 4); log_softmax (zeros 4)];
               [log_softmax (zeros 4); log_softmax (zeros 4)]] in
  length logp = 2%nat /\ has_width 2 logp /\ Forall (has_width 4) logp.
Proof.
  intros logp.
  apply (decoder_output_shape (small_model (1 / 2) 0 0 0 0) 3 batch_of_two
           [[2; 3; 0]; [2; 0; 0]]%Z [[5]; [7]]%R [[0; 0; 0]; [0; 0; 0]]%R logp 2%Z).
  - repeat constructor.
  - repeat constructor.
  - reflexivity.
  - reflexivity.
  - intros x h. apply length_map.
  - intros o. reflexivity.
  - reflexivity.
  - unfold decoder, decoder_input_sequence. simpl.
    unfold drop_token, keep_prob. simpl. eval_Rlt. reflexivity.
  - reflexivity.
Defined.

(** ** The steps after the end of a sequence *)

Lemma Forall2_nth (A B : Type) (R : A -> B -> Prop) (da : A) (db : B)
  (l : list A) (r : list B) (i : nat) :
  Forall2 R l r -> (i < length l)%nat -> R (nth i l da) (nth i r db).
Proof.
  intros H. revert i. induction H as [|a b l r Hab _ IH]; intros [|i] Hi;
    simpl in *; try lia; [exact Hab|]. apply IH. lia.
Qed.

(** X10 ([decoder]): the output of the decoder at a step at or after the
    length of a sequence does not depend on the sequence.  It is the
    log-softmax of the output layer at the zero vector, with which the
    unpacking pads the shorter sequences. *)
Theorem decoder_steps_after_the_end
  (self : EVAE) (X : list (list Z)) (L : list Z) (z0 prob0 : list (list R))
  (logp : list (list (list R))) (i t : nat) :
  let p := sort_perm L true in
  length X = length L -> length z0 = length L -> length prob0 = length L ->
  (forall x h, length (decoder_rnn self x h) = length x) ->
  decoder self (gather [] X p) (fst (torch_sort L true)) (snd (torch_sort L true))
          (gather [] z0 p) (gather [] prob0 p) = Ok logp ->
  (i < length L)%nat ->
  (Z.to_nat (nth i L 0%Z) <= t < length (nth i logp []))%nat ->
  nth t (nth i logp []) [] = log_softmax (outputs2vocab self (zeros (hidden_size self))).
Proof.
  intros p HX Hz Hp Hrnn Hdec Hi Ht.
  destruct (decoder_rows self X L z0 prob0 _ _ _ logp HX Hz Hp
              (index_select_sorted _ [] X L HX)
              (index_select_sorted _ [] z0 L Hz)
              (index_select_sorted _ [] prob0 L Hp) Hdec) as [m Hm].
  apply mapM_Ok_Forall2 in Hm.
  apply (Forall2_nth _ _ _ (([], 0%Z), ([], [])) [] _ _ i) in Hm.
  2:{ rewrite !length_combine. lia. }
  rewrite !combine_nth in Hm by (rewrite ?length_combine; lia).
  set (row := nth i logp []) in *.
  unfold decode_example in Hm.
  inv_bind Hm as one_hot Hoh. injection Hm as Hrow.
  set (output := decoder_rnn self (firstn (Z.to_nat (nth i L 0%Z)) one_hot)
                   (chunk (num_layers self) (hidden_size self)
                      (latent2hidden self (nth i z0 [])))) in *.
  assert (Hout : (length output <= Z.to_nat (nth i L 0%Z))%nat).
  { unfold output. rewrite Hrnn, length_firstn. lia. }
  assert (Hlen : length row
                 = (length output + (m - length output))%nat).
  { rewrite <- Hrow, length_map, length_app, repeat_length. reflexivity. }
  rewrite <- Hrow.
  rewrite (nth_indep _ [] (log_softmax (outputs2vocab self [])))
    by (rewrite length_map, length_app, repeat_length; lia).
  rewrite (map_nth (fun o => log_softmax (outputs2vocab self o))).
  rewrite app_nth2 by lia.
  rewrite nth_repeat_lt by lia. reflexivity.
Qed.

Lemma decoder_steps_after_the_end_witness :
  nth 1 (nth 0 [[log_softmax (zeros 4); log_softmax (zeros 4)];
                [log_softmax (zeros 4); log_softmax (zeros 4)]] []) []
  = log_softmax (zeros 4).
Proof.
  apply (decoder_steps_after_the_end (small_model (1 / 2) 0 0 0 0)
           [[2; 0; 0]; [2; 3; 0]]%Z [1; 2]%Z [[7]; [5]]%R [[0; 0; 0]; [0; 0; 0]]%R
           [[log_softmax (zeros 4); log_softmax (zeros 4)];
            [log_softmax (zeros 4); log_softmax (zeros 4)]] 0 1).
  - reflexivity.
  - reflexivity.
  - reflexivity.
  - intros x h. apply length_map.
  - unfold decoder, decoder_input_sequence. simpl.
    unfold drop_token, keep_prob. simpl. eval_Rlt. reflexivity.
  - simpl. lia.
  - simpl. lia.
Defined.

(** ** The stages of [vae_loss] on a valid batch *)

Lemma reparameterize_widths (self : EVAE) (H eps : list (list R)) :
  layers_shaped self -> length eps = length H -> has_width (latent_size self) eps ->
  has_width (latent_size self) (fst (fst (reparameterize self H eps))) /\
  has_width (latent_size self) (snd (fst (reparameterize self H eps))) /\
  has_width (latent_size self) (snd (reparameterize self H eps)).
Proof.
  intros (_ & _ & _ & Hm & Hv) Hlen Hw. unfold reparameterize, to_cuda_var, has_width.
  cbn [fst snd].
  split; [|split].
  - apply Forall_map, Forall_forall. intros h _. apply Hm.
  - apply Forall_map, Forall_forall. intros h _. apply Hv.
  - revert eps Hlen Hw. induction H as [|h H IH]; intros [|e eps] Hlen Hw;
      simpl in *; try discriminate; constructor.
    + apply Forall_inv in Hw.
      rewrite !length_map2, !length_map, Hm, Hv, Hw, !Nat.min_id. reflexivity.
    + apply IH; [lia|]. eapply Forall_inv_tail. exact Hw.
Qed.

(** The posterior of a batch with an example, for noise of [latent_size]
    columns, is one that the distributions of the KL terms accept. *)
Lemma reparameterize_gaussian (self : EVAE) (H eps : list (list R)) :
  layers_shaped self -> (1 <= latent_size self)%nat -> variances_ok self ->
  H <> [] -> length eps = length H -> has_width (latent_size self) eps ->
  gaussian_batch (latent_size self)
    (fst (fst (reparameterize self H eps)))
    (snd (fst (reparameterize self H eps)))
    (snd (reparameterize self H eps)).
Proof.
  intros Hshape Hn Hok HH Hlen Hw.
  destruct (reparameterize_widths self H eps Hshape Hlen Hw) as (W1 & W2 & W3).
  destruct (reparameterize_length self H eps Hlen) as (L1 & L2 & L3).
  unfold gaussian_batch. repeat split; try assumption; try congruence.
  - intros E. apply (f_equal (@length (list R))) in E. rewrite L1 in E.
    destruct H; [congruence|discriminate].
  - unfold reparameterize. cbn [fst snd].
    apply Forall_map, Forall_forall. intros h _. apply Hok.
Qed.

Lemma decoder_returns_sorted
  (self : EVAE) (T : nat) (X : list (list Z)) (L : list Z) (p : list nat)
  (z prob : list (list R)) :
  valid_batch self T X L -> L <> [] -> (1 <= vocab_size self)%nat ->
  sorted_desc L = true -> length p = length L ->
  length z = length L -> length prob = length L -> has_width T prob ->
  valid_token self (unk_idx self) -> (0 < word_dropout_rate self)%R ->
  exists logp, decoder self X L (map Z.of_nat p) z prob = Ok logp.
Proof.
  intros Hvb HLne HV Hsd Hp Hz Hpl Hwp Hu Hrate.
  destruct (valid_batch_columns self T X L Hvb HLne) as [HXne HT].
  destruct Hvb as (Hlen & Hw & Hv & Hl).
  unfold decoder. rewrite if_Rlt_dec_true by exact Hrate.
  destruct (decoder_input_sequence_valid self T X prob) as [HwC HvC];
    try assumption; [congruence|].
  destruct (one_hot_embedding_valid self T _ HwC HvC) as (OH & HOH & HwO & LO).
  destruct (decoder_input_sequence_shape self T X prob Hw Hwp ltac:(congruence))
    as [_ LC].
  assert (Hnum : numel OH <> 0%nat).
  { apply (numel_one_hot self T _ OH HOH); try assumption.
    intros E. apply (f_equal (@length (list Z))) in E. rewrite LC in E.
    destruct X; [congruence|discriminate]. }
  rewrite HOH. cbn [bind].
  rewrite (pack_padded_sequence_returns T);
    [|exact Hnum|congruence|exact HwO|exact Hl|exact Hsd].
  cbn [bind].
  rewrite length_map, length_map2, LO, LC, Hz, <- Hlen, Nat.min_id, Nat.eqb_refl.
  cbn [negb].
  rewrite snd_torch_sort.
  rewrite (index_select_gather _ []).
  - cbn [bind]. eauto.
  - unfold pad_packed_sequence.
    rewrite length_map, length_map2, length_map, length_map2, LO, LC, Hz, <- Hlen,
      !Nat.min_id, Hlen, <- Hp.
    apply sort_perm_of_nat_lt.
Qed.



(** On a valid batch [vae_loss] gets as far as the decoder output: what
    is left are the reconstruction term and the three regularisers. *)
Lemma vae_loss_decoded
  (self : EVAE) (T : nat) (batch : Batch) (num_samples : Z)
  (eps prob true_samples : list (list R)) :
  let B := length (drug_len batch) in
  let m := Z.to_nat (hd 0%Z (fst (torch_sort (drug_len batch) true))) in
  drug_len batch <> [] ->
  valid_batch self T (drug_inputs batch) (drug_len batch) ->
  layers_shaped self ->
  length eps = B -> length prob = B -> has_width T prob ->
  (0 < word_dropout_rate self)%R -> valid_token self (unk_idx self) ->
  exists (mean logv z : list (list R)) (logp : list (list (list R))),
    length mean = B /\ length logv = B /\ length z = B /\
    length logp = B /\ has_width m logp /\ Forall (has_width (vocab_size self)) logp /\
    (1 <= m <= T)%nat /\
    torch_max (drug_len batch) = Ok (hd 0%Z (fst (torch_sort (drug_len batch) true))) /\
    (has_width (latent_size self) eps -> (1 <= latent_size self)%nat ->
     variances_ok self -> gaussian_batch (latent_size self) mean logv z) /\
    vae_loss self batch num_samples eps prob true_samples
    = (recon <- RECON self (concat logp)
                  (concat (map (firstn m) (drug_targets batch))) ;;
       kl_loss <- (if Rlt_dec 0 (beta self)
                   then k <- kl_loss self mean logv z ;;
                        Ok (k / INR (length (drug_name batch)))%R
                   else Ok (to_cuda_var 0%R)) ;;
       mkl_loss <- (if Rlt_dec 0 (alpha self)
                    then m <- marginal_posterior_divergence z mean logv num_samples ;;
                         Ok (m / INR (length (drug_name batch)))%R
                    else Ok (to_cuda_var 0%R)) ;;
       Ok ((recon / INR (length (drug_name batch)))%R, kl_loss, mkl_loss,
           if Rlt_dec 0 (gamma self) then mmd_loss self z true_samples
           else to_cuda_var 0%R)).
Proof.
  intros B m HLne Hv Hshape He Hpl Hpw Hrate Hunk.
  pose proof Hshape as (HV & Hrnn & Hvoc & _ & _).
  unfold vae_loss.
  pose proof (valid_batch_sorted self T _ _ Hv) as Hs.
  pose proof Hv as (Hlen & Hw & Hvt & Hl).
  subst B m. rewrite torch_sort_eq.
  set (L := drug_len batch) in *. set (X := drug_inputs batch) in *.
  set (p := sort_perm L true) in *.
  assert (Lp : Forall (fun k => (k < length L)%nat) p) by apply sort_perm_lt.
  assert (Hp : length p = length L) by apply length_sort_perm.
  assert (Hsd : sorted_desc (gather 0%Z L p) = true).
  { unfold p. rewrite <- fst_torch_sort. apply sorted_desc_torch_sort. }
  rewrite (index_select_gather _ []) by (rewrite Hlen; exact Lp).
  cbn [bind fst].
  assert (NE : gather 0%Z L p <> []) by (apply gather_sort_nonempty; exact HLne).
  destruct (encoder_returns self T _ _ Hs Hsd NE HV) as [H HH].
  rewrite HH. cbn [bind].
  assert (LH : length H = length L).
  { apply encoder_rows, mapM_length in HH.
    rewrite HH, length_combine, !length_gather. lia. }
  assert (HHne : H <> []).
  { intros E. rewrite E in LH. destruct L; [congruence|discriminate]. }
  destruct (reparameterize_length self H eps) as (L1 & L2 & L3); [congruence|].
  pose proof (fun Hwe Hn Hok =>
                reparameterize_gaussian self H eps Hshape Hn Hok HHne
                  ltac:(congruence) Hwe) as G.
  destruct (reparameterize self H eps) as [[mean logv] z].
  cbn [fst snd] in L1, L2, L3, G.
  destruct (decoder_returns_sorted self T (gather [] X p) (gather 0%Z L p) p z prob)
    as [logp Hlogp]; auto;
    try (rewrite length_gather; congruence).
  rewrite Hlogp. cbn [bind].
  destruct Hs as (_ & Hws & _ & Hls).
  destruct (decoder_shape self T _ _ _ _ _ _ Hws Hpw
              ltac:(rewrite length_gather; congruence) Hrnn Hvoc Hlogp)
    as (S1 & S2 & S3).
  rewrite length_map in S1.
  pose proof (torch_max_sorted L HLne) as Hmax.
  rewrite fst_torch_sort in Hmax. fold p in Hmax.
  rewrite Hmax. cbn [bind].
  assert (Hm : (1 <= Z.to_nat (hd 0%Z (gather 0%Z L p)) <= T)%nat).
  { destruct (gather 0%Z L p) as [|l0 ?]; [congruence|]. simpl.
    apply Forall_inv in Hls. lia. }
  exists mean, logv, z, logp.
  split; [congruence|]. split; [congruence|]. split; [congruence|].
  split; [congruence|]. split; [exact S2|]. split; [exact S3|].
  split; [exact Hm|]. split; [reflexivity|]. split; [|reflexivity].
  intros Hwe Hn Hok. exact (G Hwe Hn Hok).
Qed.









(** ** The reconstruction term is not negative *)

Lemma sum_list_nonneg (l : list R) :
  Forall (fun x => (0 <= x)%R) l -> (0 <= sum_list l)%R.
Proof.
  induction 1 as [|x l Hx _ IH]; unfold sum_list in *; simpl; lra.
Qed.

Lemma RECON_nonneg (self : EVAE) (logp : list (list R)) (target : list Z) (r : R) :
  Forall (Forall (fun x => (x <= 0)%R)) logp ->
  RECON self logp target = Ok r -> (0 <= r)%R.
Proof.
  intros Hneg H. unfold RECON in H.
  destruct (negb (length logp =? length target)%nat); [discriminate|].
  inv_bind H as terms Hterms. injection H as <-.
  apply sum_list_nonneg.
  apply mapM_Ok_Forall2 in Hterms.
  remember (combine logp target) as c eqn:Ec.
  assert (Hc : Forall (fun lt => Forall (fun x => (x <= 0)%R) (fst lt)) c).
  { subst c. apply Forall_forall. intros [lp t] Hin. simpl.
    apply in_combine_l in Hin. exact (proj1 (Forall_forall _ _) Hneg lp Hin). }
  clear Ec. induction Hterms as [|[lp t] v c terms Hv _ IH]; constructor.
  - apply Forall_inv in Hc. simpl in Hc.
    destruct (t =? pad_idx self)%Z; [injection Hv as <-; lra|].
    destruct (Z.leb_spec 0 t); destruct (Z.ltb_spec t (Z.of_nat (length lp)));
      simpl in Hv; try discriminate.
    injection Hv as <-.
    assert (Hn : In (nth (Z.to_nat t) lp 0%R) lp) by (apply nth_In; lia).
    pose proof (proj1 (Forall_forall _ _) Hc _ Hn) as Hle. simpl in Hle. lra.
  - apply IH. eapply Forall_inv_tail. exact Hc.
Qed.

Lemma log_softmax_nonpos (x : list R) : Forall (fun v => (v <= 0)%R) (log_softmax x).
Proof.
  destruct x as [|a x]; [constructor|].
  apply (log_softmax_normalised (a :: x)). discriminate.
Qed.

Lemma decoder_nonpos (self : EVAE) (X : list (list Z)) (L idx : list Z)
  (z prob : list (list R)) (logp : list (list (list R))) :
  decoder self X L idx z prob = Ok logp ->
  Forall (Forall (fun x => (x <= 0)%R)) (concat logp).
Proof.
  intros H.
  apply decoder_Ok in H as (OH & padded & _ & _ & _ & _ & _ & _ & ->).
  apply Forall_concat, Forall_map, Forall_forall. intros r _.
  apply Forall_map, Forall_forall. intros o _.
  apply log_softmax_nonpos.
Qed.

(** X12 ([vae_loss]): whenever [vae_loss] returns on a batch with a name,
    its reconstruction term is not negative: it is a sum of negated
    log-probabilities over the targets that are not the pad symbol,
    divided by the number of names. *)
Theorem vae_loss_reconstruction_nonnegative
  (self : EVAE) (batch : Batch) (num_samples : Z) (eps prob true_samples : list (list R))
  (recon kl mkl mmd : R) :
  drug_name batch <> [] ->
  vae_loss self batch num_samples eps prob true_samples = Ok (recon, kl, mkl, mmd) ->
  (0 <= recon)%R.
Proof.
  intros Hname H. unfold vae_loss in H.
  destruct (torch_sort (drug_len batch) true) as [sorted_lengths sorted_idx].
  inv_bind H as Xs HXs. inv_bind H as hidden Hhidden.
  destruct (reparameterize self hidden eps) as [[mean logv] z].
  inv_bind H as logp Hlogp. inv_bind H as longest Hlongest.
  inv_bind H as r Hr. inv_bind H as kl' Hkl. inv_bind H as mkl' Hmkl.
  injection H as <- _ _ _.
  apply decoder_nonpos in Hlogp.
  apply (RECON_nonneg _ _ _ _ Hlogp) in Hr.
  assert (HB : (0 < INR (length (drug_name batch)))%R).
  { apply lt_0_INR. destruct (drug_name batch); [congruence|simpl; lia]. }
  apply Rmult_le_pos; [exact Hr|].
  apply Rlt_le, Rinv_0_lt_compat. exact HB.
Qed.

Lemma vae_loss_reconstruction_nonnegative_witness :
  (0 <= (- (0 - ln (exp 0 + (exp 0 + (exp 0 + (exp 0 + 0))))) + (0 + 0)) / 1)%R.
Proof.
  apply (vae_loss_reconstruction_nonnegative (small_model (1 / 2) 0 0 0 0) batch_of_one 10
           [[0%R]] [[0; 0; 0]%R] [[0%R]] _ 0%R 0%R 0%R).
  - discriminate.
  - unfold vae_loss. simpl.
    unfold decoder, decoder_input_sequence. simpl.
    unfold drop_token, keep_prob. simpl.
    eval_Rlt. reflexivity.
Defined.

(** ** A prior other than the standard one *)




(** ** The marginal term on a batch of one example *)



(** ** The conditional KL term at the prior *)

Lemma kl_sample_term_at_prior (zz : R) : kl_sample_term 0 0 zz = 0%R.
Proof. unfold kl_sample_term. rewrite exp_0. field. Qed.

Lemma kl_sample_row_at_prior (n : nat) (zz : list R) :
  length zz = n -> sum_list (map3 kl_sample_term (zeros n) (zeros n) zz) = 0%R.
Proof.
  revert zz. induction n as [|n IH]; intros [|a zz] H; simpl in *;
    try discriminate; try reflexivity.
  unfold sum_list in *. simpl. fold (zeros n).
  rewrite kl_sample_term_at_prior, IH by lia. lra.
Qed.

(** X15 ([kl_loss]): when the posterior of every example is the prior
    itself, mean 0 and log-variance 0, the conditional KL term is exactly
    zero at every sample [z] of a batch with an example and a coordinate
    at least, and not only on average. *)
Theorem kl_loss_zero_at_prior (self : EVAE) (n : nat) (z : list (list R)) :
  prior self = "Standard"%string -> z <> [] -> (1 <= n)%nat -> has_width n z ->
  kl_loss self (map (fun _ => zeros n) z) (map (fun _ => zeros n) z) z = Ok 0%R.
Proof.
  intros Hp Hne Hn Hw.
  assert (Wz : has_width n (map (fun _ : list R => zeros n) z)).
  { apply Forall_map, Forall_forall. intros r _. apply length_zeros. }
  rewrite (kl_loss_at_sample self n); [|exact Hp|].
  - f_equal. unfold kl_sample. clear Hne Wz.
    induction Hw as [|zz z Hzz _ IH]; simpl; [reflexivity|].
    unfold sum_list in *. simpl. rewrite IH.
    fold (sum_list (map3 kl_sample_term (zeros n) (zeros n) zz)).
    rewrite kl_sample_row_at_prior by exact Hzz. lra.
  - unfold gaussian_batch. rewrite !length_map.
    repeat split; try assumption; try reflexivity.
    + destruct z; [congruence|discriminate].
    + apply Forall_map, Forall_forall. intros r _.
      unfold zeros. apply Forall_forall. intros v Hv.
      apply repeat_spec in Hv. subst v. apply log_variance_ok_0.
Qed.

Lemma kl_loss_zero_at_prior_witness :
  kl_loss (small_model (1 / 2) 0 0 0 0) [[0; 0]; [0; 0]]%R [[0; 0]; [0; 0]]%R
          [[3; -1]; [0.5; 2]]%R = Ok 0%R.
Proof.
  apply (kl_loss_zero_at_prior (small_model (1 / 2) 0 0 0 0) 2 [[3; -1]; [0.5; 2]]%R).
  - reflexivity.
  - discriminate.
  - lia.
  - repeat constructor.
Defined.

(** ** The batches on which the marginal estimator returns *)

(** X16 ([marginal_posterior_divergence]): on [z], [mean] and [logv] of
    one shape, of at least one column and with variances that are positive
    finite floats, and for a [num_samples] from 0 that is an int64, the
    marginal estimator returns exactly when the batch has two examples or
    more and [num_samples] is not zero.  On the empty batch it raises
    [RuntimeError], stacking no tensor, and on a batch of one example
    too, for the distribution of the other examples. *)
Theorem marginal_posterior_divergence_domain
  (n : nat) (z mean logv : list (list R)) (num_samples : Z) :
  (1 <= n)%nat ->
  has_width n z -> has_width n mean -> has_width n logv ->
  length z = length mean -> length logv = length mean ->
  Forall (Forall log_variance_ok) logv ->
  (0 <= num_samples < 2 ^ 63)%Z ->
  ((exists m, marginal_posterior_divergence z mean logv num_samples = Ok m)
   <-> (2 <= length mean)%nat /\ num_samples <> 0%Z) /\
  ((length mean <= 1)%nat ->
   marginal_posterior_divergence z mean logv num_samples = Raise RuntimeError).
Proof.
  intros Hn Hwz Hwm Hwl Hz Hl Hok Hns.
  assert (G : mean <> [] -> gaussian_batch n mean logv z).
  { intros Hne. unfold gaussian_batch. repeat split; assumption. }
  assert (Small : (length mean <= 1)%nat ->
                  marginal_posterior_divergence z mean logv num_samples
                  = Raise RuntimeError).
  { intros HB. destruct mean as [|mu mean]; [reflexivity|].
    apply (marginal_posterior_divergence_one_example n).
    - apply G. discriminate.
    - simpl in HB |- *. lia. }
  split; [split|exact Small].
  - intros [m H].
    destruct (Nat.le_gt_cases (length mean) 1) as [HB|HB].
    { rewrite (Small HB) in H. discriminate. }
    split; [lia|]. intros ->.
    rewrite (marginal_posterior_divergence_no_samples n) in H;
      [discriminate| |lia].
    apply G. intros ->. simpl in HB. lia.
  - intros [HB Hne].
    exists (marginal_divergence_sum z mean logv num_samples).
    apply (marginal_posterior_divergence_value n); [|exact HB|lia].
    apply G. intros ->. simpl in HB. lia.
Qed.

Lemma marginal_posterior_divergence_domain_witness :
  ((exists m, marginal_posterior_divergence [[0]; [1]]%R [[0]; [1]]%R [[0]; [0]]%R 10
              = Ok m)
   <-> (2 <= 2)%nat /\ 10%Z <> 0%Z) /\
  ((2 <= 1)%nat ->
   marginal_posterior_divergence [[0]; [1]]%R [[0]; [1]]%R [[0]; [0]]%R 10
   = Raise RuntimeError).
Proof.
  apply (marginal_posterior_divergence_domain 1
           [[0]; [1]]%R [[0]; [1]]%R [[0]; [0]]%R 10);
    try reflexivity; try lia;
    repeat (apply Forall_cons || apply Forall_nil); try reflexivity;
    apply log_variance_ok_0.
Defined.

(** ** Targets that the reconstruction loss rejects *)

Lemma hd_sorted_ge (L : list Z) (l : Z) :
  In l L -> (l <= hd 0%Z (fst (torch_sort L true)))%Z.
Proof.
  intros Hin.
  pose proof (sorted_desc_hd _ (sorted_desc_torch_sort L)) as Hs.
  apply (proj1 (Forall_forall _ _) Hs).
  eapply Permutation_in; [|exact Hin]. symmetry.
  rewrite fst_torch_sort. apply gather_perm, sort_perm_perm.
Qed.

(** X17 ([vae_loss]): the targets are cut at the longest length of the
    batch and not padded.  When a sequence of a valid batch is longer than
    the targets are wide, the log-probabilities and the targets do not
    line up and [vae_loss] raises [ValueError]. *)
Theorem vae_loss_narrow_targets
  (self : EVAE) (T T' : nat) (batch : Batch) (num_samples : Z)
  (eps prob true_samples : list (list R)) :
  valid_batch self T (drug_inputs batch) (drug_len batch) ->
  layers_shaped self ->
  length eps = length (drug_len batch) ->
  length prob = length (drug_len batch) -> has_width T prob ->
  (0 < word_dropout_rate self)%R -> valid_token self (unk_idx self) ->
  length (drug_targets batch) = length (drug_len batch) ->
  has_width T' (drug_targets batch) ->
  Exists (fun l => (Z.of_nat T' < l)%Z) (drug_len batch) ->
  vae_loss self batch num_samples eps prob true_samples = Raise ValueError.
Proof.
  intros Hv Hshape He Hpl Hpw Hrate Hunk Htl Htw Hex.
  apply Exists_exists in Hex as (l & Hin & Hl).
  assert (HLne : drug_len batch <> []) by (intros E; rewrite E in Hin; inversion Hin).
  destruct (vae_loss_decoded self T batch num_samples eps prob true_samples
              HLne Hv Hshape He Hpl Hpw Hrate Hunk)
    as (mean & logv & z & logp & _ & _ & _ & S1 & S2 & _ & Hm & _ & _ & ->).
  pose proof (hd_sorted_ge _ _ Hin) as Hge.
  set (m := Z.to_nat (hd 0%Z (fst (torch_sort (drug_len batch) true)))) in *.
  assert (Hlt : (T' < m)%nat) by (unfold m; lia).
  unfold RECON.
  rewrite (length_concat_width _ m) by exact S2.
  rewrite (length_concat_width _ T').
  - rewrite length_map, S1, Htl.
    assert (HB : (1 <= length (drug_len batch))%nat).
    { destruct (drug_len batch); [congruence|simpl; lia]. }
    destruct (Nat.eqb_spec (length (drug_len batch) * m)
                           (length (drug_len batch) * T')) as [E|E]; [nia|].
    reflexivity.
  - unfold has_width in *. apply Forall_map.
    eapply Forall_impl; [|exact Htw]. intros t Ht. cbv beta in Ht |- *.
    rewrite length_firstn. lia.
Qed.

Lemma vae_loss_narrow_targets_witness :
  vae_loss (small_model (1 / 2) 0 0 0 0)
    {| drug_name := ["aspirin"%string];
       drug_inputs := [[2; 3; 0]%Z];
       drug_targets := [[3]%Z];
       drug_len := [2%Z];
       loc_ranking_indicator := [0%Z];
       loc_ranking_len := [];
       loc_ranking_inputs := [] |} 10 [[0%R]] [[0; 0; 0]%R] [[0%R]]
  = Raise ValueError.
Proof.
  apply (vae_loss_narrow_targets (small_model (1 / 2) 0 0 0 0) 3 1).
  - unfold valid_batch, has_width. simpl.
    repeat split; repeat (apply Forall_cons || apply Forall_nil);
      unfold valid_token; simpl; try reflexivity; lia.
  - apply small_model_shaped.
  - reflexivity.
  - reflexivity.
  - repeat constructor.
  - simpl. lra.
  - unfold valid_token. simpl. lia.
  - reflexivity.
  - repeat constructor.
  - left. simpl. lia.
Defined.

Lemma mapM_Ok_In (A B : Type) (f : A -> result B) (l : list A) (r : list B) (a : A) :
  mapM f l = Ok r -> In a l -> exists b, f a = Ok b.
Proof.
  intros H. apply mapM_Ok_Forall2 in H.
  induction H as [|x y l r Hxy _ IH]; simpl; [tauto|].
  intros [->|Hin]; eauto.
Qed.

Lemma mapM_raises (A B : Type) (f : A -> result B) (l : list A) (E : exn) (a : A) :
  (forall x e, In x l -> f x = Raise e -> e = E) ->
  In a l -> (exists e, f a = Raise e) ->
  mapM f l = Raise E.
Proof.
  intros Honly Hin [e He].
  destruct (mapM f l) as [r|e'] eqn:Hm.
  - destruct (mapM_Ok_In _ _ _ _ _ a Hm Hin) as [b Hb]. congruence.
  - apply mapM_Raise_In in Hm as (x & Hx & Hfx).
    f_equal. eapply Honly; eassumption.
Qed.

Lemma in_combine_r_exists (A B : Type) (l : list A) (l' : list B) (y : B) :
  length l = length l' -> In y l' -> exists x, In (x, y) (combine l l').
Proof.
  revert l'. induction l as [|a l IH]; intros [|b l'] Hlen Hin;
    simpl in *; try discriminate; [tauto|].
  destruct Hin as [->|Hin].
  - exists a. auto.
  - destruct (IH l' ltac:(lia) Hin) as [x Hx]. exists x. auto.
Qed.

(** X18 ([vae_loss]): a target below the longest length of the batch
    that is neither the pad symbol nor a symbol of the vocabulary makes
    [vae_loss] on a valid batch raise [IndexError]. *)
Theorem vae_loss_target_out_of_vocabulary
  (self : EVAE) (T : nat) (batch : Batch) (num_samples : Z)
  (eps prob true_samples : list (list R)) (longest : Z) :
  valid_batch self T (drug_inputs batch) (drug_len batch) ->
  layers_shaped self ->
  length eps = length (drug_len batch) ->
  length prob = length (drug_len batch) -> has_width T prob ->
  (0 < word_dropout_rate self)%R -> valid_token self (unk_idx self) ->
  length (drug_targets batch) = length (drug_len batch) ->
  has_width T (drug_targets batch) ->
  torch_max (drug_len batch) = Ok longest ->
  Exists (fun row => Exists (fun t => ~ valid_target self t)
                            (firstn (Z.to_nat longest) row))
         (drug_targets batch) ->
  vae_loss self batch num_samples eps prob true_samples = Raise IndexError.
Proof.
  intros Hv Hshape He Hpl Hpw Hrate Hunk Htl Htw Hmax Hex.
  assert (HLne : drug_len batch <> [])
    by (intros E; rewrite E in Hmax; discriminate).
  destruct (vae_loss_decoded self T batch num_samples eps prob true_samples
              HLne Hv Hshape He Hpl Hpw Hrate Hunk)
    as (mean & logv & z & logp & _ & _ & _ & S1 & S2 & S3 & Hm & Hmax' & _ & ->).
  rewrite Hmax' in Hmax. injection Hmax as <-.
  set (m := Z.to_nat (hd 0%Z (fst (torch_sort (drug_len batch) true)))) in *.
  set (target := concat (map (firstn m) (drug_targets batch))).
  assert (Hlen : length (concat logp) = length target).
  { unfold target. rewrite (length_concat_width _ m) by exact S2.
    rewrite (length_concat_width _ m).
    - rewrite length_map. congruence.
    - unfold has_width in *. apply Forall_map.
      eapply Forall_impl; [|exact Htw]. intros t Ht. cbv beta in Ht |- *.
      rewrite length_firstn. lia. }
  apply Exists_exists in Hex as (row & Hrow & Hex).
  apply Exists_exists in Hex as (t & Ht & Hbad).
  assert (Hin : In t target).
  { unfold target. apply in_concat. exists (firstn m row). split; [|exact Ht].
    apply in_map. exact Hrow. }
  destruct (in_combine_r_exists _ _ (concat logp) target t Hlen Hin) as [lp Hlp].
  pose proof (has_width_concat _ _ _ S3) as Hw.
  unfold RECON. rewrite Hlen, Nat.eqb_refl. cbn [negb].
  fold target.
  erewrite (mapM_raises _ _ _ _ IndexError (lp, t)); [reflexivity| |exact Hlp|].
  - intros [lp' t'] e _. destruct (t' =? pad_idx self)%Z; [discriminate|].
    destruct ((0 <=? t') && (t' <? Z.of_nat (length lp')))%Z; [discriminate|].
    congruence.
  - exists IndexError.
    pose proof (proj1 (Forall_forall _ _) Hw lp (in_combine_l _ _ _ _ Hlp)) as Wlp.
    cbv beta in Wlp. unfold valid_target in Hbad.
    destruct (Z.eqb_spec t (pad_idx self)); [tauto|].
    rewrite Wlp.
    destruct (Z.leb_spec 0 t); destruct (Z.ltb_spec t (Z.of_nat (vocab_size self)));
      simpl; try reflexivity. exfalso. apply Hbad. right. lia.
Qed.

Lemma vae_loss_target_out_of_vocabulary_witness :
  vae_loss (small_model (1 / 2) 0 0 0 0)
    {| drug_name := ["aspirin"%string];
       drug_inputs := [[2; 3; 0]%Z];
       drug_targets := [[3; 4; 0]%Z];
       drug_len := [2%Z];
       loc_ranking_indicator := [0%Z];
       loc_ranking_len := [];
       loc_ranking_inputs := [] |} 10 [[0%R]] [[0; 0; 0]%R] [[0%R]]
  = Raise IndexError.
Proof.
  apply (vae_loss_target_out_of_vocabulary (small_model (1 / 2) 0 0 0 0) 3 _ _ _ _ _ 2%Z).
  - unfold valid_batch, has_width. simpl.
    repeat split; repeat (apply Forall_cons || apply Forall_nil);
      unfold valid_token; simpl; try reflexivity; lia.
  - apply small_model_shaped.
  - reflexivity.
  - reflexivity.
  - repeat constructor.
  - simpl. lra.
  - unfold valid_token. simpl. lia.
  - reflexivity.
  - repeat constructor.
  - reflexivity.
  - left. right. left. unfold valid_target. simpl. lia.
Defined.

(** ** The autoencoder without word dropout *)

(** X19 ([vae_loss], [decoder]): with a dropout rate that is not
    positive [vae_loss] raises [UnboundLocalError] on every valid batch:
    the batch is encoded, and the decoder then reads the one-hot input that
    only the dropout branch binds. *)
Theorem vae_loss_without_word_dropout
  (self : EVAE) (T : nat) (batch : Batch) (num_samples : Z)
  (eps prob true_samples : list (list R)) :
  drug_len batch <> [] -> (1 <= vocab_size self)%nat ->
  valid_batch self T (drug_inputs batch) (drug_len batch) ->
  (word_dropout_rate self <= 0)%R ->
  vae_loss self batch num_samples eps prob true_samples = Raise UnboundLocalError.
Proof.
  intros HLne HV Hv Hrate. unfold vae_loss.
  pose proof (valid_batch_sorted self T _ _ Hv) as Hs.
  destruct Hv as (Hlen & _).
  rewrite torch_sort_eq.
  set (L := drug_len batch) in *. set (X := drug_inputs batch) in *.
  set (p := sort_perm L true) in *.
  rewrite (index_select_gather _ []) by (rewrite Hlen; apply sort_perm_lt).
  cbn [bind].
  destruct (encoder_returns self T _ _ Hs) as [H HH].
  { unfold p. rewrite <- fst_torch_sort. apply sorted_desc_torch_sort. }
  { apply gather_sort_nonempty. exact HLne. }
  { exact HV. }
  rewrite HH. cbn [bind].
  destruct (reparameterize self H eps) as [[mean logv] z].
  unfold decoder. rewrite if_Rlt_dec_false by exact Hrate. reflexivity.
Qed.

Lemma vae_loss_without_word_dropout_witness :
  vae_loss (small_model 0 0 0 0 0) batch_of_one 10 [[0%R]] [[0; 0; 0]%R] [[0%R]]
  = Raise UnboundLocalError.
Proof.
  apply (vae_loss_without_word_dropout (small_model 0 0 0 0 0) 3).
  - discriminate.
  - simpl. lia.
  - unfold valid_batch, has_width. simpl.
    repeat split; repeat (apply Forall_cons || apply Forall_nil);
      unfold valid_token; simpl; try reflexivity; lia.
  - simpl. lra.
Defined.

(** ** The conditional KL term and the diagnostic readout *)

Lemma nth_map3 (A B C D : Type) (f : A -> B -> C -> D) (da : A) (db : B) (dc : C)
  (dd : D) (a : list A) (b : list B) (c : list C) (k : nat) :
  (k < length a)%nat -> (k < length b)%nat -> (k < length c)%nat ->
  nth k (map3 f a b c) dd = f (nth k a da) (nth k b db) (nth k c dc).
Proof.
  revert b c k. induction a as [|x a IH]; intros [|y b] [|w c] [|k] Ha Hb Hc;
    simpl in *; try lia; [reflexivity|]. apply IH; lia.
Qed.

Lemma map3_gather (A B C D : Type) (f : A -> B -> C -> D) (da : A) (db : B) (dc : C)
  (dd : D) (a : list A) (b : list B) (c : list C) (q : list nat) :
  length b = length a -> length c = length a ->
  Forall (fun k => (k < length a)%nat) q ->
  map3 f (gather da a q) (gather db b q) (gather dc c q) = gather dd (map3 f a b c) q.
Proof.
  intros Hb Hc Hq. unfold gather.
  induction Hq as [|k q Hk _ IH]; simpl; [reflexivity|].
  rewrite IH. f_equal. symmetry. apply nth_map3; lia.
Qed.

Lemma length_map3 (A B C D : Type) (f : A -> B -> C -> D)
  (a : list A) (b : list B) (c : list C) :
  length b = length a -> length c = length a -> length (map3 f a b c) = length a.
Proof.
  revert b c. induction a as [|x a IH]; intros [|y b] [|w c] Hb Hc;
    simpl in *; try lia. rewrite IH; lia.
Qed.

Lemma sum_list_perm (l m : list R) : Permutation l m -> sum_list l = sum_list m.
Proof.
  unfold sum_list. induction 1; simpl; lra.
Qed.

(** The value of the KL term at a sample does not depend on the order of
    the examples. *)
Lemma kl_sample_gather (mean logv z : list (list R)) (q : list nat) :
  length logv = length mean -> length z = length mean ->
  Permutation q (seq 0 (length mean)) ->
  kl_sample (gather [] mean q) (gather [] logv q) (gather [] z q)
  = kl_sample mean logv z.
Proof.
  intros Hl Hz Hq. unfold kl_sample.
  rewrite (map3_gather _ _ _ _ _ _ _ _ 0%R) by (auto; apply perm_seq_lt; exact Hq).
  apply sum_list_perm, gather_perm.
  rewrite length_map3 by assumption. exact Hq.
Qed.

(** What a distribution that was accepted tells about its arguments. *)
Lemma MultivariateNormal_Ok (n : nat) (loc logv : list (list R)) (k : nat) (u : unit) :
  MultivariateNormal loc (map2 cov_of logv (repeat (eye n) k)) = Ok u ->
  has_width n logv -> (length logv <= k)%nat ->
  length (concat loc) <> 0%nat /\ Forall (Forall variance_accepted) logv.
Proof.
  unfold MultivariateNormal. intros H Hw Hk.
  destruct (Nat.eqb_spec (length (concat loc)) 0) as [E|E]; [discriminate|].
  split; [exact E|].
  destruct (forallb (fun m => forallb positive_float (diagonal m))
              (map2 cov_of logv (repeat (eye n) k))) eqn:F; [|discriminate].
  clear H E. revert k Hk F. unfold has_width in Hw.
  induction Hw as [|lv logv Hlv Hw IH]; intros [|k] Hk F; simpl in *;
    try lia; constructor.
  - apply andb_prop in F as [F _].
    rewrite (diagonal_cov_of n lv Hlv) in F.
    apply Forall_forall. intros v Hv. apply positive_float_true.
    apply (proj1 (forallb_forall _ _) F). apply in_map. exact Hv.
  - apply andb_prop in F as [_ F]. apply (IH k); [lia|exact F].
Qed.

Lemma concat_no_columns (A : Type) (t : list (list A)) :
  has_width 0 t -> length (concat t) = 0%nat.
Proof.
  unfold has_width. induction 1 as [|r t Hr _ IH]; simpl; [reflexivity|].
  rewrite length_app, Hr, IH. reflexivity.
Qed.

(** Where [kl_loss] returns, its tensors are ones that the distribution of
    the posterior accepts. *)
Lemma kl_loss_Ok_accepted (self : EVAE) (n : nat) (mean logv z : list (list R)) (k : R) :
  kl_loss self mean logv z = Ok k ->
  has_width n mean -> has_width n logv -> has_width n z ->
  length logv = length mean -> length z = length mean ->
  accepted_batch n mean logv z.
Proof.
  intros H Hm Hl Hz El Ez. unfold kl_loss, to_cuda_var in H.
  inv_bind H as u Hu. clear H.
  destruct mean as [|m mean]; [discriminate Hu|].
  assert (Hn : length (hd [] (m :: mean)) = n) by (inversion Hm; assumption).
  rewrite Hn in Hu.
  apply MultivariateNormal_Ok in Hu as [Hc Hok]; [|exact Hl|rewrite El; apply le_n].
  unfold accepted_batch. repeat split; try assumption; try discriminate.
  destruct n as [|n]; [|lia]. exfalso. apply Hc, concat_no_columns. exact Hm.
Qed.

Lemma accepted_batch_gather (n : nat) (mean logv z : list (list R)) (q : list nat) :
  accepted_batch n mean logv z -> Permutation q (seq 0 (length mean)) ->
  accepted_batch n (gather [] mean q) (gather [] logv q) (gather [] z q).
Proof.
  intros (Hn & Hne & Hm & Hl & Hz & El & Ez & Hok) Hq.
  pose proof (perm_seq_lt _ _ Hq) as Lq.
  unfold accepted_batch. rewrite !length_gather.
  repeat split; try assumption; try reflexivity.
  - intros E. apply (f_equal (@length (list R))) in E.
    rewrite length_gather, (Permutation_length Hq), length_seq in E.
    destruct mean; [congruence|discriminate].
  - apply Forall_gather; assumption.
  - apply Forall_gather; [exact Hl|rewrite El; exact Lq].
  - apply Forall_gather; [exact Hz|rewrite Ez; exact Lq].
  - apply Forall_gather; [exact Hok|rewrite El; exact Lq].
Qed.

(** X20 ([vae_loss], [get_intermediates], [kl_loss]): the conditional KL
    term of [vae_loss] is computed on the batch sorted by length, and the
    readout of [get_intermediates] is in the order of the batch.  Under
    the same noise the term is nevertheless the value of [kl_loss] on the
    readout, divided by the batch size. *)
Theorem vae_loss_kl_of_readout
  (self : EVAE) (batch : Batch) (num_samples : Z) (eps prob true_samples : list (list R))
  (mean logv z : list (list R)) (recon kl mkl mmd : R) :
  layers_shaped self -> prior self = "Standard"%string -> (0 < beta self)%R ->
  length (drug_inputs batch) = length (drug_len batch) ->
  length eps = length (drug_len batch) -> has_width (latent_size self) eps ->
  get_intermediates self batch eps = Ok (mean, logv, z) ->
  vae_loss self batch num_samples eps prob true_samples = Ok (recon, kl, mkl, mmd) ->
  exists k, kl_loss self mean logv z = Ok k /\
            kl = (k / INR (length (drug_name batch)))%R.
Proof.
  intros Hshape Hprior Hbeta HXL He Hwe Hg Hv.
  unfold get_intermediates in Hg. unfold vae_loss in Hv.
  rewrite torch_sort_eq in Hg, Hv.
  set (L := drug_len batch) in *. set (p := sort_perm L true) in *.
  inv_bind Hg as Xs HXs. rewrite HXs in Hv. cbn [bind] in Hv.
  destruct (torch_sort (map Z.of_nat p) false) as [u rev] eqn:Erev.
  assert (Hrev : rev = map Z.of_nat (sort_perm (map Z.of_nat p) false))
    by (rewrite <- snd_torch_sort, Erev; reflexivity).
  subst rev.
  inv_bind Hg as hidden Hhidden. rewrite Hhidden in Hv. cbn [bind] in Hv.
  assert (LH : length hidden = length L).
  { apply (index_select_of_nat_Ok _ []) in HXs as [_ ->].
    apply encoder_rows, mapM_length in Hhidden.
    rewrite Hhidden, length_combine, !length_gather.
    unfold p. rewrite length_sort_perm. lia. }
  destruct (reparameterize_length self hidden eps) as (L1 & L2 & L3); [congruence|].
  destruct (reparameterize_widths self hidden eps Hshape) as (W1 & W2 & W3);
    [congruence|exact Hwe|].
  destruct (reparameterize self hidden eps) as [[mean_s logv_s] z_s].
  cbn [fst snd] in L1, L2, L3, W1, W2, W3.
  inv_bind Hg as mean' Hmean. inv_bind Hg as logv' Hlogv. inv_bind Hg as z' Hz.
  injection Hg as -> -> ->.
  apply (index_select_of_nat_Ok _ []) in Hmean as [Hq ->].
  apply (index_select_of_nat_Ok _ []) in Hlogv as [_ ->].
  apply (index_select_of_nat_Ok _ []) in Hz as [_ ->].
  set (q := sort_perm (map Z.of_nat p) false) in *.
  assert (Pq : Permutation q (seq 0 (length mean_s))).
  { unfold q. rewrite L1, LH, <- (length_sort_perm L true).
    fold p. rewrite <- (length_map Z.of_nat p). apply sort_perm_perm. }
  inv_bind Hv as logp Hlogp. inv_bind Hv as longest Hlongest.
  inv_bind Hv as r Hr.
  rewrite if_Rlt_dec_true in Hv by exact Hbeta.
  inv_bind Hv as kl' Hkl. inv_bind Hkl as k Hk. injection Hkl as <-.
  inv_bind Hv as mkl' Hmkl. injection Hv as _ <- _ _.
  assert (G : accepted_batch (latent_size self) mean_s logv_s z_s).
  { apply (kl_loss_Ok_accepted self _ _ _ _ k Hk); try assumption; congruence. }
  rewrite (kl_loss_accepted self (latent_size self) _ _ _ Hprior G) in Hk.
  injection Hk as <-.
  exists (kl_sample mean_s logv_s z_s). split; [|reflexivity].
  rewrite (kl_loss_accepted self (latent_size self)).
  - f_equal. apply kl_sample_gather; [congruence|congruence|exact Pq].
  - exact Hprior.
  - apply accepted_batch_gather; assumption.
Qed.

Lemma vae_loss_kl_of_readout_witness :
  let self := small_model (1 / 2) 0 0 1 0 in
  let mean := [[1 + 0]; [1 + 1 + 0]]%R in
  let logv := [[0]; [0]]%R in
  let z := [[1 + 0 + 7 * exp (0.5 * 0)]; [1 + 1 + 0 + 5 * exp (0.5 * 0)]]%R in
  exists k, kl_loss self mean logv z = Ok k /\
            (kl_sample [[1 + 1 + 0]; [1 + 0]]%R [[0]; [0]]%R
                       [[1 + 1 + 0 + 5 * exp (0.5 * 0)]; [1 + 0 + 7 * exp (0.5 * 0)]]%R
             / INR 2)%R
            = (k / INR 2)%R.
Proof.
  intros self mean logv z.
  eapply (vae_loss_kl_of_readout self batch_of_two 10
            [[5]; [7]]%R [[0; 0; 0]; [0; 0; 0]]%R [[0]; [0]]%R mean logv z
            _ _ 0%R 0%R).
  - apply small_model_shaped.
  - reflexivity.
  - simpl. lra.
  - reflexivity.
  - reflexivity.
  - repeat constructor.
  - reflexivity.
  - unfold vae_loss. simpl.
    unfold decoder, decoder_input_sequence. simpl.
    unfold drop_token, keep_prob. simpl.
    eval_Rlt.
    rewrite (kl_loss_at_sample self 1 _ _ _ eq_refl (gaussian_batch_two _ _ _ _)).
    reflexivity.
Defined.

(** ** The ranking loss is not negative *)

Lemma sum_list_exp_nonneg (x : list R) : (0 <= sum_list (map exp x))%R.
Proof.
  apply sum_list_nonneg, Forall_map, Forall_forall. intros v _.
  apply Rlt_le, exp_pos.
Qed.

Lemma anchor_loss_pos (d : list R) : (2 <= length d)%nat -> (0 < anchor_loss d)%R.
Proof.
  intros H. unfold anchor_loss. rewrite <- sum_exp_neg_nth.
  destruct d as [|a [|b d]]; simpl in H; try lia. simpl.
  unfold sum_list. simpl. fold (sum_list (map exp (map Ropp d))).
  pose proof (sum_list_exp_nonneg (map Ropp d)) as HS.
  pose proof (exp_pos (- a)) as Ha. pose proof (exp_pos (- b)) as Hb.
  assert (Hlt : (ln (exp (- a))
                 < ln (exp (- a) + (exp (- b) + sum_list (map exp (map Ropp d)))))%R).
  { apply ln_increasing; lra. }
  rewrite ln_exp in Hlt. lra.
Qed.

Lemma mean_list_pos (l : list R) :
  l <> [] -> Forall (fun x => (0 < x)%R) l -> (0 < mean_list l)%R.
Proof.
  intros Hne H. unfold mean_list.
  apply Rmult_lt_0_compat.
  - destruct H as [|x l Hx H]; [congruence|].
    unfold sum_list. simpl. fold (sum_list l).
    assert (0 <= sum_list l)%R.
    { apply sum_list_nonneg. eapply Forall_impl; [|exact H]. intros; lra. }
    lra.
  - apply Rinv_0_lt_compat, lt_0_INR. destruct l; [congruence|simpl; lia].
Qed.

Lemma encode_candidates_length (self : EVAE) (g : nat)
  (cs : list (list (list Z) * list Z)) (cands : list (list (list R))) :
  Forall (fun c => length (fst c) = g /\ length (snd c) = g) cs ->
  mapM (encode_candidates self) cs = Ok cands ->
  has_width g cands /\ length cands = length cs.
Proof.
  intros Hc H. split; [|eapply mapM_length; exact H].
  apply mapM_Ok_Forall2 in H. unfold has_width.
  induction H as [|c r cs cands Hr _ IH]; constructor.
  - apply Forall_inv in Hc as [H1 H2].
    unfold encode_candidates in Hr. apply mapM_length in Hr.
    rewrite Hr, length_combine. lia.
  - apply IH. eapply Forall_inv_tail. exact Hc.
Qed.

Lemma rankable_groups (self : EVAE) (T g : nat) (batch : Batch) :
  rankable self T g batch ->
  Forall (fun c => length (fst c) = g /\ length (snd c) = g)
         (combine (gather [] (loc_ranking_inputs batch) (selected batch))
                  (gather [] (loc_ranking_len batch) (selected batch))).
Proof.
  intros (_ & _ & HCL & _ & HvC & HwC).
  assert (Hlen : length (loc_ranking_inputs batch) = length (loc_ranking_len batch))
    by (eapply Forall2_length; exact HvC).
  rewrite (gather_combine _ _ [] []) by congruence.
  apply Forall_gather.
  - clear - HvC HwC. unfold has_width in HwC.
    induction HvC as [|cx cl CX CL (E & _) _ IH]; simpl; constructor.
    + apply Forall_inv in HwC. simpl. split; congruence.
    + apply IH. eapply Forall_inv_tail. exact HwC.
  - rewrite length_combine, Hlen, Nat.min_id, HCL. apply selected_lt.
Qed.

(** X21 ([ranking_loss]): on a rankable batch with a flagged example and
    at least one negative candidate per anchor, for a vocabulary that is
    not empty, the ranking loss returns a number that is not negative: the
    loss of an anchor is the log of a sum in which the positive candidate
    alone contributes 1. *)
Theorem ranking_loss_nonnegative
  (self : EVAE) (T g : nat) (batch : Batch) (eps_drug eps_local : list (list R)) :
  rankable self T g batch ->
  selected batch <> [] -> (2 <= g)%nat ->
  (1 <= max_sequence_length self - 1)%nat ->
  (1 <= vocab_size self)%nat ->
  (1 <= latent_size self)%nat ->
  (forall h, length (hidden2mean self h) = latent_size self) ->
  exists loss,
    ranking_loss self batch eps_drug eps_local = Ok loss /\ (0 <= loss)%R.
Proof.
  intros Hr Hne Hg Hw HV Hlat Hmean.
  assert (Hsel : (1 <= length (selected batch))%nat).
  { destruct (selected batch); [congruence|simpl; lia]. }
  destruct (ranking_loss_returns self T g batch eps_drug eps_local
              Hr Hne ltac:(lia) ltac:(nia) Hw HV Hlat Hmean) as [loss Hloss].
  exists loss. split; [exact Hloss|].
  pose proof (rankable_groups self T g batch Hr) as Hgroups.
  pose proof Hr as (_ & HL & HCL & (HXL & _) & HvC & HCw).
  destruct (ranking_loss_value self batch eps_drug eps_local g loss
              Hne ltac:(lia) Hw) as (anchors & cands & Ha & Hc & ->); try assumption.
  { clear - HvC. induction HvC as [|cx cl CX CL (_ & Hwd & _) H IH];
      constructor; assumption. }
  { apply (valid_groups_same_shape self _ _ _ HvC). }
  destruct (encode_candidates_length self g _ _ Hgroups Hc) as [Hcw Hcl].
  apply mapM_length in Ha.
  rewrite length_combine, !length_gather, Nat.min_id in Ha, Hcl.
  apply Rlt_le, mean_list_pos.
  - intros E. apply (f_equal (@length R)) in E.
    rewrite length_map, length_map2, Ha, Hcl, Nat.min_id in E. simpl in E. lia.
  - apply Forall_map.
    clear - Hcw Hg. revert anchors.
    induction Hcw as [|c cands Hc _ IH]; intros [|a anchors]; simpl; constructor.
    + apply anchor_loss_pos. unfold candidate_distances. rewrite length_map. lia.
    + apply IH.
Qed.

Lemma ranking_loss_nonnegative_witness :
  exists loss,
    ranking_loss (small_model (1 / 2) 0 0 0 0) batch_with_ranking [[5%R]] [[5%R]; [7%R]]
    = Ok loss /\ (0 <= loss)%R.
Proof.
  apply (ranking_loss_nonnegative (small_model (1 / 2) 0 0 0 0) 3 2 batch_with_ranking).
  - unfold rankable, valid_batch, has_width. simpl.
    repeat split; repeat (apply Forall_cons || apply Forall_nil
                          || apply Forall2_cons || apply Forall2_nil || split);
      try reflexivity; unfold valid_token; simpl; lia.
  - discriminate.
  - lia.
  - simpl. lia.
  - simpl. lia.
  - simpl. lia.
  - intros h. reflexivity.
Defined.

(** ** The order of the negative candidates *)

Lemma logsumexp_neg_perm (l m : list R) :
  Permutation l m -> logsumexp (map Ropp l) = logsumexp (map Ropp m).
Proof.
  intros H. unfold logsumexp. f_equal.
  apply sum_list_perm. do 2 apply Permutation_map. exact H.
Qed.

Lemma anchor_loss_perm (d : R) (t t' : list R) :
  Permutation t t' -> anchor_loss (d :: t) = anchor_loss (d :: t').
Proof.
  intros H. unfold anchor_loss. rewrite <- !sum_exp_neg_nth.
  cbn [nth]. f_equal.
  apply (logsumexp_neg_perm (d :: t) (d :: t')). constructor. exact H.
Qed.

Lemma mapM_perm (A B : Type) (f : A -> result B) (l l' : list A) (r r' : list B) :
  Permutation l l' -> mapM f l = Ok r -> mapM f l' = Ok r' -> Permutation r r'.
Proof.
  intros P H H'. apply mapM_Ok_Forall2 in H.
  destruct (Permutation_Forall2 P H) as (r2 & Pr & F2).
  apply mapM_Ok_Forall2 in F2. rewrite F2 in H'. injection H' as <-. exact Pr.
Qed.

Lemma encode_candidates_perm (self : EVAE)
  (cs cs' : list (list (list Z) * list Z)) (cands cands' : list (list (list R))) :
  Forall2 (fun c c' => exists c0 rest rest',
             combine (fst c) (snd c) = c0 :: rest /\
             combine (fst c') (snd c') = c0 :: rest' /\
             Permutation rest rest') cs cs' ->
  mapM (encode_candidates self) cs = Ok cands ->
  mapM (encode_candidates self) cs' = Ok cands' ->
  Forall2 (fun c c' => exists m0 ms ms',
             c = m0 :: ms /\ c' = m0 :: ms' /\ Permutation ms ms') cands cands'.
Proof.
  intros H. revert cands cands'.
  induction H as [|c c' cs cs' (c0 & rest & rest' & E & E' & P) _ IH];
    intros cands cands' Hc Hc'; simpl in Hc, Hc'.
  - injection Hc as <-. injection Hc' as <-. constructor.
  - inv_bind Hc as r Hr. inv_bind Hc as rs Hrs. injection Hc as <-.
    inv_bind Hc' as r' Hr'. inv_bind Hc' as rs' Hrs'. injection Hc' as <-.
    constructor; [|apply IH; assumption].
    unfold encode_candidates in Hr, Hr'. rewrite E in Hr. rewrite E' in Hr'.
    simpl in Hr, Hr'.
    inv_bind Hr as m0 Hm0. inv_bind Hr as ms Hms. injection Hr as <-.
    inv_bind Hr' as m0' Hm0'. inv_bind Hr' as ms' Hms'. injection Hr' as <-.
    rewrite Hm0 in Hm0'. injection Hm0' as <-.
    exists m0, ms, ms'. repeat split.
    eapply mapM_perm; eassumption.
Qed.

(** X22 ([ranking_loss]): the ranking loss reads the positive candidate
    of an anchor at index 0 and treats the other candidates alike.  Two
    rankable batches that differ in the order of the negative candidates
    only have the same ranking loss, for a vocabulary that is not empty. *)
Theorem ranking_loss_order_of_negatives
  (self : EVAE) (T g : nat) (batch batch' : Batch) (eps_drug eps_local : list (list R)) :
  rankable self T g batch -> rankable self T g batch' ->
  same_up_to_negatives batch batch' ->
  selected batch <> [] -> (2 <= g)%nat ->
  (1 <= max_sequence_length self - 1)%nat ->
  (1 <= vocab_size self)%nat ->
  (1 <= latent_size self)%nat ->
  (forall h, length (hidden2mean self h) = latent_size self) ->
  ranking_loss self batch' eps_drug eps_local
  = ranking_loss self batch eps_drug eps_local.
Proof.
  intros Hr Hr' (En & Ex & El & Ei & Hperm) Hne Hg Hw HV Hlat Hmean.
  assert (Es : selected batch' = selected batch).
  { unfold selected. rewrite En, Ei. reflexivity. }
  assert (Hne' : selected batch' <> []) by (rewrite Es; exact Hne).
  assert (Hsel : (1 <= length (selected batch))%nat).
  { destruct (selected batch); [congruence|simpl; lia]. }
  destruct (ranking_loss_returns self T g batch eps_drug eps_local
              Hr Hne ltac:(lia) ltac:(nia) Hw HV Hlat Hmean) as [loss Hloss].
  destruct (ranking_loss_returns self T g batch' eps_drug eps_local
              Hr' Hne' ltac:(lia) ltac:(rewrite Es; nia) Hw HV Hlat Hmean)
    as [loss' Hloss'].
  rewrite Hloss, Hloss'. f_equal.
  pose proof Hr as (_ & _ & HCL & _ & HvC & HCw).
  pose proof Hr' as (_ & _ & HCL' & _ & HvC' & HCw').
  destruct (ranking_loss_value self batch eps_drug eps_local g loss
              Hne ltac:(lia) Hw) as (anchors & cands & Ha & Hc & ->); try assumption.
  { clear - HvC. induction HvC as [|cx cl CX CL (_ & Hwd & _) H IH];
      constructor; assumption. }
  { apply (valid_groups_same_shape self _ _ _ HvC). }
  destruct (ranking_loss_value self batch' eps_drug eps_local g loss'
              Hne' ltac:(lia) Hw) as (anchors' & cands' & Ha' & Hc' & ->);
    try assumption.
  { clear - HvC'. induction HvC' as [|cx cl CX CL (_ & Hwd & _) H IH];
      constructor; assumption. }
  { apply (valid_groups_same_shape self _ _ _ HvC'). }
  rewrite Es, Ex, El, Ha in Ha'. injection Ha' as <-.
  rewrite Es in Hc'.
  assert (LC : length (loc_ranking_len batch) = length (loc_ranking_inputs batch))
    by (symmetry; eapply Forall2_length; exact HvC).
  assert (LC' : length (loc_ranking_len batch') = length (loc_ranking_inputs batch'))
    by (symmetry; eapply Forall2_length; exact HvC').
  rewrite (gather_combine _ _ [] []) in Hc, Hc' by assumption.
  assert (Hrel := Forall2_gather _ _ _ ([], []) ([], []) _ _ (selected batch) Hperm).
  specialize (Hrel ltac:(rewrite length_combine, LC, Nat.min_id, <- LC, HCL;
                         apply selected_lt)).
  pose proof (encode_candidates_perm self _ _ _ _ Hrel Hc Hc') as Hcands.
  f_equal.
  clear - Hcands. revert anchors.
  induction Hcands as [|c c' cands cands' (m0 & ms & ms' & -> & -> & P) _ IH];
    intros [|a anchors]; cbn [map2 map]; try reflexivity.
  rewrite IH. f_equal.
  unfold candidate_distances. cbn [map].
  symmetry. apply anchor_loss_perm, Permutation_map. exact P.
Qed.

Lemma ranking_loss_order_of_negatives_witness :
  ranking_loss (small_model (1 / 2) 0 0 0 0)
    {| drug_name := ["aspirin"; "caffeine"]%string;
       drug_inputs := [[2; 0; 0]; [2; 3; 0]]%Z;
       drug_targets := [[3; 0; 0]; [3; 3; 0]]%Z;
       drug_len := [1; 2]%Z;
       loc_ranking_indicator := [0; 1]%Z;
       loc_ranking_len := [[1; 1; 2]; [2; 2; 1]]%Z;
       loc_ranking_inputs := [[[2; 0]; [2; 0]; [2; 3]]; [[2; 3]; [2; 3]; [2; 0]]]%Z |}
    [[5%R]] [[5%R]; [7%R]; [1%R]]
  = ranking_loss (small_model (1 / 2) 0 0 0 0)
    {| drug_name := ["aspirin"; "caffeine"]%string;
       drug_inputs := [[2; 0; 0]; [2; 3; 0]]%Z;
       drug_targets := [[3; 0; 0]; [3; 3; 0]]%Z;
       drug_len := [1; 2]%Z;
       loc_ranking_indicator := [0; 1]%Z;
       loc_ranking_len := [[1; 2; 1]; [2; 1; 2]]%Z;
       loc_ranking_inputs := [[[2; 0]; [2; 3]; [2; 0]]; [[2; 3]; [2; 0]; [2; 3]]]%Z |}
    [[5%R]] [[5%R]; [7%R]; [1%R]].
Proof.
  apply (ranking_loss_order_of_negatives (small_model (1 / 2) 0 0 0 0) 3 3).
  - unfold rankable, valid_batch, has_width. simpl.
    repeat split; repeat (apply Forall_cons || apply Forall_nil
                          || apply Forall2_cons || apply Forall2_nil || split);
      try reflexivity; unfold valid_token; simpl; lia.
  - unfold rankable, valid_batch, has_width. simpl.
    repeat split; repeat (apply Forall_cons || apply Forall_nil
                          || apply Forall2_cons || apply Forall2_nil || split);
      try reflexivity; unfold valid_token; simpl; lia.
  - unfold same_up_to_negatives. simpl. repeat split.
    constructor; [|constructor; [|constructor]].
    + eexists _, _, _. repeat split. apply perm_swap.
    + eexists _, _, _. repeat split. apply perm_swap.
  - discriminate.
  - lia.
  - simpl. lia.
  - simpl. lia.
  - simpl. lia.
  - intros h. reflexivity.
Defined.

(** ** An indicator shorter than the batch *)

Lemma select_from_out_of_range (instance_idx : list Z) (n s : nat) :
  (s <= length instance_idx < s + n)%nat ->
  select_from instance_idx (seq s n) = Raise IndexError.
Proof.
  revert s. induction n as [|n IH]; intros s H; [lia|]. simpl.
  destruct (Nat.eq_dec s (length instance_idx)) as [E|E].
  - unfold row.
    rewrite (proj2 (nth_error_None instance_idx s)) by lia. reflexivity.
  - rewrite (row_nth _ 0%Z) by lia. cbn [bind].
    rewrite IH by lia. reflexivity.
Qed.

(** X23 ([ranking_loss]): the loop over the batch reads the indicator at
    every position below the number of names.  An indicator with fewer
    entries makes the ranking loss raise [IndexError], whatever the flags
    and the sequences are. *)
Theorem ranking_loss_short_indicator
  (self : EVAE) (batch : Batch) (eps_drug eps_local : list (list R)) :
  (length (loc_ranking_indicator batch) < length (drug_name batch))%nat ->
  ranking_loss self batch eps_drug eps_local = Raise IndexError.
Proof.
  intros H. unfold ranking_loss.
  rewrite select_from_out_of_range by lia. reflexivity.
Qed.

Lemma ranking_loss_short_indicator_witness :
  ranking_loss (small_model (1 / 2) 0 0 0 0)
    {| drug_name := ["aspirin"; "caffeine"]%string;
       drug_inputs := [[2; 0; 0]; [2; 3; 0]]%Z;
       drug_targets := [[3; 0; 0]; [3; 3; 0]]%Z;
       drug_len := [1; 2]%Z;
       loc_ranking_indicator := [0%Z];
       loc_ranking_len := [];
       loc_ranking_inputs := [] |} [] [] = Raise IndexError.
Proof.
  apply ranking_loss_short_indicator. simpl. lia.
Defined.

(** ** A single candidate in all *)

(** X24 ([ranking_loss]): on a rankable batch with one flagged example
    whose group holds the positive candidate alone, for a vocabulary that
    is not empty, the ranking loss raises [IndexError]: the single
    candidate length is squeezed to a scalar, the row it selects has one
    axis, and the encoder asks for the second. *)
Theorem ranking_loss_single_candidate
  (self : EVAE) (T : nat) (batch : Batch) (eps_drug eps_local : list (list R)) :
  rankable self T 1 batch ->
  length (selected batch) = 1%nat ->
  (1 <= max_sequence_length self - 1)%nat ->
  (1 <= vocab_size self)%nat ->
  ranking_loss self batch eps_drug eps_local = Raise IndexError.
Proof.
  intros (LI & LL & LCL & HvX & HvC & HCL) Hone Hw HV.
  set (B := length (drug_name batch)) in *.
  set (sel := selected batch) in *.
  pose proof (selected_lt batch) as Hsel. fold sel in Hsel. fold B in Hsel.
  assert (LX : length (drug_inputs batch) = B) by (destruct HvX as [E _]; congruence).
  assert (LCX : length (loc_ranking_inputs batch) = B)
    by (rewrite (Forall2_length HvC); exact LCL).
  unfold ranking_loss.
  rewrite select_from_returns by (rewrite LI; apply Forall_forall; intros i Hi;
                                  apply in_seq in Hi; unfold B; lia).
  cbn [bind]. fold (selected batch). fold sel. rewrite length_map, Hone.
  cbn [Nat.eqb].
  rewrite (index_select_gather _ []) by (rewrite LX; exact Hsel). cbn [bind].
  rewrite (index_select_gather _ 0%Z) by (rewrite LL; exact Hsel). cbn [bind].
  set (Xs := gather [] (drug_inputs batch) sel).
  set (Ls := gather 0%Z (drug_len batch) sel).
  rewrite torch_sort_eq.
  assert (HvXs : valid_batch self T Xs Ls)
    by (apply valid_batch_gather; [exact HvX | rewrite LL; exact Hsel]).
  assert (LXs : length Xs = length Ls) by (destruct HvXs as [E' _]; exact E').
  assert (Lp1 : Forall (fun k => (k < length Xs)%nat) (sort_perm Ls true))
    by (rewrite LXs; apply sort_perm_lt).
  rewrite (index_select_gather _ [] Xs _ Lp1).
  cbn [bind].
  destruct (encoder_returns self T _ _ (valid_batch_sorted self T _ _ HvXs))
    as [H1' Henc1].
  { rewrite <- fst_torch_sort. apply sorted_desc_torch_sort. }
  { apply gather_sort_nonempty. intros EL. apply (f_equal (@length Z)) in EL.
    unfold Ls in EL. rewrite length_gather, Hone in EL. discriminate. }
  { exact HV. }
  rewrite Henc1. cbn [bind]. rewrite reparameterize_mean.
  rewrite (index_select_gather _ []) by (rewrite LCL; exact Hsel). cbn [bind].
  rewrite (index_select_gather _ []) by (rewrite LCX; exact Hsel). cbn [bind].
  set (CXs := gather [] (loc_ranking_inputs batch) sel).
  set (CLs := gather [] (loc_ranking_len batch) sel).
  set (w := (max_sequence_length self - 1)%nat) in *.
  assert (HvCs : Forall2 (valid_batch self w) CXs CLs).
  { unfold CXs, CLs. apply Forall2_gather; [exact HvC | rewrite LCX; exact Hsel]. }
  assert (HCLs : has_width 1 CLs)
    by (apply Forall_gather; [exact HCL | rewrite LCL; exact Hsel]).
  pose proof (valid_batch_concat self w _ _ HvCs) as (LF & WF & VF & LnF).
  rewrite (view_rows_concat _ w (concat CXs)) by assumption.
  cbn [bind].
  rewrite (length_concat_width _ 1 CLs HCLs).
  unfold CLs. rewrite length_gather, Hone. reflexivity.
Qed.

Lemma ranking_loss_single_candidate_witness :
  ranking_loss (small_model (1 / 2) 0 0 0 0)
    {| drug_name := ["aspirin"; "caffeine"]%string;
       drug_inputs := [[2; 0; 0]; [2; 3; 0]]%Z;
       drug_targets := [[3; 0; 0]; [3; 3; 0]]%Z;
       drug_len := [1; 2]%Z;
       loc_ranking_indicator := [0; 1]%Z;
       loc_ranking_len := [[1]; [2]]%Z;
       loc_ranking_inputs := [[[2; 0]]; [[2; 3]]]%Z |} [[5%R]] [[5%R]]
  = Raise IndexError.
Proof.
  apply (ranking_loss_single_candidate (small_model (1 / 2) 0 0 0 0) 3).
  - unfold rankable, valid_batch, has_width. simpl.
    repeat split; repeat (apply Forall_cons || apply Forall_nil
                          || apply Forall2_cons || apply Forall2_nil || split);
      try reflexivity; unfold valid_token; simpl; lia.
  - reflexivity.
  - simpl. lia.
  - simpl. lia.
Defined.

(** ** The MMD estimator is symmetric *)

Lemma sum_list_map_const0 (A : Type) (l : list A) :
  sum_list (map (fun _ => 0%R) l) = 0%R.
Proof.
  induction l as [|a l IH]; unfold sum_list in *; simpl; [reflexivity|].
  rewrite IH. lra.
Qed.

Lemma sum_list_map_plus (A : Type) (f g : A -> R) (l : list A) :
  sum_list (map (fun a => (f a + g a)%R) l)
  = (sum_list (map f l) + sum_list (map g l))%R.
Proof.
  induction l as [|a l IH]; unfold sum_list in *; simpl; [lra|].
  rewrite IH. lra.
Qed.

Lemma sum_list_swap (A B : Type) (f : A -> B -> R) (x : list A) (y : list B) :
  sum_list (map (fun a => sum_list (map (fun b => f a b) y)) x)
  = sum_list (map (fun b => sum_list (map (fun a => f a b) x)) y).
Proof.
  induction x as [|a x IH].
  - simpl. rewrite sum_list_map_const0. reflexivity.
  - cbn [map]. rewrite (sum_list_map_plus _ (fun b => f a b)
                          (fun b => sum_list (map (fun a' => f a' b) x))).
    rewrite <- IH. reflexivity.
Qed.

Lemma gaussian_kernel_sym (dim : nat) (a b : list R) :
  gaussian_kernel dim a b = gaussian_kernel dim b a.
Proof.
  unfold gaussian_kernel, mean_sq_diff.
  rewrite (map_ext (fun i => ((nth i a 0 - nth i b 0) ^ 2)%R)
                   (fun i => ((nth i b 0 - nth i a 0) ^ 2)%R))
    by (intros i; ring).
  reflexivity.
Qed.

Lemma kernel_mean_value (dim : nat) (x y : list (list R)) :
  has_width dim x -> has_width dim y ->
  tensor_mean (compute_kernel x y)
  = (sum_list (map (fun a => sum_list (map (fun b => gaussian_kernel dim a b) y)) x)
     / INR (length x * length y))%R.
Proof.
  intros Hx Hy. rewrite (compute_kernel_entries dim) by assumption.
  apply tensor_mean_entries.
Qed.

Lemma kernel_mean_sym (dim : nat) (x y : list (list R)) :
  has_width dim x -> has_width dim y ->
  tensor_mean (compute_kernel x y) = tensor_mean (compute_kernel y x).
Proof.
  intros Hx Hy. rewrite !(kernel_mean_value dim) by assumption.
  rewrite sum_list_swap, (Nat.mul_comm (length x)). do 2 f_equal.
  apply map_ext. intros b. f_equal. apply map_ext. intros a.
  apply gaussian_kernel_sym.
Qed.

(** X25 ([mmd_loss], [compute_mmd], [compute_kernel]): on two samples of
    the same dimension the MMD estimate does not depend on which of the two
    is the sample of the prior, and the estimate between a sample and
    itself is zero. *)
Theorem mmd_loss_symmetric (self : EVAE) (dim : nat) (x y : list (list R)) :
  (1 <= dim)%nat -> x <> [] -> y <> [] ->
  has_width dim x -> has_width dim y ->
  mmd_loss self x y = mmd_loss self y x /\ mmd_loss self x x = 0%R.
Proof.
  intros _ _ _ Hx Hy. unfold mmd_loss, compute_mmd, to_cuda_var. split.
  - rewrite (kernel_mean_sym dim y x) by assumption. lra.
  - lra.
Qed.

Lemma mmd_loss_symmetric_witness :
  mmd_loss (small_model (1 / 2) 0 0 0 1) [[0]; [2]]%R [[1]; [3]]%R
  = mmd_loss (small_model (1 / 2) 0 0 0 1) [[1]; [3]]%R [[0]; [2]]%R /\
  mmd_loss (small_model (1 / 2) 0 0 0 1) [[0]; [2]]%R [[0]; [2]]%R = 0%R.
Proof.
  apply (mmd_loss_symmetric (small_model (1 / 2) 0 0 0 1) 1).
  - lia.
  - discriminate.
  - discriminate.
  - repeat constructor.
  - repeat constructor.
Defined.

(** ** The values of the kernel *)

Lemma mean_sq_diff_nonneg (dim : nat) (a b : list R) :
  (1 <= dim)%nat -> (0 <= mean_sq_diff dim a b / INR dim)%R.
Proof.
  intros Hd. unfold mean_sq_diff.
  assert (HI : (0 < INR dim)%R) by (apply lt_0_INR; lia).
  assert (HS : (0 <= sum_list (map (fun i => ((nth i a 0 - nth i b 0) ^ 2)%R)
                                   (seq 0 dim)))%R).
  { apply sum_list_nonneg, Forall_map, Forall_forall. intros i _. apply pow2_ge_0. }
  apply Rmult_le_pos; [apply Rmult_le_pos; [exact HS|]|];
    apply Rlt_le, Rinv_0_lt_compat; exact HI.
Qed.

Lemma mean_sq_diff_self (dim : nat) (a : list R) : mean_sq_diff dim a a = 0%R.
Proof.
  unfold mean_sq_diff.
  rewrite (map_ext _ (fun _ => 0%R)) by (intros i; ring).
  rewrite sum_list_map_const0. unfold Rdiv. ring.
Qed.

Lemma gaussian_kernel_range (dim : nat) (a b : list R) :
  (1 <= dim)%nat -> (0 <= gaussian_kernel dim a b <= 1)%R.
Proof.
  intros Hd. unfold gaussian_kernel. split; [apply Rlt_le, exp_pos|].
  pose proof (mean_sq_diff_nonneg dim a b Hd) as H.
  destruct (Rle_lt_or_eq_dec _ _ H) as [Hlt|Heq].
  - rewrite <- exp_0. apply Rlt_le, exp_increasing. lra.
  - rewrite <- Heq, Ropp_0, exp_0. lra.
Qed.

(** X26 ([compute_kernel]): on samples of a positive dimension every
    value of the kernel lies in the interval from 0 to 1, both included,
    and the kernel of a sample with itself has the value 1 on its
    diagonal. *)
Theorem compute_kernel_range (dim : nat) (x y : list (list R)) :
  (1 <= dim)%nat -> has_width dim x -> has_width dim y ->
  Forall (Forall (fun k => (0 <= k <= 1)%R)) (compute_kernel x y) /\
  (forall i, (i < length x)%nat ->
             nth i (nth i (compute_kernel x x) []) 0%R = 1%R).
Proof.
  intros Hd Hx Hy. split.
  - rewrite (compute_kernel_entries dim) by assumption.
    apply Forall_map, Forall_forall. intros a _.
    apply Forall_map, Forall_forall. intros b _.
    apply gaussian_kernel_range. exact Hd.
  - intros i Hi. rewrite (compute_kernel_entries dim) by assumption.
    rewrite (nth_indep _ [] (map (fun b => gaussian_kernel dim [] b) x))
      by (rewrite length_map; exact Hi).
    rewrite (map_nth (fun a => map (fun b => gaussian_kernel dim a b) x) x [] i).
    rewrite (nth_indep _ 0%R (gaussian_kernel dim (nth i x []) []))
      by (rewrite length_map; exact Hi).
    rewrite (map_nth (fun b => gaussian_kernel dim (nth i x []) b) x [] i).
    unfold gaussian_kernel. rewrite mean_sq_diff_self.
    unfold Rdiv. rewrite Rmult_0_l, Ropp_0. apply exp_0.
Qed.

Lemma compute_kernel_range_witness :
  Forall (Forall (fun k => (0 <= k <= 1)%R)) (compute_kernel [[0]; [2]]%R [[1]; [3]]%R) /\
  (forall i, (i < 2)%nat ->
             nth i (nth i (compute_kernel [[0]; [2]]%R [[0]; [2]]%R) []) 0%R = 1%R).
Proof.
  apply (compute_kernel_range 1 [[0]; [2]]%R [[1]; [3]]%R).
  - lia.
  - repeat constructor.
  - repeat constructor.
Defined.

(** ** The dispatch of [forward] *)

Lemma selected_none (batch : Batch) :
  Forall (fun flag => flag <> 1%Z) (loc_ranking_indicator batch) ->
  selected batch = [].
Proof.
  intros H. unfold selected.
  induction (seq 0 (length (drug_name batch))) as [|i l IH]; simpl; [reflexivity|].
  destruct (Z.eqb_spec (nth i (loc_ranking_indicator batch) 0%Z) 1) as [E|E];
    [|exact IH].
  exfalso.
  destruct (Nat.lt_ge_cases i (length (loc_ranking_indicator batch))) as [Hi|Hi].
  - apply (proj1 (Forall_forall _ _) H _ (nth_In _ 0%Z Hi)). exact E.
  - rewrite nth_overflow in E by exact Hi. discriminate.
Qed.

(** X27 ([forward], [ranking_loss]): for the task ['atc'] on a batch none
    of whose examples is flagged, [forward] returns five zeros: no
    sequence is encoded, so the sequences, the lengths and the candidates
    are not looked at and need not be valid. *)
Theorem forward_atc_without_flag
  (self : EVAE) (batch : Batch) (num_samples : Z)
  (eps prob true_samples eps_drug eps_local : list (list R)) :
  length (loc_ranking_indicator batch) = length (drug_name batch) ->
  Forall (fun flag => flag <> 1%Z) (loc_ranking_indicator batch) ->
  forward self "atc" batch num_samples eps prob true_samples eps_drug eps_local
  = Ok (Some (0, 0, 0, 0, 0)%R).
Proof.
  intros Hlen Hflag. unfold forward. simpl.
  rewrite ranking_loss_none_selected; [reflexivity|exact Hlen|].
  apply selected_none. exact Hflag.
Qed.

Lemma forward_atc_without_flag_witness :
  forward (small_model (1 / 2) 0 0 0 0) "atc"
    {| drug_name := ["aspirin"; "caffeine"]%string;
       drug_inputs := [[9; 9; 9]]%Z;
       drug_targets := [];
       drug_len := [-1]%Z;
       loc_ranking_indicator := [0; 0]%Z;
       loc_ranking_len := [];
       loc_ranking_inputs := [] |} 10 [] [] [] [] []
  = Ok (Some (0, 0, 0, 0, 0)%R).
Proof.
  apply forward_atc_without_flag.
  - reflexivity.
  - repeat constructor; discriminate.
Defined.

(** X28 ([forward]): the task ['vae + atc'] is the two tasks together.
    It returns the four terms of the task ['vae'] and the ranking term of
    the task ['atc'] exactly when both return, under the same draws; and it
    raises what the task ['vae'] raises, before any ranking. *)
Theorem forward_both_tasks
  (self : EVAE) (batch : Batch) (num_samples : Z)
  (eps prob true_samples eps_drug eps_local : list (list R))
  (recon kl mkl mmd rank : R) :
  let run task :=
    forward self task batch num_samples eps prob true_samples eps_drug eps_local in
  (run "vae + atc"%string = Ok (Some (recon, kl, mkl, mmd, rank))
   <-> run "vae"%string = Ok (Some (recon, kl, mkl, mmd, 0%R)) /\
       run "atc"%string = Ok (Some (0, 0, 0, 0, rank)%R)) /\
  (forall e, run "vae"%string = Raise e -> run "vae + atc"%string = Raise e).
Proof.
  intros run. unfold run, forward, to_cuda_var. simpl.
  destruct (vae_loss self batch num_samples eps prob true_samples)
    as [[[[r k] m] d]|e]; simpl;
    destruct (ranking_loss self batch eps_drug eps_local) as [l|e']; simpl.
  - split; [split|discriminate].
    + intros H. injection H as -> -> -> -> ->. auto.
    + intros [H1 H2]. injection H1 as -> -> -> ->. injection H2 as ->. reflexivity.
  - split; [split|discriminate].
    + discriminate.
    + intros [_ H]. discriminate.
  - split; [split|auto].
    + discriminate.
    + intros [H _]. discriminate.
  - split; [split|auto].
    + discriminate.
    + intros [H _]. discriminate.
Qed.

(** X29 ([forward]): a task other than ['vae'], ['atc'] and
    ['vae + atc'] is not rejected: [forward] returns [None] on every
    batch, and computes no loss. *)
Theorem forward_unknown_task
  (self : EVAE) (task : string) (batch : Batch) (num_samples : Z)
  (eps prob true_samples eps_drug eps_local : list (list R)) :
  task <> "vae"%string -> task <> "atc"%string -> task <> "vae + atc"%string ->
  forward self task batch num_samples eps prob true_samples eps_drug eps_local
  = Ok None.
Proof.
  intros H1 H2 H3. unfold forward.
  rewrite (proj2 (String.eqb_neq _ _) H1), (proj2 (String.eqb_neq _ _) H2),
    (proj2 (String.eqb_neq _ _) H3). reflexivity.
Qed.

Lemma forward_unknown_task_witness :
  forward (small_model (1 / 2) 0 0 0 0) "vae+atc" batch_of_one 10 [] [] [] [] []
  = Ok None.
Proof.
  apply forward_unknown_task; discriminate.
Defined.

(** X30 ([forward], [ranking_loss]): the task ['atc'] is not random.
    The two calls of [reparameterize] in the ranking loss draw noise, but
    only the means are used: the result is the same for all draws, and for
    every [num_samples]. *)
Theorem forward_atc_ignores_draws
  (self : EVAE) (batch : Batch) (num_samples num_samples' : Z)
  (eps prob true_samples eps_drug eps_local : list (list R))
  (eps' prob' true_samples' eps_drug' eps_local' : list (list R)) :
  forward self "atc" batch num_samples eps prob true_samples eps_drug eps_local
  = forward self "atc" batch num_samples' eps' prob' true_samples' eps_drug' eps_local'.
Proof.
  unfold forward. simpl. unfold ranking_loss.
  destruct (select_from _ _) as [select_idx|e]; [|reflexivity]. cbn [bind].
  destruct (length select_idx =? 0)%nat; [reflexivity|].
  destruct (index_select (drug_inputs batch) select_idx) as [Xs|e]; [|reflexivity].
  cbn [bind].
  destruct (index_select (drug_len batch) select_idx) as [Ls|e]; [|reflexivity].
  cbn [bind].
  destruct (torch_sort Ls true) as [sorted_lengths sorted_idx].
  destruct (index_select Xs sorted_idx) as [Xss|e]; [|reflexivity]. cbn [bind].
  destruct (encoder self Xss sorted_lengths) as [hidden_drug|e]; [|reflexivity].
  cbn [bind].
  rewrite (reparameterize_mean self hidden_drug eps_drug),
    (reparameterize_mean self hidden_drug eps_drug').
  destruct (index_select (loc_ranking_len batch) select_idx) as [CLs|e];
    [|reflexivity]. cbn [bind].
  destruct (index_select (loc_ranking_inputs batch) select_idx) as [CXs|e];
    [|reflexivity]. cbn [bind].
  destruct (view_rows _ _) as [flat|e]; [|reflexivity]. cbn [bind].
  destruct (length (concat CLs) =? 1)%nat; [reflexivity|].
  destruct (torch_sort (concat CLs) true) as [local_sorted_lengths local_sorted_idx].
  destruct (index_select flat local_sorted_idx) as [flat_sorted|e]; [|reflexivity].
  cbn [bind].
  destruct (encoder self flat_sorted local_sorted_lengths) as [hidden_local|e];
    [|reflexivity]. cbn [bind].
  rewrite (reparameterize_mean self hidden_local eps_local),
    (reparameterize_mean self hidden_local eps_local').
  reflexivity.
Qed.
